(* ===== verification/_CoqProject ===== *)
-Q . S2P
Prelude.v
Containers.v
Value.v
Pointer.v
Builder.v
Parser.v
Invariant.v
Equiv.v
Generator.v
RoundTrip.v
ReadLoop.v
Main.v
Resources.v
Spec.v
Depth.v
