(* ===== verification/Prelude.v ===== *)
(** * rjson: a verification development for [src/program.cpp]

    The program rewrites a JSON file in the layout of the yajl generator.
    [main] reads the input to its end, hands the text to the yajl parser,
    which calls one of the ten callbacks of [reader_cb] per event; the
    callbacks assemble one [json_data] tree through
    [json_data_state::insert]; then [generate_json] walks the tree and
    calls the yajl generator once per node, and [main] writes the buffer of
    the generator to the output, by default over the input.  yajl itself
    is not part of the sources.

    ** Files, in the order of their dependencies

    - [Prelude] (this file): the error monad [res], the tactics and the
      hint database [rjson] the other files use, generic facts on lists.
    - [Containers]: [std::unordered_map<std::string, T>] as an association
      list in insertion order with [map_emplace] (no effect on a key that
      is present), [map_at] (partial: the C++ call throws) and
      [map_iterate], the entries in the order of a range-for, which is a
      parameter ([MapOrder]: any permutation); [std::list<T>] with
      [list_emplace_back] and [list_back].
    - [Value]: [enum json_type] and [struct json_data] as an inductive type
      whose constructor is the tag and whose argument is the active member
      of the union; the five C++ constructors and the member the
      destructor destroys; [keys_unique], [in_range].
    - [Pointer]: a [json_data*] is the access path from [root] ([Idx i] into
      a list, [Key k] into a map), since both containers keep the address
      of an element while others are added; [deref], [update], [store] and
      the lemmas on reads after writes.
    - [Builder]: [json_data_state] ([stack], [tempKey], [root]), [insert]
      branch by branch, and the ten lambdas of [reader_cb], one definition
      each, dispatched by [reader_cb] on an [event].  A callback returns
      the [int] yajl looks at (0 cancels) and the next state, or a [fault]
      where the C++ has undefined behaviour or throws ([stack.pop()] on an
      empty stack, a read through a dangling pointer, [map.at] on a missing
      key).  Theorems: what [insert] does in each situation.
    - [Parser]: [yajl_run], yajl calling back for a sequence of events and
      stopping at a callback that returns 0; [events_of d], the events of
      the text of [d].  Theorems: a document with distinct keys is rebuilt
      exactly; no sequence with matched end events faults; the stack only
      holds valid pointers; what a repeated key does.
    - [Invariant]: properties of every tree the callbacks build, for any
      events: distinct keys, payloads in the range of their C type, and
      every object at its address with its kind for ever.
    - [Equiv]: equivalence of values up to the order of members
      ([json_equiv], an [Equiv] instance with its [Proper] instances),
      its structure on arrays and objects, the comparison [json_equivb]
      that decides it, and [reorder], a value with its members in
      iteration order.
    - [Generator]: the functions of the yajl generator that
      [generate_json] calls, as the class [YajlGen]; [generate_json] with
      its early returns ([and_then], [for_each]); two instances of the
      class that record calls, one of which fails from a given call on.
      Theorems: [generate_json] is the sequence of calls [calls_of], up to
      the first failure, on any generator.
    - [RoundTrip]: the parser of yajl on the text the generator writes,
      token by token ([parse_tokens]).  Theorems: generate, parse and
      build yields an equivalent value, the same value when maps iterate
      in insertion order.
    - [ReadLoop]: the loop of [main] that reads the input in chunks of
      [READ_BUFSIZE] into a [std::vector] it enlarges.  Theorems: it ends,
      never stores outside the vector, and reads the whole input; the
      size of the buffer is exponential in the size of the input where the
      vector grows geometrically; with a vector that has a largest size
      the loop leaves by [std::length_error] exactly when it asks for
      more.
    - [Main]: [main] on a [world] of files and streams, from [argv] to the
      exit code, against the interfaces [YajlParse] and [YajlBuf].
      Theorems: no undefined behaviour; the text is normalised, from a
      file to the same or another file and from the standard input to the
      standard output; a second run changes nothing where maps iterate
      in a stable order and undoes the first where they iterate from
      their newest entry;
      nothing is written on failure; what [main] does with a failing
      generator, and two errors in its error reports; the inputs on which
      [main] ends by an uncaught [std::length_error].
    - [Resources]: [main] once more, with the ledger of what each
      statement does to its handles (the two streams, the parser, the
      error text, the generator, the tree).  Theorem: on every path a
      handle is used only between its allocation and its release and
      nothing is left live but the tree, which is never deleted.
    - [Spec]: the builder as the specification describes it, with its four
      errors and insert-or-replace.  Theorems: the callbacks simulate it
      where it accepts and no key is repeated; where they part.
    - [Depth]: a third generator, [checked_gen], the state machine of the
      yajl generator: a key must be a string, nothing follows the
      top-level value, and at most [YAJL_MAX_DEPTH] containers are open, a
      limit the parser does not have.  Theorems: [generate_json] makes no
      call the generator refuses for its position and succeeds exactly on
      the values nested less deep than the limit; what [main] leaves in
      the file on deeper input, and that it normalises every shallower
      one.

    ** Conventions

    - A fallible operation returns [res E A]: [Ok a] or [Err e].
    - An [int64_t] is a [Z] with the range predicate [in_int64], and is
      the [long long] the integer callback of yajl passes; a [double]
      is its bit pattern, a [Z] in [in_double]: the program stores and
      forwards payloads and does no arithmetic on them.  Sizes are [nat]:
      the size of a vector is bounded by its [max_size] ([VectorGrowth]),
      below which [size_t] does not wrap; the theorems on whole runs of
      [main] are for a vector without limit ([Unlimited]).
    - Definitions keep the names of the source wherever Rocq allows it.

    ** Bounds and fuel

    - [read_loop] is by recursion on fuel.  [read_file] gives it one unit
      more than the stream has bytes; an iteration that is followed by
      another has read a full chunk of at least one byte, so the fuel
      suffices ([read_file_whole], for every stream and chunk size).
    - [generate_json], [yajl_run] and [parse_tokens] are structural; no
      other definition needs fuel.
    - The largest size of the vector is a parameter: the theorems on the
      vector with a limit hold for every limit of [READ_BUFSIZE] at
      least, and are applied to the limits below [2 ^ 63] of 64-bit
      implementations.
    - The depth of a tree is bounded by nothing in the sources: the
      recursion of [generate_json] uses one stack frame per level, which
      the model does not account for.  The bound that takes effect first
      is the one of the generator, [YAJL_MAX_DEPTH] = 128 open containers;
      the theorems of [Depth] hold for any limit and are applied at that
      one.

    ** Not modelled

    - The bytes of a JSON text: the lexer of yajl (white space, comments,
      escapes, the syntax of numbers) and the formatting of its generator
      (indentation, escaping, [%.20g]).  A text is its sequence of tokens;
      that a number or a string is read back as written is assumed.
    - The destruction of a tree: of [~json_data] there is the member it
      destroys for a tag ([Value]), not the run through the children,
      which is that of the destructors of the containers; the program has
      no [delete], so that it never runs on the tree ([Resources]).
    - The failure of an allocation below [max_size] ([std::bad_alloc], a
      null result of [yajl_alloc]): the sizes the program asks for are
      computed and compared with the limit of the vector, not with the
      memory of the machine.
    - The content of the messages of [usage], [perror] and yajl, and read
      errors of [fread]. *)

From Stdlib Require Import ZArith Lia.
From stdpp Require Import base tactics option list list_numbers.

(** ** The error monad *)

Inductive res (E A : Type) : Type :=
| Ok (a : A)
| Err (e : E).
Arguments Ok {E A} a.
Arguments Err {E A} e.

#[export] Instance res_ret {E} : MRet (res E) := λ A a, Ok a.

#[export] Instance res_bind {E} : MBind (res E) :=
  λ A B f m, match m with Ok a => f a | Err e => Err e end.

Definition is_ok {E A} (m : res E A) : bool :=
  match m with Ok _ => true | Err _ => false end.

(** ** Hint database and tactics *)

Create HintDb rjson discriminated.
Create Rewrite HintDb rjson.

(** [destruct_ok m as p eqn:E] takes the value of the option or result [m],
    by the pattern [p], and dismisses the case in which [m] has none. *)
Tactic Notation "destruct_ok" constr(m) "as" simple_intropattern(p) "eqn" ":" ident(E) :=
  destruct m as [p|] eqn:E; simpl; [|done].

Tactic Notation "destruct_ok" constr(m) "as" simple_intropattern(p) :=
  destruct m as [p|]; simpl; [|done].

(** [by_compute] proves a decidable proposition by evaluating its decision
    procedure. *)
Ltac by_compute := apply (bool_decide_unpack _); vm_compute; exact I.

Section res_laws.
Context {E A B : Type}.

Lemma res_bind_ok (a : A) (f : A → res E B) : Ok a ≫= f = f a.
Proof. reflexivity. Qed.

Lemma res_bind_err (e : E) (f : A → res E B) : Err e ≫= f = Err e.
Proof. reflexivity. Qed.

Lemma res_bind_inv_ok (m : res E A) (f : A → res E B) (b : B) :
  m ≫= f = Ok b → ∃ a, m = Ok a ∧ f a = Ok b.
Proof. destruct m; [eauto | discriminate]. Qed.

End res_laws.

#[export] Hint Rewrite @res_bind_ok @res_bind_err : rjson.

(** ** Lists *)

Section lists.
Context {A : Type}.
Implicit Types (l : list A) (f : A → bool).

Lemma forallb_Forall f l : forallb f l = true ↔ Forall (λ x, f x = true) l.
Proof.
  rewrite forallb_forall, Forall_forall.
  split; intros H x Hx; apply H; by apply list_elem_of_In.
Qed.

Lemma forallb_app_true f l1 l2 :
  forallb f l1 = true → forallb f l2 = true → forallb f (l1 ++ l2) = true.
Proof. rewrite forallb_app. by intros -> ->. Qed.

Lemma Forall_lookup_Some (P : A → Prop) l i x : Forall P l → l !! i = Some x → P x.
Proof. intros H. by apply Forall_lookup. Qed.

Lemma Forall_mp (P Q : A → Prop) l : Forall (λ x, P x → Q x) l → Forall P l → Forall Q l.
Proof. induction 1; inversion 1; subst; constructor; auto. Qed.

Lemma list_alter_id_at (g : A → A) l i :
  (∀ x, l !! i = Some x → g x = x) → alter g i l = l.
Proof.
  intros H. rewrite <- (list_alter_id id l i) at 2 by done.
  by apply list_alter_ext.
Qed.

Lemma max_list_with_fmap {C} (g : A → nat) (h : C → A) (l : list C) :
  max_list_with g (h <$> l) = max_list_with (g ∘ h) l.
Proof. induction l as [|x l IH]; csimpl; [done|]. by rewrite IH. Qed.

Lemma max_list_with_ext (g h : A → nat) l :
  Forall (λ x, g x = h x) l → max_list_with g l = max_list_with h l.
Proof. induction 1 as [|x l Hx _ IH]; simpl; [done|]. by rewrite Hx, IH. Qed.

End lists.
