(* ===== verification/Containers.v ===== *)
(** * Containers: the standard containers [json_data] stores its children in

    [std::unordered_map<std::string, T>] is modelled by the list of its
    entries in insertion order; [map_emplace] and [map_at] are the two
    member functions [json_data_state::insert] calls, and [map_alter] is a
    write through a pointer obtained from [&m.at(k)].  Keys are pairwise
    distinct ([map_ok]); [map_emplace] keeps them so.

    [std::list<T>] is a list: [list_emplace_back] appends, [list_back] is
    the position of the element [&l.back()] points to, and a write through
    such a pointer is stdpp's [alter].  Both containers are node based, so
    an element never moves: the position (resp. key) of an element names it
    for as long as the container lives. *)

From Stdlib Require Import ZArith Lia.
From stdpp Require Import base tactics option list strings.
From S2P Require Import Prelude.

Section unordered_map.
Context {T : Type}.
Implicit Types (k : string) (v : T) (m : list (string * T)).

(** The keys, in insertion order. *)
Definition map_keys m : list string := m.*1.

(** The class invariant of [std::unordered_map]: no key occurs twice. *)
Definition map_ok m : Prop := NoDup (map_keys m).

(** [m.at(k)]: the mapped value, [None] where the C++ call throws
    [std::out_of_range]. *)
Fixpoint map_at k m : option T :=
  match m with
  | [] => None
  | (k', v) :: m' => if decide (k = k') then Some v else map_at k m'
  end.

(** [m.emplace(k, v)]: adds the entry when no entry has key [k], and does
    nothing otherwise. *)
Definition map_emplace k v m : list (string * T) :=
  match map_at k m with
  | Some _ => m
  | None => m ++ [(k, v)]
  end.

(** A write [*p = f( *p )] through [p = &m.at(k)]. *)
Fixpoint map_alter (f : T → T) k m : list (string * T) :=
  match m with
  | [] => []
  | (k', v) :: m' => if decide (k = k') then (k', f v) :: m' else (k', v) :: map_alter f k m'
  end.

(** *** Lookup *)

Lemma map_at_None k m : map_at k m = None ↔ k ∉ map_keys m.
Proof.
  unfold map_keys. induction m as [|[k' v] m IH]; simpl.
  - split; [intros _; apply not_elem_of_nil | done].
  - rewrite not_elem_of_cons. case_decide; [|tauto].
    split; [done | intros [? _]; done].
Qed.

Lemma map_at_is_Some k m : is_Some (map_at k m) ↔ k ∈ map_keys m.
Proof.
  rewrite <- not_eq_None_Some, map_at_None.
  destruct (decide (k ∈ map_keys m)); tauto.
Qed.

Lemma map_at_app k m1 m2 :
  map_at k (m1 ++ m2) =
  match map_at k m1 with Some v => Some v | None => map_at k m2 end.
Proof.
  induction m1 as [|[k' v] m1 IH]; simpl; [done|]. by case_decide.
Qed.

Lemma map_at_snoc_eq k v m : map_at k m = None → map_at k (m ++ [(k, v)]) = Some v.
Proof. intros E. rewrite map_at_app, E. simpl. by rewrite decide_True. Qed.

Lemma map_at_snoc_ne k k' v m : k ≠ k' → map_at k (m ++ [(k', v)]) = map_at k m.
Proof.
  intros. rewrite map_at_app. destruct (map_at k m); [done|].
  simpl. by rewrite decide_False.
Qed.

Lemma map_at_elem k v m : map_at k m = Some v → (k, v) ∈ m.
Proof.
  induction m as [|[k' v'] m IH]; simpl; [done|].
  case_decide; [intros [= ->]; subst; left | right; auto].
Qed.

(** In a map without repeated keys every entry is the one [at] finds. *)
Lemma map_at_elem_ok k v m : map_ok m → (k, v) ∈ m → map_at k m = Some v.
Proof.
  unfold map_ok, map_keys. induction m as [|[k' v'] m IH]; csimpl.
  { by intros _ ?%elem_of_nil. }
  intros [Hk' Hm]%NoDup_cons [[= -> ->]|Hkv]%elem_of_cons; [by rewrite decide_True|].
  rewrite decide_False; [by apply IH|]. intros ->. apply Hk'.
  by apply (list_elem_of_fmap_2 fst m (k', v)).
Qed.

(** *** Emplace *)

Lemma map_emplace_fresh k v m : map_at k m = None → map_emplace k v m = m ++ [(k, v)].
Proof. unfold map_emplace. by intros ->. Qed.

Lemma map_emplace_present k v v0 m : map_at k m = Some v0 → map_emplace k v m = m.
Proof. unfold map_emplace. by intros ->. Qed.

Lemma map_at_emplace_eq k v m :
  map_at k (map_emplace k v m) = Some (default v (map_at k m)).
Proof.
  unfold map_emplace. destruct (map_at k m) eqn:E; simpl; [done|].
  by apply map_at_snoc_eq.
Qed.

Lemma map_at_emplace_ne k k' v m : k ≠ k' → map_at k (map_emplace k' v m) = map_at k m.
Proof.
  intros. unfold map_emplace. destruct (map_at k' m); [done|].
  by apply map_at_snoc_ne.
Qed.

Lemma map_emplace_ok k v m : map_ok m → map_ok (map_emplace k v m).
Proof.
  unfold map_ok, map_emplace, map_keys. intros Hm.
  destruct (map_at k m) eqn:E; [done|].
  rewrite fmap_app. apply NoDup_app. split_and!; [done| |apply NoDup_singleton].
  intros x Hx ->%list_elem_of_singleton. by apply map_at_None in E.
Qed.

Lemma map_emplace_length k v m :
  length (map_emplace k v m) = if map_at k m is Some _ then length m else S (length m).
Proof.
  unfold map_emplace. destruct (map_at k m); [done|].
  rewrite length_app. simpl. lia.
Qed.

(** *** Writes through a pointer to a mapped value *)

Lemma map_at_alter_eq f k m : map_at k (map_alter f k m) = f <$> map_at k m.
Proof.
  induction m as [|[k' v] m IH]; simpl; [done|].
  case_decide; simpl; [by rewrite decide_True | by rewrite decide_False].
Qed.

Lemma map_at_alter_ne f k k' m : k ≠ k' → map_at k (map_alter f k' m) = map_at k m.
Proof.
  intros. induction m as [|[k0 v] m IH]; simpl; [done|].
  destruct (decide (k' = k0)) as [->|]; simpl; [by rewrite !decide_False|].
  by rewrite IH.
Qed.

Lemma map_keys_alter f k m : map_keys (map_alter f k m) = map_keys m.
Proof.
  unfold map_keys. induction m as [|[k' v] m IH]; csimpl; [done|].
  case_decide; csimpl; [done | by rewrite IH].
Qed.

Lemma map_alter_ok f k m : map_ok m → map_ok (map_alter f k m).
Proof. unfold map_ok. by rewrite map_keys_alter. Qed.

Lemma map_alter_ext f g k m :
  (∀ v, map_at k m = Some v → f v = g v) → map_alter f k m = map_alter g k m.
Proof.
  induction m as [|[k' v] m IH]; simpl; [done|]. intros Hfg.
  case_decide; [by rewrite Hfg | by rewrite IH].
Qed.

Lemma map_alter_id f k m : (∀ v, map_at k m = Some v → f v = v) → map_alter f k m = m.
Proof.
  induction m as [|[k' v] m IH]; simpl; [done|]. intros Hf.
  case_decide; [by rewrite Hf | by rewrite IH].
Qed.

Lemma map_alter_alter f g k m :
  map_alter f k (map_alter g k m) = map_alter (f ∘ g) k m.
Proof.
  induction m as [|[k' v] m IH]; simpl; [done|].
  case_decide; simpl; [by rewrite decide_True | by rewrite decide_False, IH].
Qed.

Lemma map_alter_absent f k m : map_at k m = None → map_alter f k m = m.
Proof. intros E. apply map_alter_id. by rewrite E. Qed.

Lemma map_alter_snoc f k v m :
  map_at k m = None → map_alter f k (m ++ [(k, v)]) = m ++ [(k, f v)].
Proof.
  induction m as [|[k' v'] m IH]; simpl; [by rewrite decide_True|].
  case_decide; [done | by intros ->%IH].
Qed.

(** *** Properties of every mapped value *)

Lemma map_at_Forall (P : T → Prop) k v m :
  Forall (λ kv, P kv.2) m → map_at k m = Some v → P v.
Proof. intros Hm Hk%map_at_elem. rewrite Forall_forall in Hm. exact (Hm _ Hk). Qed.

Lemma map_emplace_Forall (P : T → Prop) k v m :
  Forall (λ kv, P kv.2) m → P v → Forall (λ kv, P kv.2) (map_emplace k v m).
Proof.
  intros Hm Hv. unfold map_emplace. destruct (map_at k m); [done|].
  apply Forall_app. split; [done|]. by apply Forall_singleton.
Qed.

Lemma map_alter_Forall (P : T → Prop) f k m :
  Forall (λ kv, P kv.2) m → (∀ v, map_at k m = Some v → P (f v)) →
  Forall (λ kv, P kv.2) (map_alter f k m).
Proof.
  induction 1 as [|[k' v] m Hv Hm IH]; simpl; [done|]. intros Hf.
  case_decide; apply Forall_cons; split; try done; [by apply Hf | by apply IH].
Qed.

End unordered_map.

(** ** The iteration order of an unordered map

    A range-for over a [std::unordered_map] visits every entry once, in an
    order the standard leaves to the implementation.  The order is a
    function of the insertion history, here of the keys in insertion
    order; all the program can rely on is that it is a permutation. *)

Class MapOrder : Type := {
  iteration_order : list string → list string;
  iteration_order_perm ks : iteration_order ks ≡ₚ ks;
}.

(** Two implementations: entries in insertion order, and newest first, as
    in a hash table that puts the node of a bucket of its own at the head
    of the list of its nodes. *)
Definition insertion_order : MapOrder :=
  {| iteration_order := id; iteration_order_perm ks := reflexivity ks |}.

Definition newest_first : MapOrder :=
  {| iteration_order := reverse; iteration_order_perm := reverse_Permutation |}.

Section map_iterate.
Context `{Ord : MapOrder} {T U : Type}.
Implicit Types (k : string) (m : list (string * T)) (f : T → U).

(** The entries of [m] in the order [for (const auto &item : m)] visits. *)
Definition map_iterate m : list (string * T) :=
  omap (λ k, pair k <$> map_at k m) (iteration_order (map_keys m)).

Lemma omap_map_at_keys m m0 :
  map_ok (m0 ++ m) → omap (λ k, pair k <$> map_at k (m0 ++ m)) (map_keys m) = m.
Proof.
  revert m0. induction m as [|[k v] m IH]; intros m0 Hok; [done|]. csimpl.
  assert (map_at k m0 = None) as Hk.
  { apply map_at_None. unfold map_ok, map_keys in Hok. rewrite fmap_app in Hok.
    apply NoDup_app in Hok as (_ & Hok & _). intros Hin. apply (Hok _ Hin). by left. }
  rewrite map_at_app, Hk. simpl. rewrite decide_True by done. simpl. f_equal.
  rewrite (cons_middle _ m0 m), (assoc_L (++)). apply IH. by rewrite <- (assoc_L (++)).
Qed.

(** Only entries of the map are visited. *)
Lemma map_iterate_elem (x : string * T) m : x ∈ map_iterate m → x ∈ m.
Proof.
  unfold map_iterate. intros (k & _ & Hk)%list_elem_of_omap.
  destruct (map_at k m) as [v|] eqn:E; simplify_eq/=. by apply map_at_elem.
Qed.

(** Every entry is visited exactly once. *)
Lemma map_iterate_perm m : map_ok m → map_iterate m ≡ₚ m.
Proof.
  intros Hok. unfold map_iterate. rewrite iteration_order_perm.
  enough (omap (λ k, pair k <$> map_at k m) (map_keys m) = m) as -> by done.
  exact (omap_map_at_keys m [] Hok).
Qed.

Lemma map_iterate_nil : map_iterate (@nil (string * T)) = [].
Proof. apply Permutation_nil_r, (map_iterate_perm []), NoDup_nil_2. Qed.

Lemma map_iterate_length m : map_ok m → length (map_iterate m) = length m.
Proof. by intros ->%map_iterate_perm. Qed.

Lemma map_keys_iterate m : map_ok m → map_keys (map_iterate m) ≡ₚ map_keys m.
Proof. unfold map_keys. by intros ->%map_iterate_perm. Qed.

Lemma map_iterate_ok m : map_ok m → map_ok (map_iterate m).
Proof. intros Hok. unfold map_ok. by rewrite map_keys_iterate. Qed.

Lemma map_at_omap k m (ks : list string) :
  map_at k (omap (λ k', pair k' <$> map_at k' m) ks) =
  if decide (k ∈ ks) then map_at k m else None.
Proof.
  induction ks as [|k' ks IH]; csimpl; [done|].
  assert (k ≠ k' → k ∈ ks ↔ k ∈ k' :: ks) as Hks.
  { rewrite elem_of_cons. split; [by right | by intros [?|?]]. }
  destruct (map_at k' m) as [v|] eqn:E; csimpl; rewrite ?IH;
    destruct (decide (k = k')) as [->|Hne]; try by apply decide_ext, Hks.
  - by rewrite decide_True, E by left.
  - rewrite E. by repeat case_decide.
Qed.

(** The order of the visit does not change what a key maps to. *)
Lemma map_at_iterate k m : map_at k (map_iterate m) = map_at k m.
Proof.
  unfold map_iterate. rewrite map_at_omap. case_decide as Hk; [done|].
  symmetry. apply map_at_None. by rewrite <- (iteration_order_perm (map_keys m)).
Qed.

End map_iterate.

Lemma map_iterate_insertion_order {T} (m : list (string * T)) :
  map_ok m → map_iterate (Ord := insertion_order) m = m.
Proof. exact (omap_map_at_keys m []). Qed.

Lemma omap_reverse {A C} (f : A → option C) (l : list A) :
  omap f (reverse l) = reverse (omap f l).
Proof.
  induction l as [|x l IH]; [done|]. rewrite reverse_cons, omap_app, IH. csimpl.
  destruct (f x); simpl; [by rewrite reverse_cons | by rewrite (right_id_L [] (++))].
Qed.

Lemma map_ok_reverse {T} (m : list (string * T)) : map_ok m → map_ok (reverse m).
Proof. unfold map_ok, map_keys. by rewrite fmap_reverse, reverse_Permutation. Qed.

Lemma map_iterate_newest_first {T} (m : list (string * T)) :
  map_ok m → map_iterate (Ord := newest_first) m = reverse m.
Proof.
  intros Hok. unfold map_iterate. simpl. rewrite omap_reverse. f_equal.
  exact (omap_map_at_keys m [] Hok).
Qed.

Section map_iterate_fmap.
Context `{Ord : MapOrder} {T U : Type}.
Implicit Types (k : string) (m : list (string * T)) (f : T → U).

Lemma map_keys_fmap f m : map_keys (prod_map id f <$> m) = map_keys m.
Proof. unfold map_keys. rewrite <- list_fmap_compose. by apply list_fmap_ext; intros ? []. Qed.

Lemma map_at_fmap f k m : map_at k (prod_map id f <$> m) = f <$> map_at k m.
Proof.
  induction m as [|[k' v] m IH]; csimpl; [done|]. by case_decide.
Qed.

(** The order does not depend on the mapped values. *)
Lemma map_iterate_fmap f m :
  map_iterate (prod_map id f <$> m) = prod_map id f <$> map_iterate m.
Proof.
  unfold map_iterate. rewrite map_keys_fmap.
  induction (iteration_order (map_keys m)) as [|k ks IH]; csimpl; [done|].
  rewrite map_at_fmap. destruct (map_at k m); csimpl; by rewrite IH.
Qed.

End map_iterate_fmap.

Section list.
Context {T : Type}.
Implicit Types (v : T) (l : list T).

(** [l.emplace_back(v)] *)
Definition list_emplace_back v l : list T := l ++ [v].

(** The position of the element [l.back()] refers to. *)
Definition list_back l : nat := pred (length l).

Lemma list_back_emplace_back v l : list_back (list_emplace_back v l) = length l.
Proof. unfold list_back, list_emplace_back. rewrite length_app. simpl. lia. Qed.

Lemma list_lookup_emplace_back v l : list_emplace_back v l !! length l = Some v.
Proof. by apply list_lookup_middle. Qed.

Lemma list_lookup_emplace_back_lt v l i :
  i < length l → list_emplace_back v l !! i = l !! i.
Proof. apply lookup_app_l. Qed.

Lemma list_alter_emplace_back (f : T → T) v l :
  alter f (length l) (list_emplace_back v l) = list_emplace_back (f v) l.
Proof.
  unfold list_emplace_back.
  by rewrite <- (Nat.add_0_r (length l)), alter_app_r.
Qed.

End list.

#[export] Hint Rewrite @map_at_emplace_eq @map_at_alter_eq @map_keys_alter
  @list_back_emplace_back @list_lookup_emplace_back @list_alter_emplace_back : rjson.
#[export] Hint Resolve map_emplace_ok map_alter_ok : rjson.
