(* ===== verification/Value.v ===== *)
(** * Value: the tagged union [json_data] and its constructors

    [json_type] is the enum of the source and [json_data] the struct: the
    active member of its anonymous union is the constructor's argument, and
    [type] is the struct's tag field.  The children of a map or an array
    are stored by value inside the container, so a [json_data] is a finite
    tree; [json_data_ind] is its induction principle, with the hypotheses
    for the children of a container.

    The members of the union are [member]; [active] is the one that holds
    the payload and [destructor] the one [~json_data] destroys.

    The five C++ constructors are [json_data_of_type] (from a tag, with the
    default payload of the switch), [json_data_bool], [json_data_int64],
    [json_data_double] and [json_data_string].  An [int64_t] is a [Z] in
    [in_int64]; a [double] is its IEEE-754 binary64 bit pattern, a [Z] in
    [in_double], since the program only stores and forwards it. *)

From Stdlib Require Import ZArith Lia.
From stdpp Require Import base tactics option list strings.
From S2P Require Import Prelude Containers.

#[local] Open Scope Z_scope.

(** ** Machine types *)

Definition int64_min : Z := - 2 ^ 63.
Definition int64_max : Z := 2 ^ 63 - 1.

Definition in_int64 (i : Z) : bool := (int64_min <=? i) && (i <=? int64_max).

(** The bit pattern of a binary64. *)
Definition in_double (r : Z) : bool := (0 <=? r) && (r <? 2 ^ 64).

(** The pattern of [0.0]. *)
Definition double_zero : Z := 0.

(** [(int) b], for a [bool] *)
Definition int_of_bool (b : bool) : Z := if b then 1 else 0.

(** ** The enum and the struct *)

Inductive json_type : Set :=
| json_type_null
| json_type_boolean
| json_type_integer
| json_type_real
| json_type_string
| json_type_map
| json_type_array.

#[export] Instance json_type_eq_dec : EqDecision json_type.
Proof. solve_decision. Defined.

#[local] Unset Elimination Schemes.

Inductive json_data : Type :=
| JNull
| JBoolean (boolean : bool)
| JInteger (integer : Z)
| JReal (real : Z)
| JString (str : string)
| JMap (members : list (string * json_data))
| JArray (elements : list json_data).

#[local] Set Elimination Schemes.

(** The tag field. *)
Definition type (d : json_data) : json_type :=
  match d with
  | JNull => json_type_null
  | JBoolean _ => json_type_boolean
  | JInteger _ => json_type_integer
  | JReal _ => json_type_real
  | JString _ => json_type_string
  | JMap _ => json_type_map
  | JArray _ => json_type_array
  end.

(** [json_data(json_type t)] *)
Definition json_data_of_type (t : json_type) : json_data :=
  match t with
  | json_type_null => JNull
  | json_type_boolean => JBoolean false
  | json_type_integer => JInteger 0
  | json_type_real => JReal double_zero
  | json_type_string => JString ""
  | json_type_map => JMap []
  | json_type_array => JArray []
  end.

(** [json_data(bool b)] *)
Definition json_data_bool (b : bool) : json_data := JBoolean b.

(** [json_data(int64_t i)] *)
Definition json_data_int64 (i : Z) : json_data := JInteger i.

(** [json_data(double r)] *)
Definition json_data_double (r : Z) : json_data := JReal r.

(** [json_data(const char *str, size_t size)]: the [size] bytes at [str]. *)
Definition json_data_string (s : string) : json_data := JString s.

(** ** Induction with hypotheses for the children *)

Section json_data_ind.
Context (P : json_data → Prop).
Context (Hnull : P JNull) (Hbool : ∀ b, P (JBoolean b)) (Hint : ∀ i, P (JInteger i)).
Context (Hreal : ∀ r, P (JReal r)) (Hstr : ∀ s, P (JString s)).
Context (Hmap : ∀ m, Forall (λ kv, P kv.2) m → P (JMap m)).
Context (Harr : ∀ l, Forall P l → P (JArray l)).

Fixpoint json_data_ind (d : json_data) : P d :=
  match d with
  | JNull => Hnull
  | JBoolean b => Hbool b
  | JInteger i => Hint i
  | JReal r => Hreal r
  | JString s => Hstr s
  | JMap m =>
      Hmap m (list_ind (Forall (λ kv, P kv.2)) (Forall_nil_2 _)
                (λ kv _ IH, Forall_cons_2 _ _ _ (json_data_ind kv.2) IH) m)
  | JArray l =>
      Harr l (list_ind (Forall P) (Forall_nil_2 _)
                (λ x _ IH, Forall_cons_2 _ _ _ (json_data_ind x) IH) l)
  end.

End json_data_ind.

(** ** Measures and well-formedness *)

(** The number of nodes. *)
Fixpoint json_size (d : json_data) : nat :=
  match d with
  | JMap m => S (foldr (λ kv n, json_size kv.2 + n)%nat 0%nat m)
  | JArray l => S (foldr (λ x n, json_size x + n)%nat 0%nat l)
  | _ => 1%nat
  end.

(** The nesting depth: 0 for a scalar, 1 for an empty container. *)
Fixpoint json_depth (d : json_data) : nat :=
  match d with
  | JMap m => S (foldr (λ kv n, json_depth kv.2 `max` n)%nat 0%nat m)
  | JArray l => S (foldr (λ x n, json_depth x `max` n)%nat 0%nat l)
  | _ => 0%nat
  end.

(** Every map of the tree has pairwise distinct keys. *)
Fixpoint keys_unique (d : json_data) : bool :=
  match d with
  | JMap m => bool_decide (NoDup (map_keys m)) && forallb (λ kv, keys_unique kv.2) m
  | JArray l => forallb keys_unique l
  | _ => true
  end.

(** Every payload is a value of its machine type. *)
Fixpoint in_range (d : json_data) : bool :=
  match d with
  | JInteger i => in_int64 i
  | JReal r => in_double r
  | JMap m => forallb (λ kv, in_range kv.2) m
  | JArray l => forallb in_range l
  | _ => true
  end.

(** ** The members of the union and the destructor *)

(** The members of the anonymous union. *)
Inductive member : Set :=
| member_boolean
| member_integer
| member_real
| member_string
| member_map
| member_array.

#[export] Instance member_eq_dec : EqDecision member.
Proof. solve_decision. Defined.

(** The member that holds the payload, none for [null]. *)
Definition active (d : json_data) : option member :=
  match d with
  | JNull => None
  | JBoolean _ => Some member_boolean
  | JInteger _ => Some member_integer
  | JReal _ => Some member_real
  | JString _ => Some member_string
  | JMap _ => Some member_map
  | JArray _ => Some member_array
  end.

(** The members of class type: [std::string], [std::unordered_map] and
    [std::list] have a destructor to run, the others have none. *)
Definition has_destructor (m : member) : bool :=
  match m with
  | member_string | member_map | member_array => true
  | _ => false
  end.

(** [~json_data()]: the member whose destructor the switch on [type]
    calls. *)
Definition destructor (t : json_type) : option member :=
  match t with
  | json_type_string => Some member_string
  | json_type_map => Some member_map
  | json_type_array => Some member_array
  | _ => None
  end.

(** ** Decidable equality *)

#[export] Instance json_data_eq_dec : EqDecision json_data.
Proof.
  refine (fix go (x y : json_data) {struct x} : Decision (x = y) :=
    match x, y with
    | JNull, JNull => left _
    | JBoolean a, JBoolean b => cast_if (decide (a = b))
    | JInteger a, JInteger b => cast_if (decide (a = b))
    | JReal a, JReal b => cast_if (decide (a = b))
    | JString a, JString b => cast_if (decide (a = b))
    | JMap a, JMap b => cast_if (@list_eq_dec _ (@prod_eq_dec _ _ _ go) a b)
    | JArray a, JArray b => cast_if (@list_eq_dec _ go a b)
    | _, _ => right _
    end); abstract congruence.
Defined.

(** ** First facts *)

Lemma type_json_data_of_type (t : json_type) : type (json_data_of_type t) = t.
Proof. by destruct t. Qed.

(** The destructor runs the destructor of the active member, and of no
    other, whenever that member has one: the switch of [~json_data]
    matches the constructors. *)
Lemma destructor_active (d : json_data) (m : member) :
  destructor (type d) = Some m ↔ active d = Some m ∧ has_destructor m = true.
Proof. destruct d; simpl; split; (intros [[= <-] ?] || intros [= <-]); done. Qed.

Lemma in_int64_spec (i : Z) : in_int64 i = true ↔ - 2 ^ 63 ≤ i ≤ 2 ^ 63 - 1.
Proof. unfold in_int64, int64_min, int64_max. lia. Qed.

Lemma in_double_spec (r : Z) : in_double r = true ↔ 0 ≤ r < 2 ^ 64.
Proof. unfold in_double. lia. Qed.

Lemma keys_unique_JMap (m : list (string * json_data)) :
  keys_unique (JMap m) = true ↔ map_ok m ∧ Forall (λ kv, keys_unique kv.2 = true) m.
Proof. simpl. by rewrite andb_true_iff, bool_decide_eq_true, forallb_Forall. Qed.

Lemma keys_unique_JArray (l : list json_data) :
  keys_unique (JArray l) = true ↔ Forall (λ x, keys_unique x = true) l.
Proof. apply forallb_Forall. Qed.

Lemma in_range_JMap (m : list (string * json_data)) :
  in_range (JMap m) = true ↔ Forall (λ kv, in_range kv.2 = true) m.
Proof. apply (forallb_Forall (λ kv, in_range kv.2)). Qed.

Lemma in_range_JArray (l : list json_data) :
  in_range (JArray l) = true ↔ Forall (λ x, in_range x = true) l.
Proof. apply forallb_Forall. Qed.
