(* ===== verification/Pointer.v ===== *)
(** * Pointer: [json_data*] into the tree that [root] owns

    Every [json_data*] the program keeps is [root] itself, the address of an
    element of a [std::list] ([&array.back()]) or the address of a mapped
    value of a [std::unordered_map] ([&map.at(key)]).  Both containers are
    node based: an element keeps its address while elements are added.  A
    pointer is therefore modelled by the access path from [root]: [Idx i]
    selects the [i]-th element of an array, [Key k] the value mapped to [k].

    [deref p d] reads through [p] ([None]: the pointer does not address an
    object of [d]), [update f p d] writes [f( *p )] through it, and
    [store p x d] writes [x].  The lemmas below are the memory model the
    builder's proofs use: reads after writes, writes after writes, and the
    stability of every other pointer under a write that keeps the existing
    children of the written node ([keeps_children]). *)

From Stdlib Require Import ZArith Lia.
From stdpp Require Import base tactics option list strings.
From S2P Require Import Prelude Containers Value.

Inductive step : Set :=
| Idx (i : nat)
| Key (k : string).

#[export] Instance step_eq_dec : EqDecision step.
Proof. solve_decision. Defined.

Abbreviation ptr := (list step).

(** The object one step below [d]. *)
Definition child (s : step) (d : json_data) : option json_data :=
  match s, d with
  | Idx i, JArray l => l !! i
  | Key k, JMap m => map_at k m
  | _, _ => None
  end.

(** [*p], for [p] a pointer into [d]. *)
Fixpoint deref (p : ptr) (d : json_data) : option json_data :=
  match p with
  | [] => Some d
  | s :: p' => child s d ≫= deref p'
  end.

(** A write of [f( *q )] through the pointer [q] to the child at [s]. *)
Definition alter_child (f : json_data → json_data) (s : step) (d : json_data) : json_data :=
  match s, d with
  | Idx i, JArray l => JArray (alter f i l)
  | Key k, JMap m => JMap (map_alter f k m)
  | _, _ => d
  end.

(** [*p = f( *p )] *)
Fixpoint update (f : json_data → json_data) (p : ptr) (d : json_data) : json_data :=
  match p with
  | [] => f d
  | s :: p' => alter_child (update f p') s d
  end.

(** [*p = x] *)
Definition store (p : ptr) (x : json_data) (d : json_data) : json_data :=
  update (λ _, x) p d.

(** [f] keeps every child of every node where it was. *)
Definition keeps_children (f : json_data → json_data) : Prop :=
  ∀ c s x, child s c = Some x → child s (f c) = Some x.

Section pointer_lemmas.
Implicit Types (p q : ptr) (s : step) (d c x : json_data) (f g : json_data → json_data).

(** ** One step *)

Lemma child_alter_child f s d : child s (alter_child f s d) = f <$> child s d.
Proof.
  destruct s, d; simpl; try done.
  - apply list_lookup_alter_eq.
  - apply map_at_alter_eq.
Qed.

Lemma child_alter_child_ne f s s' d : s ≠ s' → child s (alter_child f s' d) = child s d.
Proof.
  intros Hne. destruct s, s', d; simpl; try done.
  - apply list_lookup_alter_ne. congruence.
  - apply map_at_alter_ne. congruence.
Qed.

Lemma alter_child_ext f g s d :
  (∀ x, child s d = Some x → f x = g x) → alter_child f s d = alter_child g s d.
Proof.
  destruct s, d; simpl; try done; intros H; f_equal.
  - by apply list_alter_ext.
  - by apply map_alter_ext.
Qed.

Lemma alter_child_id f s d : (∀ x, child s d = Some x → f x = x) → alter_child f s d = d.
Proof.
  destruct s, d; simpl; try done; intros H; f_equal.
  - by apply list_alter_id_at.
  - by apply map_alter_id.
Qed.

Lemma alter_child_alter_child f g s d :
  alter_child f s (alter_child g s d) = alter_child (f ∘ g) s d.
Proof.
  destruct s, d; simpl; try done; f_equal.
  - apply list_alter_alter_eq.
  - apply map_alter_alter.
Qed.

Lemma type_alter_child f s d : type (alter_child f s d) = type d.
Proof. by destruct s, d. Qed.

(** ** Paths *)

Lemma deref_app p q d : deref (p ++ q) d = deref p d ≫= deref q.
Proof.
  revert d. induction p as [|s p IH]; intros d; simpl; [done|].
  destruct (child s d); simpl; [apply IH | done].
Qed.

Lemma deref_snoc p s d c : deref p d = Some c → deref (p ++ [s]) d = child s c.
Proof. intros E. rewrite deref_app, E. simpl. by destruct (child s c). Qed.

Lemma update_app f p q d : update f (p ++ q) d = update (update f q) p d.
Proof.
  revert d. induction p as [|s p IH]; intros d; simpl; [done|].
  apply alter_child_ext. intros; apply IH.
Qed.

Lemma deref_update f p d : deref p (update f p d) = f <$> deref p d.
Proof.
  revert d. induction p as [|s p IH]; intros d; simpl; [done|].
  rewrite child_alter_child. destruct (child s d); simpl; [apply IH | done].
Qed.

Lemma update_ext f g p d :
  (∀ x, deref p d = Some x → f x = g x) → update f p d = update g p d.
Proof.
  revert d. induction p as [|s p IH]; intros d H; simpl; [by apply H|].
  apply alter_child_ext. intros x Hx. apply IH. intros y Hy. apply H.
  simpl. by rewrite Hx.
Qed.

Lemma update_update f g p d : update f p (update g p d) = update (f ∘ g) p d.
Proof.
  revert d. induction p as [|s p IH]; intros d; simpl; [done|].
  rewrite alter_child_alter_child. apply alter_child_ext. intros; apply IH.
Qed.

Lemma update_invalid f p d : deref p d = None → update f p d = d.
Proof.
  revert d. induction p as [|s p IH]; intros d; simpl; [done|]. intros H.
  apply alter_child_id. intros x Hx. apply IH. by rewrite Hx in H.
Qed.

(** ** Stores *)

Lemma update_store f p d c : deref p d = Some c → update f p d = store p (f c) d.
Proof. intros E. apply update_ext. intros x. rewrite E. by intros [= <-]. Qed.

Lemma deref_store p x d : is_Some (deref p d) → deref p (store p x d) = Some x.
Proof. intros [c E]. unfold store. by rewrite deref_update, E. Qed.

Lemma store_store p x y d : store p x (store p y d) = store p x d.
Proof. unfold store. by rewrite update_update. Qed.

Lemma update_after_store f p x d : update f p (store p x d) = store p (f x) d.
Proof. unfold store. by rewrite update_update. Qed.

Lemma store_deref p d c : deref p d = Some c → store p c d = d.
Proof.
  revert d. induction p as [|s p IH]; intros d; simpl; [by intros [= ->]|]. intros H.
  apply alter_child_id. intros x Hx. apply IH. by rewrite Hx in H.
Qed.

Lemma store_snoc p s x d c :
  deref p d = Some c → store (p ++ [s]) x d = store p (alter_child (λ _, x) s c) d.
Proof. intros E. unfold store at 1. rewrite update_app. by apply update_store. Qed.

Lemma store_snoc_store p s x c d :
  store (p ++ [s]) x (store p c d) = store p (alter_child (λ _, x) s c) d.
Proof.
  destruct (deref p d) as [c0|] eqn:E.
  - rewrite (store_snoc p s x _ c), store_store; [done|].
    apply deref_store. by rewrite E.
  - unfold store. by rewrite update_app, !(update_invalid _ p d).
Qed.

(** ** Stability of the other pointers *)

Lemma deref_update_keeps f p q d :
  keeps_children f → is_Some (deref q d) → is_Some (deref q (update f p d)).
Proof.
  intros Hf. revert p d. induction q as [|s q IH]; intros p d; simpl; [done|].
  destruct (child s d) as [x|] eqn:E; simpl; [|by intros []]. intros Hq.
  destruct p as [|s' p]; simpl.
  - by rewrite (Hf _ _ _ E).
  - destruct (decide (s = s')) as [<-|Hne].
    + rewrite child_alter_child, E. simpl. by apply IH.
    + rewrite child_alter_child_ne, E by done. done.
Qed.

Lemma type_update_cons f s p d : type (update f (s :: p) d) = type d.
Proof. apply type_alter_child. Qed.

(** A write that keeps the kind and the children of what it overwrites
    leaves every object at its address, with its kind. *)
Lemma deref_update_type f p q d c :
  keeps_children f → (∀ x, type (f x) = type x) → deref q d = Some c →
  ∃ c', deref q (update f p d) = Some c' ∧ type c' = type c.
Proof.
  intros Hf Ht. revert p d. induction q as [|s q IH]; intros p d; simpl.
  { intros [= ->]. eexists. split; [done|]. destruct p; [apply Ht | apply type_update_cons]. }
  destruct_ok (child s d) as x eqn:E. intros Hq.
  destruct p as [|s' p]; simpl.
  - rewrite (Hf _ _ _ E). simpl. eauto.
  - destruct (decide (s = s')) as [<-|Hne].
    + rewrite child_alter_child, E. simpl. by apply IH.
    + rewrite child_alter_child_ne, E by done. simpl. eauto.
Qed.

End pointer_lemmas.

#[export] Hint Rewrite child_alter_child deref_update store_store update_after_store : rjson.
