(* ===== verification/Builder.v ===== *)
(** * Builder: [json_data_state], [insert] and the parser callbacks

    [json_data_state] is the struct of the source: the stack of open
    containers (pointers into the tree, top first), the key buffer
    [tempKey] and [root] (here the tree [root] points to, [None] for
    [nullptr]).  [insert v] is the member template [insert(args...)], where
    [v] is the value [json_data(args...)] constructs; it returns the pointer
    the C++ function returns ([None] for [nullptr]).

    The ten callbacks of [reader_cb] are one definition each; they return
    the [int] yajl reads (0 cancels the parse) next to the new state.
    An operation the C++ standard leaves undefined, or that throws, is an
    [Err] of type [fault]. *)

From Stdlib Require Import ZArith Lia.
From stdpp Require Import base tactics option list strings.
From S2P Require Import Prelude Containers Value Pointer.

#[local] Open Scope Z_scope.

(** What can go wrong below the level of the program's own checks. *)
Inductive fault : Set :=
| stack_pop_empty   (** [std::stack::pop] on an empty stack *)
| dangling_pointer  (** a read through a pointer that addresses no object *)
| out_of_range.     (** [std::out_of_range] from [unordered_map::at] *)

#[export] Instance fault_eq_dec : EqDecision fault.
Proof. solve_decision. Defined.

Record json_data_state : Type := mk_state {
  stack : list ptr;
  tempKey : string;
  root : option json_data;
}.

(** [json_data_state state = {{}, "", nullptr}] *)
Definition initial_state : json_data_state := mk_state [] "" None.

(** [json_data_state::insert] *)
Definition insert (v : json_data) (st : json_data_state) :
    res fault (option ptr * json_data_state) :=
  match root st with
  | None => Ok (Some [], mk_state (stack st) (tempKey st) (Some v))
  | Some r =>
      match stack st with
      | [] => Ok (None, st)
      | current :: _ =>
          match deref current r with
          | None => Err dangling_pointer
          | Some (JArray l) =>
              let l' := list_emplace_back v l in
              Ok (Some (current ++ [Idx (list_back l')]),
                  mk_state (stack st) (tempKey st) (Some (store current (JArray l') r)))
          | Some (JMap m) =>
              let m' := map_emplace (tempKey st) v m in
              match map_at (tempKey st) m' with
              | None => Err out_of_range
              | Some _ =>
                  Ok (Some (current ++ [Key (tempKey st)]),
                      mk_state (stack st) (tempKey st) (Some (store current (JMap m') r)))
              end
          | Some _ => Ok (None, st)
          end
      end
  end.

(** [(int) (p != nullptr)] *)
Definition int_of_nonnull (p : option ptr) : Z := if p is Some _ then 1 else 0.

(** [(bool) boolean], for an [int] *)
Definition bool_of_int (i : Z) : bool := negb (i =? 0).

Lemma bool_of_int_of_bool (b : bool) : bool_of_int (int_of_bool b) = b.
Proof. by destruct b. Qed.

(** The state after [state->stack.push(p)]. *)
Definition push (p : ptr) (st : json_data_state) : json_data_state :=
  mk_state (p :: stack st) (tempKey st) (root st).

(** [state->stack.pop()] *)
Definition pop (st : json_data_state) : res fault json_data_state :=
  match stack st with
  | [] => Err stack_pop_empty
  | _ :: stk => Ok (mk_state stk (tempKey st) (root st))
  end.

(** ** The callbacks, in the order of [reader_cb] *)

Definition read_null (st : json_data_state) : res fault (Z * json_data_state) :=
  '(p, st') ← insert (json_data_of_type json_type_null) st;
  mret (int_of_nonnull p, st').

Definition read_boolean (boolean : Z) (st : json_data_state) : res fault (Z * json_data_state) :=
  '(p, st') ← insert (json_data_bool (bool_of_int boolean)) st;
  mret (int_of_nonnull p, st').

Definition read_integer (integer : Z) (st : json_data_state) : res fault (Z * json_data_state) :=
  '(p, st') ← insert (json_data_int64 integer) st;
  mret (int_of_nonnull p, st').

Definition read_double (real : Z) (st : json_data_state) : res fault (Z * json_data_state) :=
  '(p, st') ← insert (json_data_double real) st;
  mret (int_of_nonnull p, st').

Definition read_string (stringVal : string) (cte_pool : Z) (st : json_data_state) :
    res fault (Z * json_data_state) :=
  '(p, st') ← insert (json_data_string stringVal) st;
  mret (int_of_nonnull p, st').

Definition start_map (size : Z) (st : json_data_state) : res fault (Z * json_data_state) :=
  '(jdata, st') ← insert (json_data_of_type json_type_map) st;
  match jdata with
  | None => mret (0, st')
  | Some p => mret (1, push p st')
  end.

Definition map_key (key : string) (cte_pool : Z) (st : json_data_state) :
    res fault (Z * json_data_state) :=
  mret (1, mk_state (stack st) key (root st)).

Definition end_map (st : json_data_state) : res fault (Z * json_data_state) :=
  st' ← pop st; mret (1, st').

Definition start_array (size : Z) (st : json_data_state) : res fault (Z * json_data_state) :=
  '(jdata, st') ← insert (json_data_of_type json_type_array) st;
  match jdata with
  | None => mret (0, st')
  | Some p => mret (1, push p st')
  end.

Definition end_array (st : json_data_state) : res fault (Z * json_data_state) :=
  st' ← pop st; mret (1, st').

(** ** What [insert] writes *)

(** The write [insert v] performs on the object [current] points to. *)
Definition push_value (k : string) (v : json_data) (c : json_data) : json_data :=
  match c with
  | JArray l => JArray (list_emplace_back v l)
  | JMap m => JMap (map_emplace k v m)
  | _ => c
  end.

(** The pointer [insert] returns for a value placed in [c], relative to
    [c]; [None] where it returns [nullptr]. *)
Definition slot (k : string) (c : json_data) : option step :=
  match c with
  | JArray l => Some (Idx (length l))
  | JMap _ => Some (Key k)
  | _ => None
  end.

(** [c] takes a new value under the key [k]: it is an array, or a map
    that has no entry for [k]. *)
Definition fresh_slot (k : string) (c : json_data) : Prop :=
  match c with
  | JArray _ => True
  | JMap m => map_at k m = None
  | _ => False
  end.

#[export] Instance fresh_slot_dec k c : Decision (fresh_slot k c).
Proof. destruct c; apply _. Defined.

(** ** The invariant *)

(** Every pointer of the stack addresses an object of the tree, and the
    stack is empty while there is no tree. *)
Definition stack_valid (st : json_data_state) : Prop :=
  match root st with
  | None => stack st = []
  | Some r => Forall (λ p, is_Some (deref p r)) (stack st)
  end.

#[export] Instance stack_valid_dec (st : json_data_state) : Decision (stack_valid st).
Proof. unfold stack_valid. destruct (root st); apply _. Defined.

(** ** The callback table *)

(** One constructor per callback slot of [yajl_callbacks] that [reader_cb]
    fills, with the arguments yajl passes (the [yajl_number] slot is
    [nullptr]). *)
Inductive event : Type :=
| yajl_null
| yajl_boolean (boolean : Z)
| yajl_integer (integer : Z)
| yajl_double (real : Z)
| yajl_string (stringVal : string) (cte_pool : Z)
| yajl_start_map (size : Z)
| yajl_map_key (key : string) (cte_pool : Z)
| yajl_end_map
| yajl_start_array (size : Z)
| yajl_end_array.

#[export] Instance event_eq_dec : EqDecision event.
Proof. solve_decision. Defined.

(** [reader_cb]: the callback yajl invokes for an event. *)
Definition reader_cb (e : event) (st : json_data_state) : res fault (Z * json_data_state) :=
  match e with
  | yajl_null => read_null st
  | yajl_boolean b => read_boolean b st
  | yajl_integer i => read_integer i st
  | yajl_double r => read_double r st
  | yajl_string s c => read_string s c st
  | yajl_start_map n => start_map n st
  | yajl_map_key k c => map_key k c st
  | yajl_end_map => end_map st
  | yajl_start_array n => start_array n st
  | yajl_end_array => end_array st
  end.

(** The depth of the stack after the callback of [e], from depth [n], when
    the callback does not cancel; [None] for an end event at depth 0. *)
Definition nesting_step (n : nat) (e : event) : option nat :=
  match e with
  | yajl_start_map _ | yajl_start_array _ => Some (S n)
  | yajl_end_map | yajl_end_array => match n with O => None | S n' => Some n' end
  | _ => Some n
  end.

(** The value a scalar event inserts. *)
Definition scalar_of (e : event) : option json_data :=
  match e with
  | yajl_null => Some JNull
  | yajl_boolean b => Some (JBoolean (bool_of_int b))
  | yajl_integer i => Some (JInteger i)
  | yajl_double r => Some (JReal r)
  | yajl_string s _ => Some (JString s)
  | _ => None
  end.

(** The empty container a begin event inserts. *)
Definition container_of (e : event) : option json_data :=
  match e with
  | yajl_start_map _ => Some (JMap [])
  | yajl_start_array _ => Some (JArray [])
  | _ => None
  end.

Section insert_lemmas.
Implicit Types (v c r : json_data) (st : json_data_state) (p cur : ptr) (k : string).
Implicit Types (o : option ptr).

Lemma keeps_children_push_value k v : keeps_children (push_value k v).
Proof.
  intros c s x. destruct c as [| | | | |m|l], s as [i|k']; simpl; try done.
  - intros E. destruct (decide (k' = k)) as [->|Hne].
    + by rewrite map_at_emplace_eq, E.
    + by rewrite map_at_emplace_ne.
  - apply lookup_app_l_Some.
Qed.

Lemma child_slot_push_value k v c s :
  slot k c = Some s → child s (push_value k v c) = Some (default v (child s c)).
Proof.
  destruct c as [| | | | |m|l]; simpl; intros [= <-]; simpl.
  - apply map_at_emplace_eq.
  - autorewrite with rjson. by rewrite (proj2 (lookup_ge_None l (length l))).
Qed.

Lemma fresh_slot_slot k c : fresh_slot k c → is_Some (slot k c).
Proof. by destruct c. Qed.

Lemma child_fresh_slot k c s : fresh_slot k c → slot k c = Some s → child s c = None.
Proof.
  destruct c as [| | | | |m|l]; simpl; try done; intros H [= <-]; simpl; [done|].
  by apply lookup_ge_None.
Qed.

Lemma push_value_fresh_JMap k v m :
  fresh_slot k (JMap m) → push_value k v (JMap m) = JMap (m ++ [(k, v)]).
Proof. simpl. intros H. by rewrite map_emplace_fresh. Qed.

(** Writing [x] through the pointer [insert] returned for [v] is inserting
    [x] in the first place. *)
Lemma alter_child_push_value k v x c s :
  fresh_slot k c → slot k c = Some s →
  alter_child (λ _, x) s (push_value k v c) = push_value k x c.
Proof.
  destruct c as [| | | | |m|l]; simpl; try done; intros H [= <-]; simpl; f_equal.
  - rewrite !map_emplace_fresh by done. by apply map_alter_snoc.
  - apply list_alter_emplace_back.
Qed.

(** [insert] as one write through [current]. *)
Lemma insert_eq v st :
  insert v st =
  match root st with
  | None => Ok (Some [], mk_state (stack st) (tempKey st) (Some v))
  | Some r =>
      match stack st with
      | [] => Ok (None, st)
      | cur :: _ =>
          match deref cur r with
          | None => Err dangling_pointer
          | Some c =>
              match slot (tempKey st) c with
              | None => Ok (None, st)
              | Some s =>
                  Ok (Some (cur ++ [s]),
                      mk_state (stack st) (tempKey st)
                        (Some (update (push_value (tempKey st) v) cur r)))
              end
          end
      end
  end.
Proof.
  unfold insert. destruct_ok (root st) as r.
  destruct (stack st) as [|cur stk]; [done|].
  destruct_ok (deref cur r) as c eqn:E.
  destruct c as [| | | | |m|l]; simpl; try done.
  all: autorewrite with rjson; by rewrite (update_store _ _ _ _ E).
Qed.

Lemma insert_no_fault v st : stack_valid st → is_ok (insert v st) = true.
Proof.
  unfold stack_valid. rewrite insert_eq. destruct_ok (root st) as r.
  destruct (stack st) as [|cur stk]; [done|]. intros [[c ->] _]%Forall_cons.
  by destruct (slot _ c).
Qed.

(** [insert] writes neither the stack nor the key buffer. *)
Lemma insert_frame v st o st' :
  insert v st = Ok (o, st') → stack st' = stack st ∧ tempKey st' = tempKey st.
Proof.
  rewrite insert_eq. destruct st as [[|cur stk] k [r|]]; simpl; try by intros [= <- <-].
  destruct_ok (deref cur r) as c.
  destruct (slot k c); by intros [= <- <-].
Qed.

(** A pointer is returned only into an existing tree. *)
Lemma insert_root v st p st' : insert v st = Ok (Some p, st') → is_Some (root st').
Proof.
  rewrite insert_eq. destruct st as [[|cur stk] k [r|]]; simpl; try by intros [= <- <-].
  destruct_ok (deref cur r) as c.
  destruct (slot k c); by intros [= <- <-].
Qed.

Lemma insert_valid v st o st' :
  stack_valid st → insert v st = Ok (o, st') →
  stack_valid st' ∧ ∀ p r', o = Some p → root st' = Some r' → is_Some (deref p r').
Proof.
  unfold stack_valid. rewrite insert_eq.
  destruct st as [[|cur stk] k [r|]]; simpl; try by intros ? [= <- <-].
  - intros _ [= <- <-]. simpl. split; [done|]. by intros p r' [= <-] [= <-].
  - intros Hv. destruct_ok (deref cur r) as c eqn:Ec.
    destruct (slot k c) as [s|] eqn:Esl; intros [= <- <-]; simpl; [|done].
    split.
    + eapply Forall_impl; [done|]. intros q Hq.
      by apply deref_update_keeps; [apply keeps_children_push_value|].
    + intros p r' [= <-] [= <-].
      rewrite deref_app, deref_update, Ec. simpl.
      erewrite child_slot_push_value by done. by destruct (default _ _).
Qed.

End insert_lemmas.

(** ** The callbacks by kind *)

(** [value_cb push_it v]: what the callbacks that insert a value share;
    [push_it] says whether the returned pointer is pushed. *)
Definition value_cb (push_it : bool) (v : json_data) (st : json_data_state) :
    res fault (Z * json_data_state) :=
  '(o, st') ← insert v st;
  match o with
  | None => mret (0, st')
  | Some p => mret (1, if push_it then push p st' else st')
  end.

Section callback_lemmas.
Implicit Types (e : event) (v : json_data) (st : json_data_state) (ret : Z).

Lemma reader_cb_scalar e v st : scalar_of e = Some v → reader_cb e st = value_cb false v st.
Proof.
  destruct e; simpl; intros [= <-];
    unfold read_null, read_boolean, read_integer, read_double, read_string, value_cb;
    destruct (insert _ st) as [[[p|] st']|]; done.
Qed.

Lemma reader_cb_container e v st :
  container_of e = Some v → reader_cb e st = value_cb true v st.
Proof. by destruct e; simpl; intros [= <-]. Qed.

Lemma start_array_value_cb (size : Z) st : start_array size st = value_cb true (JArray []) st.
Proof. done. Qed.

Lemma start_map_value_cb (size : Z) st : start_map size st = value_cb true (JMap []) st.
Proof. done. Qed.

(** Every event is a scalar, a begin, a key or an end. *)
Lemma event_cases e :
  is_Some (scalar_of e) ∨ is_Some (container_of e) ∨
  (∃ k c, e = yajl_map_key k c) ∨ e = yajl_end_map ∨ e = yajl_end_array.
Proof. destruct e; simpl; eauto 7. Qed.

Lemma pop_valid st st' : stack_valid st → pop st = Ok st' → stack_valid st'.
Proof.
  unfold pop, stack_valid. destruct st as [[|p stk] k [r|]]; simpl; try done.
  by intros [_ H]%Forall_cons [= <-].
Qed.

Lemma value_cb_valid b v st ret st' :
  stack_valid st → value_cb b v st = Ok (ret, st') → stack_valid st'.
Proof.
  unfold value_cb. intros Hv. destruct_ok (insert v st) as [o st1] eqn:E.
  destruct (insert_valid _ _ _ _ Hv E) as [Hv1 Hp]. simpl.
  destruct o as [p|]; intros [= <- <-]; [|done]. destruct b; [|done].
  destruct (insert_root _ _ _ _ E) as [r1 Er].
  unfold stack_valid, push in *. simpl. rewrite Er in *. apply Forall_cons. eauto.
Qed.

(** A value callback on an open container that takes the value. *)
Lemma value_cb_open b v stk k r cur c s :
  deref cur r = Some c → slot k c = Some s →
  value_cb b v (mk_state (cur :: stk) k (Some r)) =
  Ok (1, mk_state ((if b then [cur ++ [s]] else []) ++ cur :: stk) k
           (Some (store cur (push_value k v c) r))).
Proof.
  intros Hc Hs. unfold value_cb. rewrite insert_eq. simpl. rewrite Hc, Hs. simpl.
  rewrite (update_store _ _ _ _ Hc). by destruct b.
Qed.

(** A value callback on an open map that has an entry for the key. *)
Lemma value_cb_duplicate b v stk k r cur m :
  deref cur r = Some (JMap m) → is_Some (map_at k m) →
  value_cb b v (mk_state (cur :: stk) k (Some r)) =
  Ok (1, mk_state ((if b then [cur ++ [Key k]] else []) ++ cur :: stk) k (Some r)).
Proof.
  intros Hc [x Hx]. rewrite (value_cb_open _ _ _ _ _ _ _ (Key k) Hc) by done.
  simpl. by rewrite (map_emplace_present _ _ _ _ Hx), (store_deref _ _ _ Hc).
Qed.

(** A value callback before any value was read. *)
Lemma value_cb_initial b v stk k :
  value_cb b v (mk_state stk k None) =
  Ok (1, mk_state ((if b then [[]] else []) ++ stk) k (Some v)).
Proof. unfold value_cb. simpl. by destruct b. Qed.

Lemma value_cb_no_fault b v st : stack_valid st → is_ok (value_cb b v st) = true.
Proof.
  intros Hv%(insert_no_fault v). unfold value_cb.
  destruct (insert v st) as [[[p|] st1]|]; done.
Qed.

End callback_lemmas.

(** ** One callback on a valid state *)

Section reader_cb_lemmas.
Implicit Types (e : event) (v : json_data) (st : json_data_state) (ret : Z) (f : fault).

(** A pointer pushed earlier is never invalidated by a later insertion,
    and the pointer a begin callback pushes addresses the container just
    inserted. *)
Lemma reader_cb_stack_valid e st st' ret :
  stack_valid st → reader_cb e st = Ok (ret, st') → stack_valid st'.
Proof.
  intros Hv. destruct (event_cases e) as [[v Hs]|[[v Hc]|[(k & c & ->)|[-> | ->]]]].
  - rewrite (reader_cb_scalar _ _ _ Hs). by apply value_cb_valid.
  - rewrite (reader_cb_container _ _ _ Hc). by apply value_cb_valid.
  - by intros [= <- <-].
  - simpl. unfold end_map. destruct (pop st) eqn:E; [|done].
    intros [= <- <-]. by eapply pop_valid.
  - simpl. unfold end_array. destruct (pop st) eqn:E; [|done].
    intros [= <- <-]. by eapply pop_valid.
Qed.

(** What a callback does to the root: nothing, or what [insert] does with
    the value of its event. *)
Lemma reader_cb_root e st ret st' :
  reader_cb e st = Ok (ret, st') →
  root st' = root st ∨
  ∃ v o st1, (scalar_of e = Some v ∨ container_of e = Some v) ∧
             insert v st = Ok (o, st1) ∧ root st' = root st1.
Proof.
  destruct (event_cases e) as [[v Hs]|[[v Hc]|[(k & c & ->)|He]]].
  - rewrite (reader_cb_scalar _ _ _ Hs). unfold value_cb.
    destruct (insert v st) as [[[p|] st1]|] eqn:E; intros [= <- <-]; eauto 8.
  - rewrite (reader_cb_container _ _ _ Hc). unfold value_cb.
    destruct (insert v st) as [[[p|] st1]|] eqn:E; intros [= <- <-]; eauto 8.
  - intros [= <- <-]. by left.
  - assert (reader_cb e st = st1 ← pop st; mret (1, st1)) as -> by (by destruct He as [-> | ->]).
    unfold pop. destruct (stack st); [done|]. intros [= <- <-]. by left.
Qed.

(** The only fault is the pop of an empty stack by an end callback. *)
Lemma reader_cb_fault e st f :
  stack_valid st → reader_cb e st = Err f →
  f = stack_pop_empty ∧ stack st = [] ∧ (e = yajl_end_map ∨ e = yajl_end_array).
Proof.
  intros Hv. destruct (event_cases e) as [[v Hs]|[[v Hc]|[(k & c & ->)|[-> | ->]]]].
  - rewrite (reader_cb_scalar _ _ _ Hs). intros E.
    pose proof (value_cb_no_fault false v st Hv) as H. by rewrite E in H.
  - rewrite (reader_cb_container _ _ _ Hc). intros E.
    pose proof (value_cb_no_fault true v st Hv) as H. by rewrite E in H.
  - done.
  - simpl. unfold end_map, pop. destruct (stack st); [intros [= <-]; auto | done].
  - simpl. unfold end_array, pop. destruct (stack st); [intros [= <-]; auto | done].
Qed.

Lemma value_cb_depth b v st ret st' :
  value_cb b v st = Ok (ret, st') → ret ≠ 0 →
  length (stack st') = if b then S (length (stack st)) else length (stack st).
Proof.
  unfold value_cb. destruct_ok (insert v st) as [o st1] eqn:E.
  destruct (insert_frame _ _ _ _ E) as [Hs _].
  destruct o as [p|]; simpl; intros [= <- <-]; [|done]. intros _.
  destruct b; simpl; by rewrite Hs.
Qed.

(** The depth of the stack follows [nesting_step]. *)
Lemma reader_cb_step e st n :
  stack_valid st → nesting_step (length (stack st)) e = Some n →
  ∃ ret st', reader_cb e st = Ok (ret, st') ∧ (ret ≠ 0 → length (stack st') = n).
Proof.
  intros Hv Hn. destruct (reader_cb e st) as [[ret st']|f] eqn:E.
  - exists ret, st'. split; [done|]. intros Hret. revert E Hn.
    destruct (event_cases e) as [[v Hs]|[[v Hc]|[(k & c & ->)|[-> | ->]]]].
    + rewrite (reader_cb_scalar _ _ _ Hs). intros ->%value_cb_depth; [|done].
      destruct e; simplify_eq/=; by intros [= <-].
    + rewrite (reader_cb_container _ _ _ Hc). intros ->%value_cb_depth; [|done].
      destruct e; simplify_eq/=; by intros [= <-].
    + by intros [= <- <-] [= <-].
    + simpl. unfold end_map, pop. destruct (stack st); [done|]. by intros [= <- <-] [= <-].
    + simpl. unfold end_array, pop. destruct (stack st); [done|]. by intros [= <- <-] [= <-].
  - destruct (reader_cb_fault _ _ _ Hv E) as (_ & Hs & [-> | ->]); by rewrite Hs in Hn.
Qed.

End reader_cb_lemmas.

(** ** Properties of [insert] *)

(** C17: with an array on top of the stack, [insert] appends the value at
    the end of the array and returns the address of the new last element;
    every element that was in the array is still at its address, and
    neither the stack nor [tempKey] changes. *)
Theorem insert_array_appends (v r : json_data) (cur : ptr) (stk : list ptr) (k : string)
    (l : list json_data) :
  deref cur r = Some (JArray l) →
  ∃ r', insert v (mk_state (cur :: stk) k (Some r)) =
          Ok (Some (cur ++ [Idx (length l)]), mk_state (cur :: stk) k (Some r')) ∧
        deref cur r' = Some (JArray (l ++ [v])) ∧
        deref (cur ++ [Idx (length l)]) r' = Some v ∧
        ∀ i x, l !! i = Some x → deref (cur ++ [Idx i]) r' = Some x.
Proof.
  intros Hc. exists (store cur (JArray (l ++ [v])) r).
  assert (deref cur (store cur (JArray (l ++ [v])) r) = Some (JArray (l ++ [v]))) as Hc'.
  { apply deref_store. by rewrite Hc. }
  split_and!; [|done|..].
  - unfold insert. simpl. rewrite Hc. by rewrite list_back_emplace_back.
  - rewrite (deref_snoc _ _ _ _ Hc'). by apply list_lookup_middle.
  - intros i x Hi. rewrite (deref_snoc _ _ _ _ Hc'). by apply lookup_app_l_Some.
Qed.

Lemma insert_array_appends_witness :
  ∃ r', insert (JInteger 7) (mk_state [[Idx 1]; []] "" (Some (JArray [JNull; JArray [JNull]]))) =
          Ok (Some ([Idx 1] ++ [Idx (length [JNull])]), mk_state [[Idx 1]; []] "" (Some r')) ∧
        deref [Idx 1] r' = Some (JArray ([JNull] ++ [JInteger 7])) ∧
        deref ([Idx 1] ++ [Idx (length [JNull])]) r' = Some (JInteger 7) ∧
        ∀ i x, [JNull] !! i = Some x → deref ([Idx 1] ++ [Idx i]) r' = Some x.
Proof.
  apply (insert_array_appends (JInteger 7) (JArray [JNull; JArray [JNull]]) [Idx 1] [[]] ""
           [JNull]).
  reflexivity.
Defined.

(** C18: with a map on top of the stack that has no entry for [tempKey],
    [insert] adds the entry ([tempKey], value) and returns the address of
    the mapped value; the entries that were in the map keep their values
    and the map still has pairwise distinct keys. *)
Theorem insert_map_new_key (v r : json_data) (cur : ptr) (stk : list ptr) (k : string)
    (m : list (string * json_data)) :
  deref cur r = Some (JMap m) → map_ok m → map_at k m = None →
  ∃ r' m', insert v (mk_state (cur :: stk) k (Some r)) =
             Ok (Some (cur ++ [Key k]), mk_state (cur :: stk) k (Some r')) ∧
           deref cur r' = Some (JMap m') ∧ map_ok m' ∧
           deref (cur ++ [Key k]) r' = Some v ∧
           ∀ k' x, map_at k' m = Some x → deref (cur ++ [Key k']) r' = Some x.
Proof.
  intros Hc Hok Hk. exists (store cur (JMap (map_emplace k v m)) r), (map_emplace k v m).
  assert (deref cur (store cur (JMap (map_emplace k v m)) r) =
          Some (JMap (map_emplace k v m))) as Hc'.
  { apply deref_store. by rewrite Hc. }
  split_and!; [|done|auto with rjson|..].
  - unfold insert. simpl. rewrite Hc. by rewrite map_at_emplace_eq.
  - rewrite (deref_snoc _ _ _ _ Hc'). simpl. by rewrite map_at_emplace_eq, Hk.
  - intros k' x Hx. rewrite (deref_snoc _ _ _ _ Hc'). simpl.
    rewrite map_at_emplace_ne; [done|]. intros ->. by rewrite Hk in Hx.
Qed.

Lemma insert_map_new_key_witness :
  ∃ r' m', insert JNull (mk_state [[]] "b" (Some (JMap [("a", JInteger 1)]))) =
             Ok (Some ([] ++ [Key "b"]), mk_state [[]] "b" (Some r')) ∧
           deref [] r' = Some (JMap m') ∧ map_ok m' ∧
           deref ([] ++ [Key "b"]) r' = Some JNull ∧
           ∀ k' x, map_at k' [("a", JInteger 1)] = Some x → deref ([] ++ [Key k']) r' = Some x.
Proof.
  apply (insert_map_new_key JNull (JMap [("a", JInteger 1)]) [] [] "b" [("a", JInteger 1)]).
  - reflexivity.
  - by_compute.
  - reflexivity.
Defined.

(** C4: with a map on top of the stack that already has an entry for
    [tempKey], [insert] changes nothing: the value read is dropped, the
    entry keeps the value it had, and the pointer returned addresses that
    earlier value. *)
Theorem insert_duplicate_key (v r x : json_data) (cur : ptr) (stk : list ptr) (k : string)
    (m : list (string * json_data)) :
  deref cur r = Some (JMap m) → map_at k m = Some x →
  insert v (mk_state (cur :: stk) k (Some r)) =
    Ok (Some (cur ++ [Key k]), mk_state (cur :: stk) k (Some r)) ∧
  deref (cur ++ [Key k]) r = Some x.
Proof.
  intros Hc Hk. split.
  - unfold insert. simpl. rewrite Hc, (map_emplace_present _ _ _ _ Hk), Hk.
    by rewrite (store_deref _ _ _ Hc).
  - by rewrite (deref_snoc _ _ _ _ Hc).
Qed.

Lemma insert_duplicate_key_witness :
  insert (JInteger 2) (mk_state [[]] "k" (Some (JMap [("k", JInteger 1)]))) =
    Ok (Some ([] ++ [Key "k"]), mk_state [[]] "k" (Some (JMap [("k", JInteger 1)]))) ∧
  deref ([] ++ [Key "k"]) (JMap [("k", JInteger 1)]) = Some (JInteger 1).
Proof.
  apply (insert_duplicate_key (JInteger 2) (JMap [("k", JInteger 1)]) (JInteger 1) [] [] "k"
           [("k", JInteger 1)]); reflexivity.
Defined.

(** [insert] returns [nullptr] and leaves the state as it is when a
    root exists and either no container is open or the pointer on top of
    the stack addresses a scalar. *)
Lemma insert_rejected (v r : json_data) (st : json_data_state) :
  root st = Some r →
  match stack st with
  | [] => True
  | cur :: _ => ∃ c, deref cur r = Some c ∧ type c ≠ json_type_array ∧ type c ≠ json_type_map
  end →
  insert v st = Ok (None, st).
Proof.
  unfold insert. intros ->. destruct (stack st) as [|cur stk]; [done|].
  intros (c & -> & Ha & Hm). by destruct c.
Qed.
