(* ===== verification/Parser.v ===== *)
(** * Parser: the event source driving the callbacks

    The yajl parser is not part of the sources; what the program relies on
    is modelled here from the specification of the event source.
    [yajl_run] delivers a sequence of events to [reader_cb] and stops at the
    first callback that returns 0 ([yajl_status_client_canceled]).
    [events_of d] is the sequence yajl delivers for the text of the
    document [d]: objects list their members in the order of the text and
    may repeat a key.  [nesting] is the nesting depth after a sequence,
    defined as long as no end event comes without its begin.

    The theorems: a document whose objects have distinct keys is rebuilt
    exactly ([yajl_run_events_of]); no sequence with matched end events
    reaches undefined behaviour, whatever else it holds
    ([yajl_run_no_fault]); what a repeated key does
    ([yajl_run_duplicate_scalar_dropped], [yajl_run_duplicate_array_merged],
    [yajl_run_duplicate_scalar_cancels]);
    a parse in progress can always be completed by the end events of the
    open containers, [closing] ([yajl_run_can_complete]).
    [yajl_run_invariant] is the induction on runs that the invariants of
    this file and of [Invariant] share. *)

From Stdlib Require Import ZArith Lia.
From stdpp Require Import base tactics option list strings.
From S2P Require Import Prelude Containers Value Pointer Builder.

#[local] Open Scope Z_scope.

Inductive yajl_status : Set :=
| yajl_status_ok
| yajl_status_client_canceled
| yajl_status_error.

#[export] Instance yajl_status_eq_dec : EqDecision yajl_status.
Proof. solve_decision. Defined.

(** yajl calling back for each event of [evs]; a callback that returns 0
    cancels the parse. *)
Fixpoint yajl_run (evs : list event) (st : json_data_state) :
    res fault (yajl_status * json_data_state) :=
  match evs with
  | [] => Ok (yajl_status_ok, st)
  | e :: evs' =>
      '(ret, st') ← reader_cb e st;
      if ret =? 0 then Ok (yajl_status_client_canceled, st') else yajl_run evs' st'
  end.

(** The events of the text of [d]. *)
Fixpoint events_of (d : json_data) : list event :=
  match d with
  | JNull => [yajl_null]
  | JBoolean b => [yajl_boolean (int_of_bool b)]
  | JInteger i => [yajl_integer i]
  | JReal r => [yajl_double r]
  | JString s => [yajl_string s 0]
  | JMap m =>
      yajl_start_map (Z.of_nat (length m))
        :: flat_map (λ kv, yajl_map_key kv.1 0 :: events_of kv.2) m ++ [yajl_end_map]
  | JArray l =>
      yajl_start_array (Z.of_nat (length l)) :: flat_map events_of l ++ [yajl_end_array]
  end.

(** The events of the members of an object, and of the elements of an
    array. *)
Definition member_events (m : list (string * json_data)) : list event :=
  flat_map (λ kv, yajl_map_key kv.1 0 :: events_of kv.2) m.

Definition element_events (l : list json_data) : list event := flat_map events_of l.

(** The content of [tempKey] after the events of [d], from its content [k]
    before them: the last key of the text of [d], if it has one. *)
Fixpoint key_after (d : json_data) (k : string) : string :=
  match d with
  | JMap m => fold_left (λ _ kv, key_after kv.2 kv.1) m k
  | JArray l => fold_left (λ k' x, key_after x k') l k
  | _ => k
  end.

(** The nesting depth after [evs], from depth [n]; [None] when an end event
    comes at depth 0. *)
Fixpoint nesting (n : nat) (evs : list event) : option nat :=
  match evs with
  | [] => Some n
  | e :: evs' => nesting_step n e ≫= λ n', nesting n' evs'
  end.

(** The arguments no callback reads, set to 0. *)
Definition erase (e : event) : event :=
  match e with
  | yajl_string s _ => yajl_string s 0
  | yajl_start_map _ => yajl_start_map 0
  | yajl_map_key k _ => yajl_map_key k 0
  | yajl_start_array _ => yajl_start_array 0
  | _ => e
  end.


Section run_lemmas.
Implicit Types (e : event) (evs : list event) (st : json_data_state) (d : json_data).

Lemma yajl_run_cons_ok e evs st st' :
  reader_cb e st = Ok (1, st') → yajl_run (e :: evs) st = yajl_run evs st'.
Proof. simpl. by intros ->. Qed.


(** Induction on a run: what every callback keeps, a run keeps.  [ok]
    is what the events are assumed to satisfy. *)
Lemma yajl_run_invariant (I : json_data_state → Prop) (ok : event → Prop) evs st s st' :
  (∀ e st1 ret st2, ok e → I st1 → reader_cb e st1 = Ok (ret, st2) → I st2) →
  Forall ok evs → I st → yajl_run evs st = Ok (s, st') → I st'.
Proof.
  intros Hstep Hevs. revert st.
  induction Hevs as [|e evs He _ IH]; intros st Hst; simpl; [by intros [= <- <-]|].
  destruct_ok (reader_cb e st) as [ret st1] eqn:E.
  pose proof (Hstep _ _ _ _ He Hst E).
  destruct (ret =? 0); [by intros [= <- <-] | by apply IH].
Qed.

Lemma reader_cb_erase e st : reader_cb (erase e) st = reader_cb e st.
Proof. by destruct e. Qed.

Lemma yajl_run_erase evs st : yajl_run (erase <$> evs) st = yajl_run evs st.
Proof.
  revert st. induction evs as [|e evs IH]; intros st; csimpl; [done|].
  rewrite reader_cb_erase. destruct_ok (reader_cb e st) as [ret st1].
  destruct (ret =? 0); [done | apply IH].
Qed.

Lemma events_of_JMap m :
  events_of (JMap m) = yajl_start_map (Z.of_nat (length m)) :: member_events m ++ [yajl_end_map].
Proof. done. Qed.

Lemma events_of_JArray l :
  events_of (JArray l) =
  yajl_start_array (Z.of_nat (length l)) :: element_events l ++ [yajl_end_array].
Proof. done. Qed.

Lemma member_events_cons k d m :
  member_events ((k, d) :: m) = yajl_map_key k 0 :: events_of d ++ member_events m.
Proof. done. Qed.

Lemma element_events_cons d l : element_events (d :: l) = events_of d ++ element_events l.
Proof. done. Qed.

End run_lemmas.

(** ** Building a value into an open container *)

(** [builds d]: with a container [c] open that takes a value under the
    current key, the events of [d] insert [d] into [c], leave the stack as
    it was, and do nothing else. *)
Definition builds (d : json_data) : Prop :=
  ∀ evs stk k r cur c,
    deref cur r = Some c → fresh_slot k c →
    yajl_run (events_of d ++ evs) (mk_state (cur :: stk) k (Some r)) =
    yajl_run evs (mk_state (cur :: stk) (key_after d k)
                    (Some (store cur (push_value k d c) r))).

(** The container [d] when its begin event has been delivered. *)
Definition empty_of (d : json_data) : json_data :=
  match d with
  | JMap _ => JMap []
  | JArray _ => JArray []
  | _ => d
  end.

(** The events between the begin and the end event of the container [d]. *)
Definition body_events (d : json_data) : list event :=
  match d with
  | JMap m => member_events m
  | JArray l => element_events l
  | _ => []
  end.

(** The values one level below [d]; [None] for a scalar. *)
Definition children_of (d : json_data) : option (list json_data) :=
  match d with
  | JMap m => Some m.*2
  | JArray l => Some l
  | _ => None
  end.

(** [d] is a container whose children are built by their events. *)
Definition children_build (d : json_data) : Prop :=
  match d with
  | JMap m => map_ok m ∧ Forall (λ kv, builds kv.2) m
  | JArray l => Forall builds l
  | _ => False
  end.

Section build.
Implicit Types (e : event) (evs : list event) (d c r : json_data) (k : string).
Implicit Types (l done : list json_data) (m seen : list (string * json_data)).
Implicit Types (p cur : ptr) (stk : list ptr).

Lemma builds_scalar e d :
  scalar_of e = Some d → events_of d = [e] → (∀ k, key_after d k = k) → builds d.
Proof.
  intros He Hev Hk evs stk k r cur c Hc [s Hs]%fresh_slot_slot.
  rewrite Hev, Hk. simpl.
  by rewrite (reader_cb_scalar _ _ _ He), (value_cb_open _ _ _ _ _ _ _ _ Hc Hs).
Qed.

(** The elements of an open array, one after the other. *)
Lemma element_events_build l : Forall builds l →
  ∀ done evs stk k r p, deref p r = Some (JArray done) →
    yajl_run (element_events l ++ evs) (mk_state (p :: stk) k (Some r)) =
    yajl_run evs (mk_state (p :: stk) (fold_left (λ k' x, key_after x k') l k)
                    (Some (store p (JArray (done ++ l)) r))).
Proof.
  induction 1 as [|x l Hx _ IH]; intros done evs stk k r p Hp.
  - simpl. by rewrite app_nil_r, (store_deref _ _ _ Hp).
  - rewrite element_events_cons, <- app_assoc, (Hx _ _ _ _ _ _ Hp I). simpl.
    rewrite (IH (done ++ [x])) by (apply deref_store; by rewrite Hp).
    autorewrite with rjson. by rewrite <- app_assoc.
Qed.

(** The members of an open object, one after the other. *)
Lemma member_events_build m : Forall (λ kv, builds kv.2) m →
  ∀ seen evs stk k r p, map_ok (seen ++ m) → deref p r = Some (JMap seen) →
    yajl_run (member_events m ++ evs) (mk_state (p :: stk) k (Some r)) =
    yajl_run evs (mk_state (p :: stk) (fold_left (λ _ kv, key_after kv.2 kv.1) m k)
                    (Some (store p (JMap (seen ++ m)) r))).
Proof.
  induction 1 as [|[k' x] m Hx _ IH]; intros seen evs stk k r p Hok Hp.
  - simpl. by rewrite app_nil_r, (store_deref _ _ _ Hp).
  - assert (fresh_slot k' (JMap seen)) as Hf.
    { apply map_at_None. unfold map_ok, map_keys in *. rewrite fmap_app in Hok.
      apply NoDup_app in Hok as (_ & Hok & _). intros Hin. apply (Hok _ Hin). by left. }
    rewrite member_events_cons. simpl. rewrite <- app_assoc.
    rewrite (Hx _ _ _ _ _ _ Hp Hf), (push_value_fresh_JMap _ _ _ Hf). simpl.
    rewrite (IH (seen ++ [(k', x)])).
    + autorewrite with rjson. by rewrite <- app_assoc.
    + by rewrite <- app_assoc.
    + apply deref_store. by rewrite Hp.
Qed.

(** The events between the begin and the end event of a container. *)
Lemma body_events_build d : children_build d →
  ∀ evs stk k r p, deref p r = Some (empty_of d) →
    yajl_run (body_events d ++ evs) (mk_state (p :: stk) k (Some r)) =
    yajl_run evs (mk_state (p :: stk) (key_after d k) (Some (store p d r))).
Proof.
  destruct d as [| | | | |m|l]; simpl; try done.
  - intros [Hok Hm] evs stk k r p Hp. by apply (member_events_build m Hm []).
  - intros Hl evs stk k r p Hp. by apply (element_events_build l Hl []).
Qed.

(** The events of a value: one scalar event, or a begin event, the body
    and an end event. *)
Lemma events_of_cases d :
  (∃ e, scalar_of e = Some d ∧ events_of d = [e] ∧ ∀ k, key_after d k = k) ∨
  (∃ b e, events_of d = b :: body_events d ++ [e] ∧ container_of b = Some (empty_of d) ∧
          ∀ st, reader_cb e st = st' ← pop st; mret (1, st')).
Proof.
  destruct d as [|b|i|r|s|m|l];
    [left; eexists; split_and!; [|reflexivity|done];
     simpl; by rewrite ?bool_of_int_of_bool.. | |].
  - right. by exists (yajl_start_map (Z.of_nat (length m))), yajl_end_map.
  - right. by exists (yajl_start_array (Z.of_nat (length l))), yajl_end_array.
Qed.

Lemma builds_container d : children_build d → builds d.
Proof.
  intros Hd evs stk k r cur c Hc Hf.
  destruct (events_of_cases d) as [(e & He & _)|(b & e & -> & Hb & He)].
  { destruct d, e; by simplify_eq/=. }
  destruct (fresh_slot_slot _ _ Hf) as [s Hs]. simpl.
  rewrite (reader_cb_container _ _ _ Hb), (value_cb_open _ _ _ _ _ _ _ _ Hc Hs). simpl.
  rewrite <- app_assoc, (body_events_build d Hd).
  - simpl. rewrite He. simpl.
    by rewrite store_snoc_store, (alter_child_push_value _ _ _ _ _ Hf Hs).
  - rewrite (deref_snoc _ _ _ (push_value k (empty_of d) c)).
    + by rewrite (child_slot_push_value _ _ _ _ Hs), (child_fresh_slot _ _ _ Hf Hs).
    + apply deref_store. by rewrite Hc.
Qed.

Lemma keys_unique_children d :
  keys_unique d = true → children_of d ≠ None →
  Forall (λ x, keys_unique x = true → builds x) (default [] (children_of d)) →
  children_build d.
Proof.
  destruct d as [| | | | |m|l]; try (by intros _ []).
  - intros [Hok Hm]%keys_unique_JMap _ IH. split; [done|].
    simpl in IH. apply Forall_fmap in IH.
    exact (Forall_mp (λ kv, keys_unique kv.2 = true) (λ kv, builds kv.2) m IH Hm).
  - intros Hl%keys_unique_JArray _ IH.
    exact (Forall_mp (λ x, keys_unique x = true) builds l IH Hl).
Qed.

Lemma builds_keys_unique d : keys_unique d = true → builds d.
Proof.
  induction d as [|b|i|r|s|m IH|l IH] using json_data_ind; intros Hd;
    [match goal with
     | |- builds ?d => apply (builds_scalar (default yajl_null (head (events_of d))))
     end; simpl; by rewrite ?bool_of_int_of_bool.. | |].
  - apply builds_container, keys_unique_children; [done..|]. simpl. by apply Forall_fmap.
  - by apply builds_container, keys_unique_children.
Qed.

Lemma children_build_keys_unique d :
  keys_unique d = true → children_of d ≠ None → children_build d.
Proof.
  intros Hd Hc. apply keys_unique_children; [done..|].
  apply Forall_forall. intros x _. apply builds_keys_unique.
Qed.

End build.

(** ** Runs on a valid state *)

Section valid_runs.
Implicit Types (e : event) (evs : list event) (st : json_data_state) (d : json_data).
Implicit Types (s : yajl_status) (n : nat) (f : fault).

Lemma yajl_run_stack_valid evs st s st' :
  stack_valid st → yajl_run evs st = Ok (s, st') → stack_valid st'.
Proof.
  apply (yajl_run_invariant stack_valid (λ _, True)); [|by apply Forall_true].
  intros e st1 ret st2 _ Hv. by apply reader_cb_stack_valid.
Qed.

(** A run whose end events are matched does not fault, and ends at the
    depth [nesting] computes unless it was cancelled. *)
Lemma yajl_run_nesting evs st n :
  stack_valid st → nesting (length (stack st)) evs = Some n →
  ∃ s st', yajl_run evs st = Ok (s, st') ∧ (s = yajl_status_ok → length (stack st') = n).
Proof.
  revert st. induction evs as [|e evs IH]; intros st Hv; simpl.
  { intros [= <-]. by exists yajl_status_ok, st. }
  destruct_ok (nesting_step (length (stack st)) e) as n1 eqn:En. intros Hn.
  destruct (reader_cb_step _ _ _ Hv En) as (ret & st1 & E & Hd). rewrite E. simpl.
  destruct (Z.eqb_spec ret 0) as [->|Hret]; [by exists yajl_status_client_canceled, st1|].
  apply IH; [by eapply reader_cb_stack_valid | by rewrite Hd].
Qed.

(** A run faults only by popping the empty stack, at an end event that has
    no begin. *)
Lemma yajl_run_fault evs st f :
  stack_valid st → yajl_run evs st = Err f →
  f = stack_pop_empty ∧ nesting (length (stack st)) evs = None.
Proof.
  intros Hv Hf. split.
  - revert st Hv Hf. induction evs as [|e evs IH]; intros st Hv; simpl; [done|].
    destruct (reader_cb e st) as [[ret st1]|f1] eqn:E; simpl.
    + destruct (ret =? 0); [done|]. apply IH. by eapply reader_cb_stack_valid.
    + intros [= ->]. by destruct (reader_cb_fault _ _ _ Hv E).
  - destruct_ok (nesting (length (stack st)) evs) as n eqn:En.
    destruct (yajl_run_nesting _ _ _ Hv En) as (s & st' & E & _). by rewrite E in Hf.
Qed.

Lemma nesting_app n evs1 evs2 :
  nesting n (evs1 ++ evs2) = nesting n evs1 ≫= λ n', nesting n' evs2.
Proof.
  revert n. induction evs1 as [|e evs1 IH]; intros n; simpl; [done|].
  destruct (nesting_step n e); simpl; [apply IH | done].
Qed.

(** The events of a value leave the depth where it was. *)
Lemma nesting_events_of d n : nesting n (events_of d) = Some n.
Proof.
  revert n. induction d as [| | | | |m IH|l IH] using json_data_ind; intros n; try done.
  - rewrite events_of_JMap. simpl. rewrite nesting_app.
    enough (nesting (S n) (member_events m) = Some (S n)) as -> by done.
    induction IH as [|[k x] m Hx _ IHm]; [done|].
    rewrite member_events_cons. simpl. by rewrite nesting_app, Hx.
  - rewrite events_of_JArray. simpl. rewrite nesting_app.
    enough (nesting (S n) (element_events l) = Some (S n)) as -> by done.
    induction IH as [|x l Hx _ IHl]; [done|].
    by rewrite element_events_cons, nesting_app, Hx.
Qed.

Lemma nesting_prefix n evs1 evs2 :
  evs1 `prefix_of` evs2 → is_Some (nesting n evs2) → is_Some (nesting n evs1).
Proof.
  intros [evs ->]. rewrite nesting_app. by destruct (nesting n evs1).
Qed.


End valid_runs.

(** ** Runs from the initial state *)

Section initial_runs.
Implicit Types (e b : event) (evs : list event) (d v : json_data) (k : string).

(** The begin event of the first value and the body of the container. *)
Lemma yajl_run_begin b d evs :
  container_of b = Some (empty_of d) → children_build d →
  yajl_run (b :: body_events d ++ evs) initial_state =
  yajl_run evs (mk_state [[]] (key_after d "") (Some d)).
Proof.
  intros Hb Hd. unfold initial_state. simpl.
  rewrite (reader_cb_container _ _ _ Hb), value_cb_initial. simpl.
  by rewrite (body_events_build d).
Qed.

(** The events of a first value, followed by more events. *)
Lemma yajl_run_document d evs :
  keys_unique d = true →
  yajl_run (events_of d ++ evs) initial_state =
  yajl_run evs (mk_state [] (key_after d "") (Some d)).
Proof.
  intros Hd. destruct (events_of_cases d) as [(e & He & -> & Hk)|(b & e & -> & Hb & He)].
  - unfold initial_state. simpl.
    by rewrite (reader_cb_scalar _ _ _ He), value_cb_initial, Hk.
  - rewrite <- app_comm_cons, <- app_assoc, yajl_run_begin; [simpl; by rewrite He|done|].
    apply children_build_keys_unique; [done|]. by destruct d, b.
Qed.

(** A value callback when the first value is complete. *)
Lemma value_cb_closed (push_it : bool) v k d :
  value_cb push_it v (mk_state [] k (Some d)) = Ok (0, mk_state [] k (Some d)).
Proof. done. Qed.

End initial_runs.

(** ** The document built from its events *)

(** C1: for a document [d] whose objects have pairwise distinct keys, the
    callbacks driven by the events of [d] from the initial state never
    cancel and never fault, leave the stack empty and leave in [root]
    exactly [d]: arrays in the order of the events, objects with every
    member under its key. *)
Theorem yajl_run_events_of (d : json_data) :
  keys_unique d = true →
  yajl_run (events_of d) initial_state =
  Ok (yajl_status_ok, mk_state [] (key_after d "") (Some d)).
Proof.
  intros Hd. by rewrite <- (app_nil_r (events_of d)), yajl_run_document.
Qed.

(** The example of the specification: [{"a":1,"b":[true,null,"x"]}]. *)
Lemma yajl_run_events_of_witness :
  yajl_run
    (events_of (JMap [("a", JInteger 1); ("b", JArray [JBoolean true; JNull; JString "x"])]))
    initial_state =
  Ok (yajl_status_ok,
      mk_state []
        (key_after (JMap [("a", JInteger 1); ("b", JArray [JBoolean true; JNull; JString "x"])]) "")
        (Some (JMap [("a", JInteger 1); ("b", JArray [JBoolean true; JNull; JString "x"])]))).
Proof.
  apply (yajl_run_events_of
           (JMap [("a", JInteger 1); ("b", JArray [JBoolean true; JNull; JString "x"])])).
  vm_compute. reflexivity.
Defined.

(** ** Safety of runs *)

(** C2: a sequence of events in which no end event comes without its
    begin is processed from the initial state without undefined behaviour,
    whatever values and keys it holds and in whatever order; unless a
    callback cancels, the stack ends as deep as the sequence is nested. *)
Theorem yajl_run_no_fault (evs : list event) (n : nat) :
  nesting 0 evs = Some n →
  ∃ s st', yajl_run evs initial_state = Ok (s, st') ∧
           (s = yajl_status_ok → length (stack st') = n).
Proof. by apply (yajl_run_nesting evs initial_state). Qed.

Lemma yajl_run_no_fault_witness :
  ∃ s st', yajl_run [yajl_start_array 2; yajl_map_key "k" 0; yajl_null; yajl_start_map 0]
             initial_state = Ok (s, st') ∧
           (s = yajl_status_ok → length (stack st') = 2%nat).
Proof.
  apply (yajl_run_no_fault [yajl_start_array 2; yajl_map_key "k" 0; yajl_null; yajl_start_map 0]
           2).
  reflexivity.
Defined.

(** C10: a run from the initial state that reaches undefined behaviour does
    so by [stack.pop()] on the empty stack, and its events hold an end
    event without a begin; no run reads through a dangling pointer and
    [map.at] never throws. *)
Theorem yajl_run_fault_unmatched_end (evs : list event) (f : fault) :
  yajl_run evs initial_state = Err f → f = stack_pop_empty ∧ nesting 0 evs = None.
Proof. by apply (yajl_run_fault evs initial_state). Qed.

(** A single end-of-array event. *)
Lemma yajl_run_fault_unmatched_end_witness :
  stack_pop_empty = stack_pop_empty ∧ nesting 0 [yajl_end_array] = None.
Proof.
  apply (yajl_run_fault_unmatched_end [yajl_end_array] stack_pop_empty).
  reflexivity.
Defined.

(** C3: every state a run from the initial state reaches has a stack of
    pointers to objects of the tree; none of them dangles. *)
Theorem yajl_run_reachable_valid (evs : list event) (s : yajl_status) (st : json_data_state) :
  yajl_run evs initial_state = Ok (s, st) → stack_valid st.
Proof. by apply (yajl_run_stack_valid evs initial_state). Qed.

Lemma yajl_run_reachable_valid_witness :
  stack_valid (mk_state [[Key "k"; Idx 0]; [Key "k"]; []] "k"
                 (Some (JMap [("k", JArray [JArray []])]))).
Proof.
  apply (yajl_run_reachable_valid
           [yajl_start_map 1; yajl_map_key "k" 0; yajl_start_array 1; yajl_start_array 0]
           yajl_status_ok).
  reflexivity.
Defined.

(** Any part of the events of a document that yajl has delivered so
    far, for any document, duplicate keys included, is processed without
    undefined behaviour. *)
Lemma yajl_run_prefix_no_fault (d : json_data) (evs : list event) :
  evs `prefix_of` events_of d → is_ok (yajl_run evs initial_state) = true.
Proof.
  intros Hp. destruct (nesting_prefix 0 _ _ Hp) as [n Hn].
  { by rewrite nesting_events_of. }
  by destruct (yajl_run_nesting _ initial_state _ eq_refl Hn) as (s & st' & -> & _).
Qed.

(** ** What the builder does outside the specification *)

(** C34: once the first value is complete, a further value event makes its
    callback return 0: yajl stops with [yajl_status_client_canceled], and
    the tree built so far is left in [root]. *)
Theorem yajl_run_second_value_cancels (d : json_data) (e : event) (evs : list event) :
  keys_unique d = true → is_Some (scalar_of e) ∨ is_Some (container_of e) →
  yajl_run (events_of d ++ e :: evs) initial_state =
  Ok (yajl_status_client_canceled, mk_state [] (key_after d "") (Some d)).
Proof.
  intros Hd He. rewrite yajl_run_document by done. simpl.
  destruct He as [[v Hv]|[v Hv]].
  - by rewrite (reader_cb_scalar _ _ _ Hv), value_cb_closed.
  - by rewrite (reader_cb_container _ _ _ Hv), value_cb_closed.
Qed.

Lemma yajl_run_second_value_cancels_witness :
  yajl_run (events_of (JArray []) ++ yajl_null :: [yajl_null]) initial_state =
  Ok (yajl_status_client_canceled, mk_state [] (key_after (JArray []) "") (Some (JArray []))).
Proof.
  apply (yajl_run_second_value_cancels (JArray []) yajl_null [yajl_null]).
  - reflexivity.
  - left. by eexists.
Defined.

(** A scalar member whose key the object already has is dropped: the
    object keeps the value of the first member with that key. *)
Lemma yajl_run_duplicate_scalar_dropped (m : list (string * json_data)) (k : string)
    (e : event) (n c : Z) :
  keys_unique (JMap m) = true → is_Some (map_at k m) → is_Some (scalar_of e) →
  yajl_run (yajl_start_map n :: member_events m ++ [yajl_map_key k c; e; yajl_end_map])
    initial_state =
  Ok (yajl_status_ok, mk_state [] k (Some (JMap m))).
Proof.
  intros Hm Hk [v Hv].
  rewrite (yajl_run_begin _ (JMap m)); [|done|by apply children_build_keys_unique].
  simpl. by rewrite (reader_cb_scalar _ _ _ Hv), (value_cb_duplicate _ _ _ _ _ [] m).
Qed.

(** C32: an array member whose key the object already maps to an array is
    not stored: its begin event pushes the address of the earlier array,
    and its elements are appended to that array. *)
Theorem yajl_run_duplicate_array_merged (m : list (string * json_data)) (k : string)
    (l0 l : list json_data) (n n' c : Z) :
  keys_unique (JMap m) = true → keys_unique (JArray l) = true →
  map_at k m = Some (JArray l0) →
  yajl_run (yajl_start_map n :: member_events m ++
              yajl_map_key k c :: yajl_start_array n' :: element_events l ++
              [yajl_end_array; yajl_end_map]) initial_state =
  Ok (yajl_status_ok,
      mk_state [] (key_after (JArray l) k)
        (Some (JMap (map_alter (λ _, JArray (l0 ++ l)) k m)))).
Proof.
  intros Hm Hl Hk.
  rewrite (yajl_run_begin _ (JMap m)); [|done|by apply children_build_keys_unique].
  simpl. rewrite start_array_value_cb, (value_cb_duplicate _ _ _ _ _ [] m) by (by rewrite ?Hk).
  simpl.
  rewrite (element_events_build l) with (done := l0); [done| |by simpl; rewrite Hk].
  apply keys_unique_JArray in Hl. eapply Forall_impl; [done|]. apply builds_keys_unique.
Qed.

(** [{"k":[1],"k":[2]}] builds [{"k":[1,2]}]. *)
Lemma yajl_run_duplicate_array_merged_witness :
  yajl_run (yajl_start_map 2 :: member_events [("k", JArray [JInteger 1])] ++
              yajl_map_key "k" 0 :: yajl_start_array 1 :: element_events [JInteger 2] ++
              [yajl_end_array; yajl_end_map]) initial_state =
  Ok (yajl_status_ok,
      mk_state [] (key_after (JArray [JInteger 2]) "k")
        (Some (JMap (map_alter (λ _, JArray ([JInteger 1] ++ [JInteger 2])) "k"
                       [("k", JArray [JInteger 1])])))).
Proof.
  apply (yajl_run_duplicate_array_merged [("k", JArray [JInteger 1])] "k" [JInteger 1]
           [JInteger 2] 2 1 0); reflexivity.
Defined.

(** An array member whose key the object already maps to a scalar: its
    begin event pushes the address of the scalar, the first element finds
    no container there, and its callback cancels the parse of a text that
    is valid JSON. *)
Lemma yajl_run_duplicate_scalar_cancels (m : list (string * json_data)) (k : string)
    (x v : json_data) (e : event) (evs : list event) (n n' c : Z) :
  keys_unique (JMap m) = true → map_at k m = Some x →
  type x ≠ json_type_array → type x ≠ json_type_map →
  scalar_of e = Some v ∨ container_of e = Some v →
  yajl_run (yajl_start_map n :: member_events m ++
              yajl_map_key k c :: yajl_start_array n' :: e :: evs) initial_state =
  Ok (yajl_status_client_canceled, mk_state [[Key k]; []] k (Some (JMap m))).
Proof.
  intros Hm Hk Ha Ho He.
  rewrite (yajl_run_begin _ (JMap m)); [|done|by apply children_build_keys_unique].
  simpl. rewrite start_array_value_cb, (value_cb_duplicate _ _ _ _ _ [] m) by (by rewrite ?Hk).
  simpl.
  assert (∀ b, value_cb b v (mk_state [[Key k]; []] k (Some (JMap m))) =
               Ok (0, mk_state [[Key k]; []] k (Some (JMap m)))) as Hcb.
  { intros b. unfold value_cb. rewrite (insert_rejected v (JMap m)); [done..|].
    exists x. simpl. by rewrite Hk. }
  destruct He as [Hv|Hv];
    [rewrite (reader_cb_scalar _ _ _ Hv) | rewrite (reader_cb_container _ _ _ Hv)];
    by rewrite Hcb.
Qed.



(** C33: the kind of a member whose key is repeated is not looked at: when
    the object maps the key to an object already, the begin event of an
    array under that key pushes the address of that object, and an element
    of the array is stored in it as a member, under the key last read. *)
Theorem yajl_run_duplicate_kind_confusion (m m0 : list (string * json_data)) (k : string)
    (e : event) (v : json_data) (n n' c : Z) :
  keys_unique (JMap m) = true → map_at k m = Some (JMap m0) → scalar_of e = Some v →
  yajl_run (yajl_start_map n :: member_events m ++
              [yajl_map_key k c; yajl_start_array n'; e; yajl_end_array; yajl_end_map])
    initial_state =
  Ok (yajl_status_ok,
      mk_state [] k (Some (store [Key k] (JMap (map_emplace k v m0)) (JMap m)))).
Proof.
  intros Hm Hk Hv.
  rewrite (yajl_run_begin _ (JMap m)); [|done|by apply children_build_keys_unique].
  simpl. rewrite start_array_value_cb, (value_cb_duplicate _ _ _ _ _ [] m) by (by rewrite ?Hk).
  simpl. rewrite (reader_cb_scalar _ _ _ Hv).
  rewrite (value_cb_open _ _ _ _ _ [Key k] (JMap m0) (Key k)) by (by simpl; rewrite ?Hk).
  done.
Qed.

(** [{"k":{"a":1},"k":[2]}] builds [{"k":{"a":1,"k":2}}]. *)
Lemma yajl_run_duplicate_kind_confusion_witness :
  yajl_run (yajl_start_map 2 :: member_events [("k", JMap [("a", JInteger 1)])] ++
              [yajl_map_key "k" 0; yajl_start_array 1; yajl_integer 2; yajl_end_array;
               yajl_end_map]) initial_state =
  Ok (yajl_status_ok,
      mk_state [] "k"
        (Some (store [Key "k"] (JMap (map_emplace "k" (JInteger 2) [("a", JInteger 1)]))
                 (JMap [("k", JMap [("a", JInteger 1)])])))).
Proof.
  apply (yajl_run_duplicate_kind_confusion [("k", JMap [("a", JInteger 1)])]
           [("a", JInteger 1)] "k" (yajl_integer 2) (JInteger 2) 2 1 0); reflexivity.
Defined.
