(* ===== verification/Invariant.v ===== *)
(** * Invariant: what holds of every tree the builder produces

    A property of values is [Hereditary] when it passes from a node to its
    children, is kept by a write to a child that keeps it, and is kept by
    the two writes [insert] performs ([emplace_back] and [emplace]).  Such
    a property of the inserted values is a property of [root] in every
    state a run reaches: [yajl_run_hereditary].

    Two instances: [keys_unique], whatever the text (an object of the text
    that repeats a key is built without the repetition), and [in_range],
    as long as yajl passes values of the C types of the callbacks.

    Two more facts relate a state to the states after it: [root], once
    set, stays set ([yajl_run_root_set]), and every object stays at its
    address with its kind ([same_kinds], a preorder on trees). *)

From Stdlib Require Import ZArith Lia.
From stdpp Require Import base tactics option list strings.
From S2P Require Import Prelude Containers Value Pointer Builder Parser.

#[local] Open Scope Z_scope.

Class Hereditary (Q : json_data → Prop) : Prop := {
  hereditary_child s d c : child s d = Some c → Q d → Q c;
  hereditary_alter f s d c :
    child s d = Some c → Q d → Q (f c) → Q (alter_child f s d);
  hereditary_push k v c : Q c → Q v → Q (push_value k v c);
  hereditary_container e c : container_of e = Some c → Q c;
}.

(** [root], if there is one, satisfies [Q]. *)
Definition root_ok (Q : json_data → Prop) (st : json_data_state) : Prop :=
  from_option Q True (root st).

(** The scalar that [e] inserts, if it inserts one, satisfies [Q]. *)
Definition event_ok (Q : json_data → Prop) (e : event) : Prop :=
  from_option Q True (scalar_of e).


Section hereditary.
Context (Q : json_data → Prop) `{!Hereditary Q}.
Implicit Types (e : event) (v c r : json_data) (st : json_data_state) (p : ptr).

Lemma update_hereditary f p r c : deref p r = Some c → Q r → Q (f c) → Q (update f p r).
Proof.
  revert r. induction p as [|s p IH]; intros r; simpl; [by intros [= ->]|].
  destruct_ok (child s r) as x eqn:E. simpl. intros Hc Hr Hf.
  apply (hereditary_alter _ _ _ x); [done..|]. apply IH; [done| |done].
  by apply (hereditary_child s r).
Qed.

Lemma deref_hereditary p r c : deref p r = Some c → Q r → Q c.
Proof.
  revert r. induction p as [|s p IH]; intros r; simpl; [by intros [= ->]|].
  destruct_ok (child s r) as x eqn:E. simpl. intros Hc Hr.
  apply (IH x); [done|]. by apply (hereditary_child s r).
Qed.

Lemma insert_hereditary v st o st' :
  root_ok Q st → Q v → insert v st = Ok (o, st') → root_ok Q st'.
Proof.
  unfold root_ok. rewrite insert_eq.
  destruct st as [[|cur stk] k [r|]]; simpl; try by intros ? ? [= <- <-].
  intros Hr Hv. destruct_ok (deref cur r) as c eqn:Ec.
  destruct (slot k c); intros [= <- <-]; simpl; [|done].
  apply (update_hereditary _ _ _ c); [done..|].
  apply hereditary_push; [|done]. by apply (deref_hereditary cur r).
Qed.

Lemma reader_cb_hereditary e st ret st' :
  event_ok Q e → root_ok Q st → reader_cb e st = Ok (ret, st') → root_ok Q st'.
Proof.
  unfold root_ok at 2. intros He Hr [->|(v & o & st1 & Hv & Hins & ->)]%reader_cb_root; [done|].
  apply (insert_hereditary v st o st1); [done| |done]. unfold event_ok in He.
  destruct Hv as [Hs|Hc]; [by rewrite Hs in He | by apply (hereditary_container e)].
Qed.

Lemma yajl_run_hereditary (evs : list event) st s st' :
  root_ok Q st → Forall (event_ok Q) evs → yajl_run evs st = Ok (s, st') → root_ok Q st'.
Proof. intros Hr Hevs. by apply (yajl_run_invariant _ _ _ _ _ _ reader_cb_hereditary). Qed.

End hereditary.

(** ** The two instances *)

#[export] Instance keys_unique_hereditary : Hereditary (λ d, keys_unique d = true).
Proof.
  split.
  - intros [i|k] [| | | | |m|l] c; simpl child; try done.
    + intros Hl Hd%keys_unique_JArray. exact (Forall_lookup_Some _ _ _ _ Hd Hl).
    + intros Hm [_ Hd]%keys_unique_JMap.
      exact (map_at_Forall (λ d, keys_unique d = true) _ _ _ Hd Hm).
  - intros f [i|k] [| | | | |m|l] c; simpl child; simpl alter_child; try done.
    + rewrite !keys_unique_JArray. intros Hl Hd Hf.
      apply Forall_alter; [done|]. by intros; simplify_eq.
    + rewrite !keys_unique_JMap. intros Hm [Hok Hd] Hf.
      split; [auto with rjson|].
      apply (map_alter_Forall (λ d, keys_unique d = true)); [done|]. by intros; simplify_eq.
  - intros k v [| | | | |m|l]; simpl push_value; try done.
    + rewrite !keys_unique_JMap. intros [Hok Hd] Hv.
      split; [auto with rjson|].
      by apply (map_emplace_Forall (λ d, keys_unique d = true)).
    + rewrite !keys_unique_JArray. intros Hd Hv. apply Forall_app. by rewrite Forall_singleton.
  - by intros [] c [= <-].
Qed.

#[export] Instance in_range_hereditary : Hereditary (λ d, in_range d = true).
Proof.
  split.
  - intros [i|k] [| | | | |m|l] c; simpl child; try done.
    + intros Hl Hd%in_range_JArray. exact (Forall_lookup_Some _ _ _ _ Hd Hl).
    + intros Hm Hd%in_range_JMap.
      exact (map_at_Forall (λ d, in_range d = true) _ _ _ Hd Hm).
  - intros f [i|k] [| | | | |m|l] c; simpl child; simpl alter_child; try done.
    + rewrite !in_range_JArray. intros Hl Hd Hf.
      apply Forall_alter; [done|]. by intros; simplify_eq.
    + rewrite !in_range_JMap. intros Hm Hd Hf.
      apply (map_alter_Forall (λ d, in_range d = true)); [done|]. by intros; simplify_eq.
  - intros k v [| | | | |m|l]; simpl push_value; try done.
    + rewrite !in_range_JMap. intros Hd Hv.
      by apply (map_emplace_Forall (λ d, in_range d = true)).
    + rewrite !in_range_JArray. intros Hd Hv. apply Forall_app. by rewrite Forall_singleton.
  - by intros [] c [= <-].
Qed.

Lemma event_ok_keys_unique (e : event) : event_ok (λ d, keys_unique d = true) e.
Proof. by destruct e. Qed.


(** ** The root, once set, stays set *)

Section root_set.
Implicit Types (e : event) (v : json_data) (st : json_data_state).

Lemma insert_root_set v st o st' :
  insert v st = Ok (o, st') → is_Some (root st) → is_Some (root st').
Proof.
  rewrite insert_eq. destruct st as [[|cur stk] k [r|]]; simpl;
    try (by intros [= <- <-]); try (by intros _ []%is_Some_None).
  destruct_ok (deref cur r) as c. by destruct (slot k c); intros [= <- <-].
Qed.

Lemma reader_cb_root_set e st ret st' :
  is_Some (root st) → reader_cb e st = Ok (ret, st') → is_Some (root st').
Proof.
  intros Hr [->|(v & o & st1 & _ & Hins & ->)]%reader_cb_root; [done|].
  by apply (insert_root_set v st o).
Qed.

Lemma yajl_run_root_set (evs : list event) st s st' :
  yajl_run evs st = Ok (s, st') → is_Some (root st) → is_Some (root st').
Proof.
  intros Hrun Hr. revert Hr Hrun.
  apply (yajl_run_invariant (λ st, is_Some (root st)) (λ _, True)); [|by apply Forall_true].
  intros e st1 ret st2 _. apply reader_cb_root_set.
Qed.

(** A run that begins with a value sets the root. *)
Lemma yajl_run_first_value e (evs : list event) s st :
  is_Some (scalar_of e) ∨ is_Some (container_of e) →
  yajl_run (e :: evs) initial_state = Ok (s, st) → is_Some (root st).
Proof.
  intros He. change (yajl_run (e :: evs) initial_state)
    with ('(ret, st') ← reader_cb e initial_state;
          if (ret =? 0)%Z then Ok (yajl_status_client_canceled, st') else yajl_run evs st').
  assert (∃ b v, reader_cb e initial_state = value_cb b v initial_state) as (b & v & ->).
  { destruct He as [[v Hv]|[v Hv]]; eexists _, v;
      [by apply reader_cb_scalar | by apply reader_cb_container]. }
  unfold initial_state. rewrite value_cb_initial. simpl.
  intros Hrun. by apply (yajl_run_root_set _ _ _ _ Hrun).
Qed.

End root_set.

(** ** Every object keeps its address and its kind *)

(** [r'] has, at every address of an object of [r], an object of the same
    kind. *)
Definition same_kinds (r r' : json_data) : Prop :=
  ∀ p c, deref p r = Some c → ∃ c', deref p r' = Some c' ∧ type c' = type c.

(** The same of the roots of two states, the second of which has a root
    if the first has. *)
Definition roots_same_kinds (st st' : json_data_state) : Prop :=
  ∀ r, root st = Some r → ∃ r', root st' = Some r' ∧ same_kinds r r'.

Section kinds.
Implicit Types (e : event) (v r : json_data) (st : json_data_state).

#[export] Instance same_kinds_preorder : PreOrder same_kinds.
Proof.
  split; [by intros r p c; eauto|].
  intros r1 r2 r3 H12 H23 p c1 (c2 & H2 & <-)%H12.
  destruct (H23 _ _ H2) as (c3 & H3 & <-). eauto.
Qed.

#[export] Instance roots_same_kinds_preorder : PreOrder roots_same_kinds.
Proof.
  split; [by intros st r Hr; exists r|].
  intros st1 st2 st3 H12 H23 r1 (r2 & Hr2 & Hk12)%H12.
  destruct (H23 _ Hr2) as (r3 & Hr3 & Hk23). exists r3. split; [done|]. by etransitivity.
Qed.

Lemma type_push_value k v c : type (push_value k v c) = type c.
Proof. by destruct c. Qed.

Lemma insert_same_kinds v st o st' : insert v st = Ok (o, st') → roots_same_kinds st st'.
Proof.
  rewrite insert_eq. intros H r Hr. destruct st as [[|cur stk] k ro]; simpl in *; subst;
    [injection H as <- <-; by eexists|].
  destruct_ok (deref cur r) as c.
  destruct (slot k c); injection H as <- <-; (eexists; split; [done|]); [|done].
  intros p x Hp. apply deref_update_type; auto using keeps_children_push_value, type_push_value.
Qed.

Lemma reader_cb_same_kinds e st ret st' :
  reader_cb e st = Ok (ret, st') → roots_same_kinds st st'.
Proof.
  unfold roots_same_kinds.
  intros [->|(v & o & st1 & _ & Hins & ->)]%reader_cb_root; [by intros r Hr; exists r|].
  by apply (insert_same_kinds v st o).
Qed.

Lemma yajl_run_same_kinds (evs : list event) st s st' :
  yajl_run evs st = Ok (s, st') → roots_same_kinds st st'.
Proof.
  apply (yajl_run_invariant (roots_same_kinds st) (λ _, True)); [|by apply Forall_true|done].
  intros e st1 ret st2 _ H1 H2%reader_cb_same_kinds. by etransitivity.
Qed.

End kinds.

(** No event can break the distinctness of keys. *)
Lemma yajl_run_root_keys_unique (evs : list event) (st st' : json_data_state) (s : yajl_status) :
  root_ok (λ d, keys_unique d = true) st → yajl_run evs st = Ok (s, st') →
  root_ok (λ d, keys_unique d = true) st'.
Proof.
  intros Hr. apply yajl_run_hereditary; [apply _|done|].
  apply Forall_forall. intros e _. apply event_ok_keys_unique.
Qed.

(** ** The theorems of the component *)

(** C15: whatever events yajl delivers, repeated keys included, every
    object of the tree a run from the initial state has built has pairwise
    distinct keys. *)
Theorem yajl_run_keys_unique (evs : list event) (s : yajl_status) (st : json_data_state) :
  yajl_run evs initial_state = Ok (s, st) → root_ok (λ r, keys_unique r = true) st.
Proof. by apply (yajl_run_root_keys_unique evs initial_state st s). Qed.

(** [{"k":1,"k":2}] *)
Lemma yajl_run_keys_unique_witness :
  root_ok (λ r, keys_unique r = true) (mk_state [] "k" (Some (JMap [("k", JInteger 1)]))).
Proof.
  apply (yajl_run_keys_unique
           [yajl_start_map 2; yajl_map_key "k" 0; yajl_integer 1; yajl_map_key "k" 0;
            yajl_integer 2; yajl_end_map]
           yajl_status_ok (mk_state [] "k" (Some (JMap [("k", JInteger 1)])))).
  reflexivity.
Defined.

(** C16: every object of the tree stays at its address and keeps its kind,
    whatever events follow: in the state a run reaches from a state with a
    tree, every pointer into the earlier tree addresses an object of the
    same [json_type]. *)
Theorem yajl_run_kinds_stable (evs : list event) (s : yajl_status) (st st' : json_data_state)
    (r c : json_data) (p : ptr) :
  yajl_run evs st = Ok (s, st') → root st = Some r → deref p r = Some c →
  ∃ r' c', root st' = Some r' ∧ same_kinds r r' ∧ deref p r' = Some c' ∧ type c' = type c.
Proof.
  intros Hrun Hr Hp. destruct (yajl_run_same_kinds _ _ _ _ Hrun r Hr) as (r' & Hr' & Hk).
  destruct (Hk p c Hp) as (c' & ? & ?). by exists r', c'.
Qed.

(** The array [[[]]] with its inner array open, then [2, {]. *)
Lemma yajl_run_kinds_stable_witness :
  ∃ r' c', root (mk_state [[Idx 0; Idx 1]; [Idx 0]; []] ""
                   (Some (JArray [JArray [JInteger 2; JMap []]]))) = Some r' ∧
           same_kinds (JArray [JArray []]) r' ∧
           deref [Idx 0] r' = Some c' ∧ type c' = type (JArray []).
Proof.
  apply (yajl_run_kinds_stable [yajl_integer 2; yajl_start_map 0] yajl_status_ok
           (mk_state [[Idx 0]; []] "" (Some (JArray [JArray []])))
           (mk_state [[Idx 0; Idx 1]; [Idx 0]; []] "" (Some (JArray [JArray [JInteger 2; JMap []]])))
           (JArray [JArray []]) (JArray []) [Idx 0]); reflexivity.
Defined.


