(* ===== verification/Equiv.v ===== *)
(** * Equiv: values up to the order of the members of objects

    Two values are equivalent, [d1 ≡ d2], when every pointer reads the
    same through both: the same scalar, or a container of the same kind and
    size.  A pointer selects a member by its key, so the order in which an
    object lists its members is not observed; for objects with pairwise
    distinct keys, equivalent objects have the same keys
    ([json_equiv_keys]) and equivalent values under each.

    The equivalence has the structure one expects ([json_equiv_JArray],
    [json_equiv_JMap]) and is decided, on values with distinct keys, by the
    comparison [json_equivb].

    [reorder d] is [d] with the members of every object in the order its
    [std::unordered_map] iterates: the value whose text, read from left to
    right, is what [generate_json] writes for [d].  It is equivalent to
    [d] ([reorder_equiv]), equal to it when maps iterate in insertion
    order ([reorder_insertion_order]), and an involution when they iterate
    from their newest entry ([reorder_newest_first]). *)

From Stdlib Require Import ZArith Lia.
From stdpp Require Import base tactics option list strings.
From S2P Require Import Prelude Containers Value Pointer Builder Parser Invariant.

#[local] Open Scope Z_scope.

(** What a pointer reads, without the members and elements below. *)
Inductive label : Set :=
| LNull
| LBoolean (b : bool)
| LInteger (i : Z)
| LReal (r : Z)
| LString (s : string)
| LMap (size : nat)
| LArray (size : nat).

#[export] Instance label_eq_dec : EqDecision label.
Proof. solve_decision. Defined.

Definition label_of (d : json_data) : label :=
  match d with
  | JNull => LNull
  | JBoolean b => LBoolean b
  | JInteger i => LInteger i
  | JReal r => LReal r
  | JString s => LString s
  | JMap m => LMap (length m)
  | JArray l => LArray (length l)
  end.

(** What [p] reads in [d]; [None] when it addresses nothing. *)
Definition observe (d : json_data) (p : ptr) : option label := label_of <$> deref p d.

Definition json_equiv (d1 d2 : json_data) : Prop := ∀ p, observe d1 p = observe d2 p.

#[export] Instance json_data_equiv : Equiv json_data := json_equiv.

Section reorder.
Context `{Ord : MapOrder}.

(** [d] with the members of every object in iteration order. *)
Fixpoint reorder (d : json_data) : json_data :=
  match d with
  | JMap m => JMap (map_iterate (prod_map id reorder <$> m))
  | JArray l => JArray (reorder <$> l)
  | _ => d
  end.

End reorder.

(** ** The equivalence *)

Section json_equiv.
Implicit Types (d c : json_data) (p : ptr) (s : step) (m : list (string * json_data)).

#[export] Instance json_equiv_equivalence : Equivalence (≡@{json_data}).
Proof.
  split.
  - by intros d p.
  - intros d1 d2 H p. by rewrite (H p).
  - intros d1 d2 d3 H1 H2 p. by rewrite (H1 p), (H2 p).
Qed.

Lemma observe_cons d s p : observe d (s :: p) = child s d ≫= λ c, observe c p.
Proof. unfold observe. simpl. by destruct (child s d). Qed.

Lemma json_equiv_label d1 d2 : d1 ≡ d2 → label_of d1 = label_of d2.
Proof. intros H. by injection (H []). Qed.

#[export] Instance type_proper : Proper ((≡) ==> (=)) type.
Proof. intros d1 d2 H%json_equiv_label. by destruct d1, d2. Qed.

(** Equivalent values have equivalent children. *)
#[export] Instance child_proper s : Proper ((≡) ==> (≡)) (child s).
Proof.
  intros d1 d2 H. pose proof (λ p, H (s :: p)) as Hs. setoid_rewrite observe_cons in Hs.
  destruct (child s d1) as [c1|], (child s d2) as [c2|]; simpl in Hs.
  - constructor. exact Hs.
  - by specialize (Hs []).
  - by specialize (Hs []).
  - constructor.
Qed.

#[export] Instance deref_proper p : Proper ((≡) ==> (≡)) (deref p).
Proof.
  induction p as [|s p IH]; intros d1 d2 H; simpl; [by constructor|].
  destruct (child_proper s _ _ H) as [c1 c2 Hc|]; simpl; [by apply IH | constructor].
Qed.

(** Objects with distinct keys that are equivalent have the same keys. *)
Lemma json_equiv_keys m1 m2 :
  map_ok m1 → map_ok m2 → JMap m1 ≡ JMap m2 → map_keys m1 ≡ₚ map_keys m2.
Proof.
  intros Hok1 Hok2 H. apply NoDup_Permutation; [done..|]. intros k.
  rewrite <- !map_at_is_Some. pose proof (child_proper (Key k) _ _ H) as Hk. simpl in Hk.
  split; intros [x Hx]; rewrite Hx in Hk; by inversion Hk.
Qed.

End json_equiv.

(** ** [reorder] *)

Section reorder_lemmas.
Context `{Ord : MapOrder}.
Implicit Types (d c : json_data) (p : ptr) (s : step) (m : list (string * json_data)).

Lemma reorder_JMap m : reorder (JMap m) = JMap (prod_map id reorder <$> map_iterate m).
Proof. simpl. by rewrite map_iterate_fmap. Qed.

Lemma child_reorder s d : child s (reorder d) = reorder <$> child s d.
Proof.
  destruct s as [i|k], d as [| | | | |m|l]; try done.
  - apply list_lookup_fmap.
  - rewrite reorder_JMap. simpl. by rewrite map_at_fmap, map_at_iterate.
Qed.

Lemma deref_reorder p d : deref p (reorder d) = reorder <$> deref p d.
Proof.
  revert d. induction p as [|s p IH]; intros d; simpl; [done|].
  rewrite child_reorder. destruct (child s d); simpl; [apply IH | done].
Qed.

Lemma label_of_reorder d : keys_unique d = true → label_of (reorder d) = label_of d.
Proof.
  destruct d as [| | | | |m|l]; try done.
  - intros [Hok _]%keys_unique_JMap. rewrite reorder_JMap. simpl.
    by rewrite length_fmap, map_iterate_length.
  - intros _. simpl. by rewrite length_fmap.
Qed.

Lemma keys_unique_reorder d : keys_unique d = true → keys_unique (reorder d) = true.
Proof.
  induction d as [| | | | |m IH|l IH] using json_data_ind; try done.
  - rewrite reorder_JMap, !keys_unique_JMap. intros [Hok Hm]. split.
    + unfold map_ok. rewrite map_keys_fmap. by apply map_iterate_ok.
    + apply Forall_fmap, Forall_forall. intros [k x] Hx%map_iterate_elem. simpl.
      rewrite Forall_forall in IH, Hm. by apply (IH _ Hx), (Hm _ Hx).
  - simpl reorder. rewrite !keys_unique_JArray. intros Hl.
    apply Forall_fmap. exact (Forall_mp _ _ l IH Hl).
Qed.

End reorder_lemmas.

(** For a value whose objects have pairwise distinct keys, listing the
    members of every object in the order its map iterates changes nothing a
    pointer can read, whatever the iteration order. *)
Lemma reorder_equiv `{Ord : MapOrder} (d : json_data) :
  keys_unique d = true → reorder d ≡ d.
Proof.
  intros Hd p. unfold observe. rewrite deref_reorder.
  destruct_ok (deref p d) as c eqn:Ec. f_equal.
  apply label_of_reorder. exact (deref_hereditary (λ d, keys_unique d = true) p d c Ec Hd).
Qed.

(** When maps iterate in insertion order, a value whose objects have
    pairwise distinct keys is left as it is. *)
Lemma reorder_insertion_order (d : json_data) :
  keys_unique d = true → reorder (Ord := insertion_order) d = d.
Proof.
  induction d as [| | | | |m IH|l IH] using json_data_ind; try done.
  - rewrite reorder_JMap. intros [Hok Hm]%keys_unique_JMap. f_equal.
    rewrite (map_iterate_insertion_order m Hok).
    pose proof (Forall_mp _ _ m IH Hm) as H. clear IH Hm Hok.
    induction H as [|[k x] m Hx _ IHm]; csimpl; [done|]. simpl in Hx. by rewrite Hx, IHm.
  - simpl. intros Hl%keys_unique_JArray. f_equal.
    pose proof (Forall_mp _ _ l IH Hl) as H. clear IH Hl.
    induction H as [|x l Hx _ IHl]; csimpl; [done|]. by rewrite Hx, IHl.
Qed.

(** When maps iterate from their newest entry, listing the members in
    iteration order is an involution: the second listing restores the
    first order. *)
Lemma reorder_newest_first (d : json_data) :
  keys_unique d = true →
  reorder (Ord := newest_first) (reorder (Ord := newest_first) d) = d.
Proof.
  induction d as [| | | | |m IH|l IH] using json_data_ind; try done.
  - intros [Hok Hm]%keys_unique_JMap. rewrite !reorder_JMap.
    rewrite (map_iterate_newest_first m Hok), map_iterate_newest_first.
    2: { unfold map_ok. rewrite map_keys_fmap. by apply map_ok_reverse. }
    rewrite <- fmap_reverse, reverse_involutive, <- list_fmap_compose. f_equal.
    pose proof (Forall_mp _ _ m IH Hm) as H. clear IH Hm Hok.
    induction H as [|[k x] m Hx _ IHm]; csimpl; [done|]. simpl in Hx. by rewrite Hx, IHm.
  - simpl. intros Hl%keys_unique_JArray. f_equal. rewrite <- list_fmap_compose.
    pose proof (Forall_mp _ _ l IH Hl) as H. clear IH Hl.
    induction H as [|x l Hx _ IHl]; csimpl; [done|]. simpl in Hx. by rewrite Hx, IHl.
Qed.

(** ** The structure of the equivalence *)

Section structure.
Implicit Types (d c : json_data) (l : list json_data) (m : list (string * json_data)).

(** Equivalent is: the same label, and equivalent children at every
    step. *)
Lemma json_equiv_children d1 d2 :
  d1 ≡ d2 ↔ label_of d1 = label_of d2 ∧ ∀ s, child s d1 ≡ child s d2.
Proof.
  split.
  - intros H. split; [by apply json_equiv_label | intros s; by apply child_proper].
  - intros [Hl Hc] [|s p]; [unfold observe; simpl; by rewrite Hl|].
    rewrite !observe_cons. destruct (Hc s) as [c1 c2 H|]; [apply H | done].
Qed.

(** Arrays are equivalent when their elements are, one by one. *)
Lemma json_equiv_JArray l1 l2 : JArray l1 ≡ JArray l2 ↔ Forall2 (≡) l1 l2.
Proof.
  rewrite json_equiv_children, Forall2_lookup. split.
  - intros [_ Hc] i. apply (Hc (Idx i)).
  - intros H. split; [|intros [i|k]; [apply H | constructor]].
    simpl. f_equal. by apply (Forall2_length (≡)), Forall2_lookup.
Qed.

(** Objects are equivalent when they have as many members and equivalent
    values under every key. *)
Lemma json_equiv_JMap m1 m2 :
  JMap m1 ≡ JMap m2 ↔ length m1 = length m2 ∧ ∀ k, map_at k m1 ≡ map_at k m2.
Proof.
  rewrite json_equiv_children. split.
  - intros [[= Hl] Hc]. split; [done | intros k; apply (Hc (Key k))].
  - intros [Hl H]. split; [simpl; by rewrite Hl | intros [i|k]; [constructor | apply H]].
Qed.

(** A scalar is equivalent to itself only. *)
Lemma json_equiv_scalar d1 d2 :
  match d1 with JMap _ | JArray _ => False | _ => True end →
  label_of d1 = label_of d2 → d1 = d2.
Proof. by destruct d1, d2; intros ? [=]; subst. Qed.

End structure.

(** ** Deciding the equivalence *)

(** The comparison of two values member by key and element by position. *)
Fixpoint json_equivb (d1 d2 : json_data) : bool :=
  match d1, d2 with
  | JMap m1, JMap m2 =>
      bool_decide (length m1 = length m2) &&
      forallb (λ kv, from_option (json_equivb kv.2) false (map_at kv.1 m2)) m1
  | JArray l1, JArray l2 =>
      (fix go l1 l2 :=
         match l1, l2 with
         | [], [] => true
         | x :: l1', y :: l2' => json_equivb x y && go l1' l2'
         | _, _ => false
         end) l1 l2
  | _, _ => bool_decide (label_of d1 = label_of d2)
  end.

Section json_equivb.
Implicit Types (d c : json_data) (l : list json_data) (m : list (string * json_data)).

(** [json_equivb] decides equivalence against [d2]. *)
Definition decides d1 : Prop :=
  ∀ d2, keys_unique d1 = true → keys_unique d2 = true → json_equivb d1 d2 = true ↔ d1 ≡ d2.

Lemma json_equivb_JArray l1 l2 :
  json_equivb (JArray l1) (JArray l2) = true ↔ Forall2 (λ x y, json_equivb x y = true) l1 l2.
Proof.
  revert l2. induction l1 as [|x l1 IH]; intros [|y l2];
    try (split; [done | by inversion 1]).
  change (json_equivb x y && json_equivb (JArray l1) (JArray l2) = true ↔
          Forall2 (λ x y, json_equivb x y = true) (x :: l1) (y :: l2)).
  by rewrite andb_true_iff, IH, Forall2_cons.
Qed.

(** Maps of the same size without repeated keys, one of which has every
    key of the other, have the same keys. *)
Lemma map_at_None_same_keys k m1 m2 :
  map_ok m1 → length m1 = length m2 →
  (∀ k', k' ∈ map_keys m1 → k' ∈ map_keys m2) → map_at k m1 = None → map_at k m2 = None.
Proof.
  rewrite !map_at_None. intros Hok Hl Hsub Hk Hk2. apply Hk.
  assert (map_keys m1 ≡ₚ map_keys m2) as ->; [|done].
  apply submseteq_length_Permutation; [by apply NoDup_submseteq|].
  unfold map_keys. by rewrite !length_fmap, Hl.
Qed.

Lemma decides_scalar d : match d with JMap _ | JArray _ => False | _ => True end → decides d.
Proof.
  intros Hd d2 _ _. transitivity (label_of d = label_of d2).
  - destruct d; try done; apply bool_decide_eq_true.
  - split; [by intros ->%json_equiv_scalar | apply json_equiv_label].
Qed.

Lemma decides_JArray l : Forall decides l → decides (JArray l).
Proof.
  intros IH [| | | | |m2|l2] Hl%keys_unique_JArray H2;
    try (split; [done | by intros ?%json_equiv_label]).
  apply keys_unique_JArray in H2. rewrite json_equivb_JArray, json_equiv_JArray.
  revert l2 H2. induction IH as [|x l Hx _ IHl]; intros [|y l2] H2;
    try (split; by inversion 1).
  apply Forall_cons in Hl as [? ?], H2 as [? ?]. rewrite !Forall2_cons, IHl, (Hx y) by done.
  done.
Qed.

Lemma decides_JMap m : Forall (λ kv, decides kv.2) m → decides (JMap m).
Proof.
  intros IH [| | | | |m2|l2] [Hok Hm]%keys_unique_JMap H2;
    try (split; [done | by intros ?%json_equiv_label]).
  apply keys_unique_JMap in H2 as [Hok2 Hm2]. rewrite Forall_forall in IH, Hm, Hm2.
  simpl. rewrite andb_true_iff, bool_decide_eq_true, forallb_Forall, Forall_forall.
  rewrite json_equiv_JMap. split; intros [Hl H]; (split; [done|]).
  - intros k. destruct (map_at k m) as [v|] eqn:Ek.
    + specialize (H _ (map_at_elem _ _ _ Ek)). simpl in H.
      destruct_ok (map_at k m2) as x eqn:Ek2. constructor.
      by apply (IH _ (map_at_elem _ _ _ Ek)), H;
        [apply (Hm _ (map_at_elem _ _ _ Ek)) | apply (Hm2 _ (map_at_elem _ _ _ Ek2))].
    + rewrite (map_at_None_same_keys k m m2); [done..| |done].
      intros k' [v Hv]%map_at_is_Some. apply map_at_is_Some.
      specialize (H _ (map_at_elem _ _ _ Hv)). simpl in H. by destruct (map_at k' m2).
  - intros [k v] Hkv. specialize (H k). rewrite (map_at_elem_ok k v m) in H by done.
    simpl. destruct (map_at k m2) as [x|] eqn:Ek2; [|by inversion H]. simpl.
    apply (IH _ Hkv); [apply (Hm _ Hkv) | apply (Hm2 _ (map_at_elem _ _ _ Ek2)) | by inversion H].
Qed.

Lemma json_equivb_decides d : decides d.
Proof.
  induction d using json_data_ind;
    [by apply decides_scalar.. | by apply decides_JMap | by apply decides_JArray].
Qed.

End json_equivb.

(** ** The theorem of the component *)

(** On values whose objects have pairwise distinct keys, comparing
    two values member by key and element by position, which
    [json_equivb] computes, decides whether every pointer reads the same
    in both. *)
Theorem json_equivb_spec (d1 d2 : json_data) :
  keys_unique d1 = true → keys_unique d2 = true → json_equivb d1 d2 = true ↔ d1 ≡ d2.
Proof. apply json_equivb_decides. Qed.

(** [{"a":1,"b":[true]}] and [{"b":[true],"a":1}]. *)
Lemma json_equivb_spec_witness :
  json_equivb (JMap [("a", JInteger 1); ("b", JArray [JBoolean true])])
    (JMap [("b", JArray [JBoolean true]); ("a", JInteger 1)]) = true ↔
  JMap [("a", JInteger 1); ("b", JArray [JBoolean true])] ≡
  JMap [("b", JArray [JBoolean true]); ("a", JInteger 1)].
Proof.
  apply (json_equivb_spec (JMap [("a", JInteger 1); ("b", JArray [JBoolean true])])
           (JMap [("b", JArray [JBoolean true]); ("a", JInteger 1)])); reflexivity.
Defined.
