(* ===== verification/Generator.v ===== *)
(** * Generator: [generate_json] over the interface of the yajl generator

    The yajl generator is not part of the sources.  [YajlGen G] is the
    interface [generate_json] uses: one operation per [yajl_gen_*] function
    it calls, each from a generator state to a status and the next state.
    [generate_json] is the function of the source: a call per node, an
    early return at the first status that is not [yajl_gen_status_ok], the
    members of a map in the order the map iterates ([MapOrder]).

    Two instances.  [trace_gen] records the calls and never fails: it is
    what [generate_json] asks the generator to write.  [limited_gen] accepts
    a given number of calls and fails every later one: it exercises every
    early return. *)

From Stdlib Require Import ZArith Lia.
From stdpp Require Import base tactics option list strings.
From S2P Require Import Prelude Containers Value.

#[local] Open Scope Z_scope.

(** The status codes of [yajl_gen.h]. *)
Inductive yajl_gen_status : Set :=
| yajl_gen_status_ok
| yajl_gen_keys_must_be_strings
| yajl_max_depth_exceeded
| yajl_gen_in_error_state
| yajl_gen_generation_complete
| yajl_gen_invalid_number
| yajl_gen_no_buf
| yajl_gen_invalid_string.

#[export] Instance yajl_gen_status_eq_dec : EqDecision yajl_gen_status.
Proof. solve_decision. Defined.

(** A call on the generator: from its state to a status and its next
    state. *)
Abbreviation gen_action G := (G → yajl_gen_status * G).

(** The functions of the generator that [generate_json] calls. *)
Class YajlGen (G : Type) : Type := {
  yajl_gen_null : gen_action G;
  yajl_gen_bool : Z → gen_action G;
  yajl_gen_integer : Z → gen_action G;
  yajl_gen_double : Z → gen_action G;
  yajl_gen_string : string → gen_action G;
  yajl_gen_map_open : gen_action G;
  yajl_gen_map_close : gen_action G;
  yajl_gen_array_open : gen_action G;
  yajl_gen_array_close : gen_action G;
}.

Section generate_json.
Context `{Ord : MapOrder} {G : Type} `{Gen : YajlGen G}.

(** [status = a; if (status != yajl_gen_status_ok) return status; b] *)
Definition and_then (a b : gen_action G) : gen_action G :=
  λ gen, let '(status, gen') := a gen in
         if decide (status = yajl_gen_status_ok) then b gen' else (status, gen').

(** A [for] loop whose body returns from the function at a status that is
    not [yajl_gen_status_ok]. *)
Fixpoint for_each (body : list (gen_action G)) : gen_action G :=
  match body with
  | [] => λ gen, (yajl_gen_status_ok, gen)
  | a :: rest => and_then a (for_each rest)
  end.

(** The body of the loop over a map: the key, then the value. *)
Definition map_item (item : string * gen_action G) : gen_action G :=
  and_then (yajl_gen_string item.1) item.2.

(** [generate_json(gen, root)] *)
Fixpoint generate_json (root : json_data) : gen_action G :=
  match root with
  | JNull => yajl_gen_null
  | JBoolean b => yajl_gen_bool (int_of_bool b)
  | JInteger i => yajl_gen_integer i
  | JReal r => yajl_gen_double r
  | JString s => yajl_gen_string s
  | JMap m =>
      and_then yajl_gen_map_open
        (and_then
           (for_each (map_item <$> map_iterate (prod_map id generate_json <$> m)))
           yajl_gen_map_close)
  | JArray l =>
      and_then yajl_gen_array_open
        (and_then (for_each (generate_json <$> l)) yajl_gen_array_close)
  end.

End generate_json.

(** ** The calls *)

Inductive gen_call : Set :=
| gen_null
| gen_bool (b : Z)
| gen_integer (i : Z)
| gen_double (r : Z)
| gen_string (s : string)
| gen_map_open
| gen_map_close
| gen_array_open
| gen_array_close.

#[export] Instance gen_call_eq_dec : EqDecision gen_call.
Proof. solve_decision. Defined.

(** The generator that records every call and accepts it. *)
Definition record (c : gen_call) : gen_action (list gen_call) :=
  λ t, (yajl_gen_status_ok, t ++ [c]).

Definition trace_gen : YajlGen (list gen_call) := {|
  yajl_gen_null := record gen_null;
  yajl_gen_bool b := record (gen_bool b);
  yajl_gen_integer i := record (gen_integer i);
  yajl_gen_double r := record (gen_double r);
  yajl_gen_string s := record (gen_string s);
  yajl_gen_map_open := record gen_map_open;
  yajl_gen_map_close := record gen_map_close;
  yajl_gen_array_open := record gen_array_open;
  yajl_gen_array_close := record gen_array_close;
|}.

(** The generator that records every call, accepts [n] of them and answers
    every later one with [yajl_gen_in_error_state]. *)
Definition limited (c : gen_call) : gen_action (nat * list gen_call) :=
  λ '(n, t), match n with
             | O => (yajl_gen_in_error_state, (O, t ++ [c]))
             | S n' => (yajl_gen_status_ok, (n', t ++ [c]))
             end.

Definition limited_gen : YajlGen (nat * list gen_call) := {|
  yajl_gen_null := limited gen_null;
  yajl_gen_bool b := limited (gen_bool b);
  yajl_gen_integer i := limited (gen_integer i);
  yajl_gen_double r := limited (gen_double r);
  yajl_gen_string s := limited (gen_string s);
  yajl_gen_map_open := limited gen_map_open;
  yajl_gen_map_close := limited gen_map_close;
  yajl_gen_array_open := limited gen_array_open;
  yajl_gen_array_close := limited gen_array_close;
|}.

(** The calls [generate_json] makes for [d] on a generator that accepts
    them all. *)
Section calls_of.
Context `{Ord : MapOrder}.

Fixpoint calls_of (d : json_data) : list gen_call :=
  match d with
  | JNull => [gen_null]
  | JBoolean b => [gen_bool (int_of_bool b)]
  | JInteger i => [gen_integer i]
  | JReal r => [gen_double r]
  | JString s => [gen_string s]
  | JMap m =>
      gen_map_open
        :: concat ((λ item, gen_string item.1 :: item.2)
                     <$> map_iterate (prod_map id calls_of <$> m))
        ++ [gen_map_close]
  | JArray l => gen_array_open :: concat (calls_of <$> l) ++ [gen_array_close]
  end.

End calls_of.

(** The function of the generator a call stands for. *)
Definition call `{Gen : YajlGen G} (c : gen_call) : gen_action G :=
  match c with
  | gen_null => yajl_gen_null
  | gen_bool b => yajl_gen_bool b
  | gen_integer i => yajl_gen_integer i
  | gen_double r => yajl_gen_double r
  | gen_string s => yajl_gen_string s
  | gen_map_open => yajl_gen_map_open
  | gen_map_close => yajl_gen_map_close
  | gen_array_open => yajl_gen_array_open
  | gen_array_close => yajl_gen_array_close
  end.

(** ** Actions up to extensional equality *)

Definition gen_eq {G} : relation (gen_action G) := pointwise_relation G eq.

Infix "≡ₐ" := gen_eq (at level 70).

(** The action that does nothing and succeeds. *)
Definition skip {G} : gen_action G := λ gen, (yajl_gen_status_ok, gen).

Section actions.
Context {G : Type}.
Implicit Types (a b c : gen_action G) (body : list (gen_action G)).

#[export] Instance gen_eq_equivalence : Equivalence (@gen_eq G).
Proof. unfold gen_eq. apply _. Qed.

#[export] Instance and_then_proper : Proper (gen_eq ==> gen_eq ==> gen_eq) (@and_then G).
Proof.
  intros a a' Ha b b' Hb gen. unfold and_then. rewrite (Ha gen).
  destruct (a' gen) as [status gen']. case_decide; [apply Hb | done].
Qed.

#[export] Instance for_each_proper : Proper (Forall2 gen_eq ==> gen_eq) (@for_each G).
Proof. induction 1 as [|a a' body body' Ha _ IH]; simpl; [done|]. by rewrite Ha, IH. Qed.

Lemma and_then_assoc a b c : and_then (and_then a b) c ≡ₐ and_then a (and_then b c).
Proof.
  intros gen. unfold and_then. destruct (a gen) as [status gen'].
  case_decide; [done|]. by rewrite decide_False.
Qed.

Lemma and_then_skip_l a : and_then skip a ≡ₐ a.
Proof. done. Qed.

Lemma and_then_skip_r a : and_then a skip ≡ₐ a.
Proof.
  intros gen. unfold and_then, skip. destruct (a gen) as [status gen'].
  case_decide; by subst.
Qed.

Lemma for_each_app body1 body2 :
  for_each (body1 ++ body2) ≡ₐ and_then (for_each body1) (for_each body2).
Proof.
  induction body1 as [|a body1 IH]; simpl; [done|]. by rewrite IH, and_then_assoc.
Qed.

Lemma for_each_singleton a : for_each [a] ≡ₐ a.
Proof. apply and_then_skip_r. Qed.

Lemma for_each_concat (bodies : list (list (gen_action G))) :
  for_each (concat bodies) ≡ₐ for_each (for_each <$> bodies).
Proof.
  induction bodies as [|body bodies IH]; csimpl; [done|]. by rewrite for_each_app, IH.
Qed.

End actions.

(** ** [generate_json] is its calls, in order, up to the first failure *)

Section calls.
Context `{Ord : MapOrder} {G : Type} `{Gen : YajlGen G}.
Implicit Types (d : json_data) (l : list json_data) (m items : list (string * json_data)).

(** [d] is generated by making its calls one after the other. *)
Definition by_calls d : Prop := generate_json d ≡ₐ for_each (call <$> calls_of d).

Lemma for_each_elements l :
  Forall by_calls l →
  for_each (generate_json <$> l) ≡ₐ for_each (call <$> concat (calls_of <$> l)).
Proof.
  induction 1 as [|d l Hd _ IH]; csimpl; [done|]. unfold by_calls in Hd.
  by rewrite fmap_app, for_each_app, <- IH, <- Hd.
Qed.

Lemma for_each_items items :
  Forall (λ kv, by_calls kv.2) items →
  for_each (map_item <$> (prod_map id generate_json <$> items)) ≡ₐ
  for_each (call <$> concat ((λ item, gen_string item.1 :: item.2)
                               <$> (prod_map id calls_of <$> items))).
Proof.
  induction 1 as [|[k d] items Hd _ IH]; csimpl; [done|]. unfold by_calls in Hd.
  rewrite fmap_app, for_each_app, <- IH. unfold map_item at 1. simpl.
  by rewrite and_then_assoc, <- Hd.
Qed.

Lemma generate_json_JMap m :
  generate_json (JMap m) =
  and_then yajl_gen_map_open
    (and_then (for_each (map_item <$> (prod_map id generate_json <$> map_iterate m)))
       yajl_gen_map_close).
Proof. simpl. by rewrite map_iterate_fmap. Qed.

Lemma calls_of_JMap m :
  calls_of (JMap m) =
  gen_map_open
    :: concat ((λ item, gen_string item.1 :: item.2)
                 <$> (prod_map id calls_of <$> map_iterate m))
    ++ [gen_map_close].
Proof. simpl. by rewrite map_iterate_fmap. Qed.

Lemma for_each_bracket (c1 c2 : gen_call) (cs : list gen_call) :
  for_each (call <$> c1 :: cs ++ [c2]) ≡ₐ
  and_then (call c1) (and_then (for_each (call <$> cs)) (call c2)).
Proof.
  csimpl. rewrite fmap_app, for_each_app.
  change (call <$> [c2]) with [call (G := G) c2]. by rewrite for_each_singleton.
Qed.

Lemma generate_json_by_calls d : by_calls d.
Proof.
  induction d as [| | | | |m IH|l IH] using json_data_ind;
    unfold by_calls; try (symmetry; apply for_each_singleton).
  - rewrite generate_json_JMap, calls_of_JMap, for_each_bracket, for_each_items; [done|].
    apply Forall_forall. intros [k d] Hkd%map_iterate_elem.
    by apply (Forall_forall (λ kv, by_calls kv.2) m).
  - change (calls_of (JArray l))
      with (gen_array_open :: concat (calls_of <$> l) ++ [gen_array_close]).
    rewrite for_each_bracket, <- for_each_elements; done.
Qed.

(** A loop that has returned with a failure ignores what follows it. *)
Lemma for_each_failed (body1 body2 : list (gen_action G)) gen status gen' :
  for_each body1 gen = (status, gen') → status ≠ yajl_gen_status_ok →
  for_each (body1 ++ body2) gen = (status, gen').
Proof.
  intros Hrun Hstatus. rewrite (for_each_app body1 body2 gen).
  unfold and_then. rewrite Hrun. by rewrite decide_False.
Qed.

End calls.

(** ** The two recording generators *)

Section recording.
Context `{Ord : MapOrder}.
Implicit Types (c : gen_call) (cs t : list gen_call) (n : nat).

Lemma call_trace c : call (Gen := trace_gen) c = record c.
Proof. by destruct c. Qed.

Lemma call_limited c : call (Gen := limited_gen) c = limited c.
Proof. by destruct c. Qed.

Lemma for_each_trace cs t :
  for_each (call (Gen := trace_gen) <$> cs) t = (yajl_gen_status_ok, t ++ cs).
Proof.
  revert t. induction cs as [|c cs IH]; intros t; csimpl; [by rewrite app_nil_r|].
  unfold and_then. rewrite call_trace. simpl. by rewrite IH, <- app_assoc.
Qed.

Lemma for_each_limited cs n t :
  for_each (call (Gen := limited_gen) <$> cs) (n, t) =
  if decide (n < length cs)%nat
  then (yajl_gen_in_error_state, (0%nat, t ++ take (S n) cs))
  else (yajl_gen_status_ok, ((n - length cs)%nat, t ++ cs)).
Proof.
  revert n t. induction cs as [|c cs IH]; intros n t; csimpl.
  { by rewrite Nat.sub_0_r, app_nil_r. }
  unfold and_then. rewrite call_limited. destruct n as [|n]; simpl.
  { by rewrite take_0. }
  rewrite IH. repeat case_decide; try lia; by rewrite <- app_assoc.
Qed.

End recording.

(** ** The theorems of the component *)

Section generate_json_correct.
Context `{Ord : MapOrder}.

(** C5: on any generator, [generate_json] makes the calls of [calls_of] in
    their order, one node after the other and the members of a map in the
    order the map iterates, returns the status of the first call that does
    not answer [yajl_gen_status_ok] without making a further call, and
    returns [yajl_gen_status_ok] when none fails. *)
Theorem generate_json_calls `{Gen : YajlGen G} (d : json_data) (gen : G) :
  generate_json d gen = for_each (call <$> calls_of d) gen.
Proof. apply generate_json_by_calls. Qed.

(** On a generator that accepts every call, [generate_json] returns
    [yajl_gen_status_ok] after making exactly the calls of [calls_of], added
    to those the generator had received before. *)
Lemma generate_json_trace (d : json_data) (t : list gen_call) :
  generate_json (Gen := trace_gen) d t = (yajl_gen_status_ok, t ++ calls_of d).
Proof. by rewrite (generate_json_by_calls d t), for_each_trace. Qed.

(** C19: on a generator that fails from its call number [n] on,
    [generate_json] returns that failure as soon as it meets it: when the
    value needs more than [n] calls the generator has received the first
    [n + 1] of them and no other, and the status is
    [yajl_gen_in_error_state]; otherwise all calls are made and the status
    is [yajl_gen_status_ok]. *)
Theorem generate_json_early_return (d : json_data) (n : nat) (t : list gen_call) :
  generate_json (Gen := limited_gen) d (n, t) =
  if decide (n < length (calls_of d))%nat
  then (yajl_gen_in_error_state, (0%nat, t ++ take (S n) (calls_of d)))
  else (yajl_gen_status_ok, ((n - length (calls_of d))%nat, t ++ calls_of d)).
Proof. by rewrite (generate_json_by_calls d (n, t)), for_each_limited. Qed.

End generate_json_correct.
