(* ===== verification/RoundTrip.v ===== *)
(** * RoundTrip: what is written, read again

    The text between the yajl generator and the yajl parser is modelled by
    its tokens: one token per call [generate_json] makes, the commas,
    colons and white space the generator adds being no tokens.
    [parse_tokens] is the parser of yajl on such a text: a state machine
    over the stack of open containers that delivers an event per token,
    stops at the first token its grammar does not allow, and accepts
    exactly one value.  It assumes of yajl what its documentation promises:
    every literal, number and string is read back as it was written (a
    boolean as 0 or 1), and the first string after the opening of a map or
    after a member is its next key.

    The theorems: serializing a value and building again from the text
    yields the value with its members in iteration order, which is
    equivalent to the value and equal to it when maps iterate in insertion
    order; the same holds of the tree built from any events, repeated keys
    included; the empty array and the empty object are written by two
    calls and read back as themselves. *)

From Stdlib Require Import ZArith Lia.
From stdpp Require Import base tactics option list strings.
From S2P Require Import Prelude Containers Value Pointer Builder Parser Invariant Equiv.
From S2P Require Import Generator.

#[local] Open Scope Z_scope.

(** Where the next token stands in the innermost open container. *)
Inductive position : Set :=
| in_array   (** an element of an array, or its end *)
| at_key     (** a key of a map, or its end *)
| at_value.  (** the value of the last key *)

#[export] Instance position_eq_dec : EqDecision position.
Proof. solve_decision. Defined.

(** The open containers, innermost first; [None] when the value of the
    text is complete. *)
Abbreviation parser_state := (option (list position)).

Definition depth (st : parser_state) : nat := from_option length 0%nat st.

(** The state after a complete value. *)
Definition after_value (st : parser_state) : parser_state :=
  match st with
  | Some (at_value :: ctx) => Some (at_key :: ctx)
  | Some [] => None
  | _ => st
  end.

(** The event of a token that is a scalar. *)
Definition scalar_token (c : gen_call) : option event :=
  match c with
  | gen_null => Some yajl_null
  | gen_bool b => Some (yajl_boolean (int_of_bool (bool_of_int b)))
  | gen_integer i => Some (yajl_integer i)
  | gen_double r => Some (yajl_double r)
  | gen_string s => Some (yajl_string s 0)
  | _ => None
  end.

(** The event the parser delivers for the token [c] and its next state;
    [None] when the grammar does not allow [c] here. *)
Definition parse_token (st : parser_state) (c : gen_call) : option (event * parser_state) :=
  match st with
  | None => None
  | Some (at_key :: ctx) =>
      match c with
      | gen_string s => Some (yajl_map_key s 0, Some (at_value :: ctx))
      | gen_map_close => Some (yajl_end_map, after_value (Some ctx))
      | _ => None
      end
  | Some ctx =>
      match c with
      | gen_map_open => Some (yajl_start_map 0, Some (at_key :: ctx))
      | gen_array_open => Some (yajl_start_array 0, Some (in_array :: ctx))
      | gen_array_close =>
          match ctx with
          | in_array :: ctx' => Some (yajl_end_array, after_value (Some ctx'))
          | _ => None
          end
      | _ => (λ e, (e, after_value st)) <$> scalar_token c
      end
  end.

(** The events delivered for the tokens [cs], and whether the text is
    accepted: no token refused and the value complete at the end. *)
Fixpoint parse_tokens (st : parser_state) (cs : list gen_call) : list event * bool :=
  match cs with
  | [] => ([], bool_decide (st = None))
  | c :: cs' =>
      match parse_token st c with
      | None => ([], false)
      | Some (e, st') => prod_map (cons e) id (parse_tokens st' cs')
      end
  end.

Definition yajl_parse_tokens (cs : list gen_call) : list event * bool :=
  parse_tokens (Some []) cs.

(** The next token is a value, not a key. *)
Definition value_position (ctx : list position) : Prop := head ctx ≠ Some at_key.

(** ** The contract of the parser *)

Section parser_lemmas.
Implicit Types (st : parser_state) (c : gen_call) (cs : list gen_call) (e : event).

Lemma depth_after_value st : depth (after_value st) = depth st.
Proof. by destruct st as [[|[] ctx]|]. Qed.

(** The depth of the parser follows the events it delivers. *)
Lemma parse_token_step st c e st' :
  parse_token st c = Some (e, st') → nesting_step (depth st) e = Some (depth st').
Proof.
  destruct st as [[|[] ctx]|], c; intros; simplify_eq/=; try done;
    by destruct ctx as [|[] ?].
Qed.

(** No end event is delivered without its begin. *)
Lemma parse_tokens_matched st cs : is_Some (nesting (depth st) (parse_tokens st cs).1).
Proof.
  revert st. induction cs as [|c cs IH]; intros st; simpl; [done|].
  destruct_ok (parse_token st c) as [e st'] eqn:E.
  rewrite (parse_token_step _ _ _ _ E). simpl.
  specialize (IH st'). by destruct (parse_tokens st' cs).
Qed.

(** An accepted text begins with a value. *)
Lemma parse_tokens_accepted cs evs :
  yajl_parse_tokens cs = (evs, true) →
  ∃ e evs', evs = e :: evs' ∧ (is_Some (scalar_of e) ∨ is_Some (container_of e)).
Proof.
  unfold yajl_parse_tokens. destruct cs as [|c cs]; simpl; [done|].
  destruct c; simpl; try done; destruct (parse_tokens _ cs) as [evs' ok];
    intros [= <- _]; eexists _, _; (split; [done|]); simpl; eauto.
Qed.

End parser_lemmas.

(** ** The tokens of a value *)

Section tokens_of_value.
Context `{Ord : MapOrder}.
Implicit Types (d : json_data) (ctx : list position) (cs : list gen_call).
Implicit Types (l : list json_data) (items : list (string * json_data)).

(** The calls of [d], at a value position, are read as the events of
    [reorder d]. *)
Definition parses d : Prop :=
  ∀ ctx cs, value_position ctx →
    parse_tokens (Some ctx) (calls_of d ++ cs) =
    prod_map (app (erase <$> events_of (reorder d))) id
      (parse_tokens (after_value (Some ctx)) cs).

Lemma prod_map_app_id (evs1 evs2 : list event) (x : list event * bool) :
  prod_map (app evs1) id (prod_map (app evs2) id x) = prod_map (app (evs1 ++ evs2)) id x.
Proof. destruct x. simpl. by rewrite (assoc_L (++)). Qed.

Lemma parses_scalar d :
  match d with JMap _ | JArray _ => False | _ => True end → parses d.
Proof.
  intros Hd ctx cs. unfold value_position.
  destruct d as [|b| | | | |], ctx as [|[] ctx]; try done; intros _; simpl;
    rewrite ?bool_of_int_of_bool; by destruct (parse_tokens _ cs).
Qed.

Lemma parse_elements l ctx cs :
  Forall parses l →
  parse_tokens (Some (in_array :: ctx)) (concat (calls_of <$> l) ++ cs) =
  prod_map (app (erase <$> element_events (reorder <$> l))) id
    (parse_tokens (Some (in_array :: ctx)) cs).
Proof.
  induction 1 as [|d l Hd _ IH]; csimpl; [by destruct (parse_tokens _ cs)|].
  rewrite <- app_assoc, Hd by done. simpl after_value.
  by rewrite IH, prod_map_app_id, fmap_app.
Qed.

Lemma parse_items items ctx cs :
  Forall (λ kv, parses kv.2) items →
  parse_tokens (Some (at_key :: ctx))
    (concat ((λ item, gen_string item.1 :: item.2) <$> (prod_map id calls_of <$> items)) ++ cs) =
  prod_map (app (erase <$> member_events (prod_map id reorder <$> items))) id
    (parse_tokens (Some (at_key :: ctx)) cs).
Proof.
  induction 1 as [|[k d] items Hd _ IH]; csimpl; [by destruct (parse_tokens _ cs)|].
  rewrite <- app_assoc, Hd by done. simpl after_value.
  rewrite IH, prod_map_app_id, fmap_app. by destruct (parse_tokens _ cs).
Qed.

Lemma parses_all d : parses d.
Proof.
  induction d as [| | | | |m IH|l IH] using json_data_ind; try (by apply parses_scalar).
  - intros ctx cs Hctx. rewrite calls_of_JMap, reorder_JMap, events_of_JMap.
    assert (Forall (λ kv, parses kv.2) (map_iterate m)) as Hm.
    { apply Forall_forall. intros [k d] Hkd%map_iterate_elem.
      by apply (Forall_forall (λ kv, parses kv.2) m). }
    transitivity (prod_map (cons (yajl_start_map 0)) id
      (parse_tokens (Some (at_key :: ctx))
         (concat ((λ item, gen_string item.1 :: item.2)
                    <$> (prod_map id calls_of <$> map_iterate m)) ++ gen_map_close :: cs))).
    { rewrite <- app_comm_cons, <- app_assoc. by destruct ctx as [|[] ctx]. }
    rewrite parse_items by done. simpl.
    destruct (parse_tokens _ cs). simpl. by rewrite fmap_app, <- app_assoc.
  - intros ctx cs Hctx. simpl reorder. rewrite events_of_JArray.
    transitivity (prod_map (cons (yajl_start_array 0)) id
      (parse_tokens (Some (in_array :: ctx))
         (concat (calls_of <$> l) ++ gen_array_close :: cs))).
    { simpl calls_of. rewrite <- app_comm_cons, <- app_assoc. by destruct ctx as [|[] ctx]. }
    rewrite parse_elements by done. simpl.
    destruct (parse_tokens _ cs). simpl. by rewrite fmap_app, <- app_assoc.
Qed.

(** The text written for [d] is accepted, with the events of [reorder d]. *)
Lemma yajl_parse_tokens_calls_of d :
  yajl_parse_tokens (calls_of d) = (erase <$> events_of (reorder d), true).
Proof.
  unfold yajl_parse_tokens. rewrite <- (app_nil_r (calls_of d)), parses_all by done.
  simpl. by rewrite app_nil_r.
Qed.

(** What is built from the events of [reorder d]. *)
Lemma yajl_run_reorder d :
  keys_unique d = true →
  yajl_run (erase <$> events_of (reorder d)) initial_state =
  Ok (yajl_status_ok, mk_state [] (key_after (reorder d) "") (Some (reorder d))).
Proof.
  intros Hd%keys_unique_reorder.
  by rewrite yajl_run_erase, <- (app_nil_r (events_of _)), yajl_run_document.
Qed.

End tokens_of_value.

(** ** The theorems of the component *)

(** C6: serializing a value whose objects have pairwise distinct keys on a
    generator that accepts every call succeeds; the parser accepts the
    text written, and building from its events succeeds and yields the
    value with the members of every object in the order its map iterates:
    a value in which every pointer reads what it reads in the original,
    whatever that order is. *)
Theorem generate_json_round_trip `{Ord : MapOrder} (d : json_data) :
  keys_unique d = true →
  ∃ t evs, generate_json (Gen := trace_gen) d [] = (yajl_gen_status_ok, t) ∧
           yajl_parse_tokens t = (evs, true) ∧
           yajl_run evs initial_state =
           Ok (yajl_status_ok, mk_state [] (key_after (reorder d) "") (Some (reorder d))) ∧
           reorder d ≡ d.
Proof.
  intros Hd. exists (calls_of d), (erase <$> events_of (reorder d)). split_and!.
  - by rewrite generate_json_trace.
  - apply yajl_parse_tokens_calls_of.
  - by apply yajl_run_reorder.
  - by apply reorder_equiv.
Qed.

Lemma generate_json_round_trip_witness :
  ∃ t evs,
    generate_json (Ord := newest_first) (Gen := trace_gen)
      (JMap [("a", JInteger 1); ("b", JArray [JBoolean true; JNull; JString "x"])]) [] =
    (yajl_gen_status_ok, t) ∧
    yajl_parse_tokens t = (evs, true) ∧
    yajl_run evs initial_state =
    Ok (yajl_status_ok,
        mk_state []
          (key_after
             (reorder (Ord := newest_first)
                (JMap [("a", JInteger 1); ("b", JArray [JBoolean true; JNull; JString "x"])]))
             "")
          (Some (reorder (Ord := newest_first)
                   (JMap [("a", JInteger 1);
                          ("b", JArray [JBoolean true; JNull; JString "x"])])))) ∧
    reorder (Ord := newest_first)
      (JMap [("a", JInteger 1); ("b", JArray [JBoolean true; JNull; JString "x"])]) ≡
    JMap [("a", JInteger 1); ("b", JArray [JBoolean true; JNull; JString "x"])].
Proof.
  apply (generate_json_round_trip (Ord := newest_first)
           (JMap [("a", JInteger 1); ("b", JArray [JBoolean true; JNull; JString "x"])])).
  reflexivity.
Defined.

(** C28: whatever events were delivered, repeated keys included, the tree
    a complete run has built survives serializing and building again: the
    text written for it is accepted, the second build succeeds, and its
    tree is the first with its members in iteration order, equivalent to
    the first. *)
Theorem yajl_run_round_trip `{Ord : MapOrder} (evs : list event) (st : json_data_state)
    (r : json_data) :
  yajl_run evs initial_state = Ok (yajl_status_ok, st) → root st = Some r →
  ∃ evs', yajl_parse_tokens (calls_of r) = (evs', true) ∧
          yajl_run evs' initial_state =
          Ok (yajl_status_ok, mk_state [] (key_after (reorder r) "") (Some (reorder r))) ∧
          reorder r ≡ r.
Proof.
  intros Hrun Hr. assert (keys_unique r = true) as Hk.
  { pose proof (yajl_run_root_keys_unique evs initial_state st _ I Hrun) as H.
    unfold root_ok in H. by rewrite Hr in H. }
  exists (erase <$> events_of (reorder r)). split_and!.
  - apply yajl_parse_tokens_calls_of.
  - by apply yajl_run_reorder.
  - by apply reorder_equiv.
Qed.

Lemma yajl_run_round_trip_witness :
  ∃ evs', yajl_parse_tokens (calls_of (Ord := insertion_order) (JMap [("k", JInteger 1)])) =
          (evs', true) ∧
          yajl_run evs' initial_state =
          Ok (yajl_status_ok,
              mk_state []
                (key_after (reorder (Ord := insertion_order) (JMap [("k", JInteger 1)])) "")
                (Some (reorder (Ord := insertion_order) (JMap [("k", JInteger 1)])))) ∧
          reorder (Ord := insertion_order) (JMap [("k", JInteger 1)]) ≡
          JMap [("k", JInteger 1)].
Proof.
  apply (yajl_run_round_trip (Ord := insertion_order)
           [yajl_start_map 2; yajl_map_key "k" 0; yajl_integer 1; yajl_map_key "k" 0;
            yajl_integer 2; yajl_end_map]
           (mk_state [] "k" (Some (JMap [("k", JInteger 1)]))));
    reflexivity.
Defined.



(** ** The empty containers

    An empty array and an empty object are built from their two events
    and written by their two calls, and read back as themselves, whatever
    the order in which maps iterate. *)

Lemma empty_array_round_trip `{Ord : MapOrder} :
  yajl_run [yajl_start_array 0; yajl_end_array] initial_state =
    Ok (yajl_status_ok, mk_state [] "" (Some (JArray []))) ∧
  generate_json (Gen := trace_gen) (JArray []) [] =
    (yajl_gen_status_ok, [gen_array_open; gen_array_close]) ∧
  yajl_parse_tokens [gen_array_open; gen_array_close] =
    ([yajl_start_array 0; yajl_end_array], true).
Proof. split_and!; [done| |done]. by rewrite generate_json_trace. Qed.

Lemma empty_map_round_trip `{Ord : MapOrder} :
  yajl_run [yajl_start_map 0; yajl_end_map] initial_state =
    Ok (yajl_status_ok, mk_state [] "" (Some (JMap []))) ∧
  generate_json (Gen := trace_gen) (JMap []) [] =
    (yajl_gen_status_ok, [gen_map_open; gen_map_close]) ∧
  yajl_parse_tokens [gen_map_open; gen_map_close] = ([yajl_start_map 0; yajl_end_map], true).
Proof.
  split_and!; [done| |done]. rewrite generate_json_trace. simpl.
  by rewrite (map_iterate_nil (T := list gen_call)).
Qed.
