(* ===== verification/ReadLoop.v ===== *)
(** * ReadLoop: reading the whole input into a growing buffer

    The loop of [main] that reads the input in chunks of [READ_BUFSIZE]
    bytes into a [std::vector] it enlarges after every chunk.  The vector
    is its elements and its capacity; how much a reallocation reserves is
    left to the implementation ([VectorGrowth]).  [fread] on a regular
    stream returns the next bytes, fewer than asked only at the end of the
    stream.  A chunk is stored at [buf.data() + fullSize]; the model faults
    with [buffer_overrun] when the vector does not hold [READ_BUFSIZE]
    elements from there on.

    The loop is by recursion on fuel; [read_file] gives it one unit more
    than the stream has bytes, and [read_loop_inv] shows that this is
    enough for every stream and every chunk size above 0.

    The size of the buffer: the loop resizes the vector to its capacity
    plus a chunk, which is more than its capacity, so that every iteration
    reallocates ([resized], [sizes]).  The buffer stays linear in the input
    only where a reallocation reserves no more than it is asked for
    ([read_file_buffer_exact]); with the geometric growth of the usual
    implementations it doubles every two chunks
    ([read_file_buffer_geometric]: libstdc++, libc++) or grows by half
    with every chunk ([read_file_buffer_half_again]: the Microsoft STL).

    The limit of the vector: [resize] beyond [max_size()] throws
    [std::length_error], which nothing catches.  A growth policy has a
    limit or none ([Unlimited]); the theorems on whole runs are for a
    vector without limit, and [read_file_length_error] says where the run
    with a limit leaves by the exception and that it is the run without
    the limit everywhere else.  That the allocator fails below the limit
    ([std::bad_alloc]) is not modelled. *)

From Stdlib Require Import ZArith Lia.
From stdpp Require Import base tactics option list.
From S2P Require Import Prelude.

(** The capacity a vector of [size] elements and capacity [cap] reserves
    when it has to hold [n] elements and [cap] does not suffice, and
    [max_size()], the largest size the vector can be given, [None] for a
    vector without limit. *)
Class VectorGrowth : Type := {
  grow (size cap n : nat) : nat;
  grow_ge size cap n : n ≤ grow size cap n;
  max_size : option nat;
}.

(** A vector that reserves what is asked and no more. *)
Definition exact_growth : VectorGrowth :=
  {| grow _ _ n := n; grow_ge _ _ n := le_n n; max_size := None |}.

(** A vector that doubles its capacity, as that of libc++ does. *)
Definition doubling_growth : VectorGrowth :=
  {| grow _ cap n := Nat.max (2 * cap) n; grow_ge _ cap n := Nat.le_max_r (2 * cap) n;
     max_size := None |}.

(** A vector that reserves twice its size, as that of libstdc++ does. *)
Definition size_doubling_growth : VectorGrowth :=
  {| grow size _ n := Nat.max (2 * size) n; grow_ge size _ n := Nat.le_max_r (2 * size) n;
     max_size := None |}.

(** A vector that reserves half as much again as its capacity, as that of
    the Microsoft STL does. *)
Definition half_again_growth : VectorGrowth :=
  {| grow _ cap n := Nat.max (cap + cap / 2) n;
     grow_ge _ cap n := Nat.le_max_r (cap + cap / 2) n;
     max_size := None |}.

(** The same policy for a vector of [M] elements at most. *)
Definition limited (M : nat) (Growth : VectorGrowth) : VectorGrowth :=
  {| grow := grow; grow_ge := grow_ge; max_size := Some M |}.

(** A vector without limit: the idealisation under which a run of the
    program on an input of any size is followed to its end. *)
Class Unlimited (Growth : VectorGrowth) : Prop :=
  unlimited : max_size = None.

#[export] Instance exact_unlimited : Unlimited exact_growth.
Proof. done. Qed.

#[export] Instance doubling_unlimited : Unlimited doubling_growth.
Proof. done. Qed.

#[export] Instance size_doubling_unlimited : Unlimited size_doubling_growth.
Proof. done. Qed.

#[export] Instance half_again_unlimited : Unlimited half_again_growth.
Proof. done. Qed.

(** A growth policy is geometric when a reallocation reserves twice the
    size at least. *)
Class Geometric (Growth : VectorGrowth) : Prop :=
  grow_geometric size cap n : size ≤ cap → 2 * size ≤ grow size cap n.

#[export] Instance doubling_geometric : Geometric doubling_growth.
Proof. intros size cap n ?. simpl. lia. Qed.

#[export] Instance size_doubling_geometric : Geometric size_doubling_growth.
Proof. intros size cap n ?. simpl. lia. Qed.

(** A growth policy grows by half when a reallocation reserves half as
    much again as the capacity at least. *)
Class GrowsByHalf (Growth : VectorGrowth) : Prop :=
  grows_by_half size cap n : cap + cap / 2 ≤ grow size cap n.

#[export] Instance half_again_grows_by_half : GrowsByHalf half_again_growth.
Proof. intros size cap n. apply Nat.le_max_l. Qed.

#[export] Instance doubling_grows_by_half : GrowsByHalf doubling_growth.
Proof.
  intros size cap n. change (cap + cap / 2 ≤ Nat.max (2 * cap) n).
  pose proof (Nat.div_mod_eq cap 2). lia.
Qed.

Inductive read_fault : Set :=
| buffer_overrun   (** [fread] into memory the vector does not hold *)
| length_error     (** [resize] beyond [max_size()] throws [std::length_error] *)
| fuel_exhausted.  (** the model ran out of fuel *)

#[export] Instance read_fault_eq_dec : EqDecision read_fault.
Proof. solve_decision. Defined.

Section read_loop.
Context {B : Type} (zero : B) `{Growth : VectorGrowth} (bufsize : nat).

(** [std::vector<unsigned char>] *)
Record vector : Type := mk_vector {
  data : list B;
  capacity : nat;
}.

(** [n <= v.max_size()] *)
Definition within_max_size (n : nat) : bool :=
  if max_size is Some M then bool_decide (n ≤ M) else true.

(** [v.resize(n)], for [n] within [max_size()]: new elements are
    value-initialised. *)
Definition resize (n : nat) (v : vector) : vector :=
  if decide (n ≤ length (data v)) then mk_vector (take n (data v)) (capacity v)
  else mk_vector (data v ++ replicate (n - length (data v)) zero)
         (if decide (n ≤ capacity v) then capacity v
          else grow (length (data v)) (capacity v) n).

(** [fread(ptr, 1, n, f)]: the bytes read and the rest of the stream. *)
Definition fread (n : nat) (f : list B) : list B * list B := (take n f, drop n f).

(** The elements of a buffer after [chunk] was stored from offset [off]. *)
Definition store_chunk (off : nat) (chunk : list B) (l : list B) : list B :=
  take off l ++ chunk ++ drop (off + length chunk) l.

(** The variables of the loop. *)
Record read_state : Type := mk_read_state {
  buf : vector;
  readed : nat;
  fullSize : nat;
  stream : list B;
}.

(** [std::vector<unsigned char> buf(READ_BUFSIZE); size_t readed =
    READ_BUFSIZE; size_t fullSize = 0;] *)
Definition read_init (f : list B) : read_state :=
  mk_read_state (mk_vector (replicate bufsize zero) bufsize) bufsize 0 f.

(** The body of the loop. *)
Definition read_body (s : read_state) : res read_fault read_state :=
  if decide (fullSize s + bufsize ≤ length (data (buf s))) then
    let '(chunk, rest) := fread bufsize (stream s) in
    let stored := mk_vector (store_chunk (fullSize s) chunk (data (buf s))) (capacity (buf s)) in
    if within_max_size (capacity stored + bufsize) then
      Ok (mk_read_state (resize (capacity stored + bufsize) stored)
            (length chunk) (fullSize s + length chunk) rest)
    else Err length_error
  else Err buffer_overrun.

(** [while (readed == READ_BUFSIZE) body] *)
Fixpoint read_loop (fuel : nat) (s : read_state) : res read_fault read_state :=
  if decide (readed s = bufsize) then
    match fuel with
    | O => Err fuel_exhausted
    | S fuel' => read_body s ≫= read_loop fuel'
    end
  else Ok s.

Definition read_file (f : list B) : res read_fault read_state :=
  read_loop (S (length f)) (read_init f).

(** The text handed to the parser: [buf.data()], [fullSize] bytes. *)
Definition text_of (s : read_state) : list B := take (fullSize s) (data (buf s)).

(** ** The invariant of the loop *)

(** For the stream [orig]: the next chunk has room, the vector is within
    its capacity, what was read is the part of [orig] before the rest of
    the stream, [fullSize] counts whole chunks until the last, and a short
    chunk was the end of the stream. *)
Definition read_inv (orig : list B) (s : read_state) : Prop :=
  fullSize s + bufsize ≤ length (data (buf s)) ∧
  length (data (buf s)) ≤ capacity (buf s) ∧
  text_of s ++ stream s = orig ∧
  fullSize s `mod` bufsize = readed s `mod` bufsize ∧
  readed s ≤ bufsize ∧
  (readed s ≠ bufsize → stream s = []).

Context `{!Unlimited Growth}.

Lemma within_max_size_unlimited n : within_max_size n = true.
Proof. unfold within_max_size. by rewrite unlimited. Qed.

Lemma resize_larger n v :
  length (data v) ≤ capacity v → capacity v < n →
  resize n v = mk_vector (data v ++ replicate (n - length (data v)) zero)
                 (grow (length (data v)) (capacity v) n).
Proof. intros. unfold resize. by rewrite !decide_False by lia. Qed.

Lemma length_store_chunk off chunk l :
  off + length chunk ≤ length l → length (store_chunk off chunk l) = length l.
Proof. intros. unfold store_chunk. rewrite !length_app, length_take, length_drop. lia. Qed.

Lemma take_store_chunk off chunk l :
  off + length chunk ≤ length l →
  take (off + length chunk) (store_chunk off chunk l) = take off l ++ chunk.
Proof.
  intros. unfold store_chunk. rewrite (assoc_L (++)). apply take_app_length'.
  rewrite length_app, length_take. lia.
Qed.

Lemma read_init_inv f : 0 < bufsize → read_inv f (read_init f).
Proof.
  intros. unfold read_inv, read_init, text_of. simpl. rewrite length_replicate.
  split_and!; try done; try lia. by rewrite Nat.Div0.mod_0_l, Nat.Div0.mod_same.
Qed.

Lemma read_body_inv orig s :
  0 < bufsize → read_inv orig s → readed s = bufsize →
  ∃ s', read_body s = Ok s' ∧ read_inv orig s' ∧
        (readed s' = bufsize → length (stream s') < length (stream s)).
Proof.
  intros Hpos (Hroom & Hcap & Htext & Hmod & _ & _) Hfull. unfold read_body.
  rewrite decide_True by done. simpl. rewrite within_max_size_unlimited.
  eexists. split; [done|].
  pose proof (grow_ge (length (data (buf s))) (capacity (buf s))
                (capacity (buf s) + bufsize)) as Hgrow.
  set (chunk := take bufsize (stream s)).
  assert (length chunk = bufsize `min` length (stream s)) as Hc by apply length_take.
  assert (fullSize s + length chunk ≤ length (data (buf s))) as Hfit by lia.
  rewrite resize_larger by (simpl; rewrite ?length_store_chunk; lia).
  unfold read_inv, text_of in *. simpl.
  rewrite !length_app, !length_store_chunk, length_replicate by done.
  split_and!; try lia.
  - rewrite take_app_le by (rewrite length_store_chunk; lia).
    rewrite take_store_chunk, <- (assoc_L (++)) by done. subst chunk. by rewrite take_drop.
  - by rewrite <- Nat.Div0.add_mod_idemp_l, Hmod, Hfull, Nat.Div0.mod_same.
  - intros Hlt. apply drop_ge. lia.
  - rewrite length_drop. lia.
Qed.

Lemma read_loop_inv orig fuel s :
  0 < bufsize → read_inv orig s → (readed s = bufsize → length (stream s) < fuel) →
  ∃ s', read_loop fuel s = Ok s' ∧ read_inv orig s' ∧ readed s' ≠ bufsize.
Proof.
  intros Hpos. revert s. induction fuel as [|fuel IH]; intros s Hinv Hfuel; simpl.
  - case_decide; [lia|]. by exists s.
  - case_decide as Hfull; [|by exists s].
    destruct (read_body_inv orig s Hpos Hinv Hfull) as (s1 & -> & Hinv1 & Hlt). simpl.
    apply IH; [done|]. specialize (Hfuel Hfull). lia.
Qed.

Lemma read_file_inv f :
  0 < bufsize → ∃ s, read_file f = Ok s ∧ read_inv f s ∧ readed s ≠ bufsize.
Proof. intros. apply read_loop_inv; [done | by apply read_init_inv | simpl; lia]. Qed.

(** What the invariant says when the loop has ended. *)
Lemma read_inv_end orig s :
  read_inv orig s → readed s ≠ bufsize →
  text_of s = orig ∧ fullSize s = length orig ∧ stream s = [] ∧
  readed s = length orig `mod` bufsize.
Proof.
  intros (Hroom & _ & Htext & Hmod & Hle & Hend) Hne.
  rewrite (Hend Hne), app_nil_r in Htext.
  assert (fullSize s = length orig) as Hlen.
  { rewrite <- Htext. unfold text_of. rewrite length_take. lia. }
  split_and!; auto. rewrite <- Hlen, Hmod. symmetry. apply Nat.mod_small. lia.
Qed.

(** ** The size of the buffer *)

(** [buf.resize(buf.capacity() + READ_BUFSIZE)], on the size and the
    capacity of [buf]: the new size is above the capacity, so that the
    vector reallocates. *)
Definition resized (sc : nat * nat) : nat * nat :=
  (sc.2 + bufsize, grow sc.1 sc.2 (sc.2 + bufsize)).

(** The size and the capacity of [buf] after [n] iterations. *)
Definition sizes (n : nat) : nat * nat := Nat.iter n resized (bufsize, bufsize).

(** The size and the capacity of the buffer of a state. *)
Definition size_of (s : read_state) : nat * nat := (length (data (buf s)), capacity (buf s)).

(** The iterations made: one for every whole chunk, and one for the short
    chunk that ends the loop. *)
Definition iterations (s : read_state) : nat :=
  fullSize s / bufsize + (if decide (readed s = bufsize) then 0 else 1).

Lemma sizes_S n : sizes (S n) = resized (sizes n).
Proof. done. Qed.

Lemma sizes_le n : (sizes n).1 ≤ (sizes n).2.
Proof.
  induction n as [|n IH]; [done|]. rewrite sizes_S. unfold resized. simpl. apply grow_ge.
Qed.

Lemma iterations_init f : 0 < bufsize → iterations (read_init f) = 0.
Proof. intros. unfold iterations. simpl. by rewrite decide_True, Nat.Div0.div_0_l. Qed.

(** One iteration resizes once. *)
Lemma read_body_sizes orig s s' :
  0 < bufsize → read_inv orig s → readed s = bufsize → read_body s = Ok s' →
  size_of s' = resized (size_of s) ∧ iterations s' = S (iterations s).
Proof.
  intros Hpos (Hroom & Hcap & _ & Hmod & _ & _) Hfull. unfold read_body.
  rewrite decide_True by done. simpl. rewrite within_max_size_unlimited. intros [= <-].
  assert (length (take bufsize (stream s)) ≤ bufsize) as Hc by (rewrite length_take; lia).
  rewrite resize_larger by (simpl; rewrite ?length_store_chunk; lia).
  unfold size_of, resized, iterations. simpl.
  rewrite length_app, length_replicate, !length_store_chunk by lia. split; [f_equal; lia|].
  rewrite Hfull, Nat.Div0.mod_same in Hmod. apply Nat.Div0.div_exact in Hmod.
  rewrite (decide_True _ _ Hfull), Hmod at 1.
  rewrite (Nat.mul_comm bufsize), Nat.div_add_l, Nat.add_0_r by lia. clear Hmod.
  case_decide as Hlast; [rewrite Hlast, Nat.div_same by lia|]; [lia|].
  rewrite (Nat.div_small (length (take bufsize (stream s)))) by lia. lia.
Qed.

Lemma read_loop_sizes orig fuel s s' :
  0 < bufsize → read_inv orig s → size_of s = sizes (iterations s) →
  read_loop fuel s = Ok s' → size_of s' = sizes (iterations s').
Proof.
  intros Hpos. revert s. induction fuel as [|fuel IH]; intros s Hinv Hs; simpl;
    (case_decide as Hfull; [|by intros [= <-]]); [done|].
  destruct (read_body_inv orig s Hpos Hinv Hfull) as (s1 & E & Hinv1 & _). rewrite E. simpl.
  destruct (read_body_sizes orig s s1 Hpos Hinv Hfull E) as [Hs1 Hn1].
  apply IH; [done|]. by rewrite Hs1, Hn1, Hs.
Qed.

(** The buffer [main] parses has been resized once per chunk of the input,
    the last included. *)
Lemma read_file_sizes f :
  0 < bufsize →
  ∃ s, read_file f = Ok s ∧ size_of s = sizes (length f / bufsize + 1).
Proof.
  intros Hpos. destruct (read_file_inv f Hpos) as (s & Hs & Hinv & Hne). exists s.
  split; [done|]. destruct (read_inv_end f s Hinv Hne) as (_ & <- & _).
  rewrite (read_loop_sizes f (S (length f)) (read_init f) s Hpos);
    [|by apply read_init_inv| |done].
  - unfold iterations. by rewrite decide_False.
  - rewrite iterations_init by done. unfold size_of. simpl. by rewrite length_replicate.
Qed.

End read_loop.

Arguments mk_vector {B} _ _.
Arguments mk_read_state {B} _ _ _ _.

(** ** The sizes under the growth policies *)

(** A vector that reserves what is asked grows by a chunk per iteration. *)
Lemma sizes_exact (bufsize n : nat) :
  sizes (Growth := exact_growth) bufsize n = (S n * bufsize, S n * bufsize).
Proof.
  induction n as [|n IH]; [simpl; f_equal; lia|].
  rewrite sizes_S, IH. unfold resized. simpl. f_equal; lia.
Qed.

Section geometric.
Context `{Growth : VectorGrowth} `{!Geometric Growth} (bufsize : nat).

(** A vector that reserves twice its size doubles in two iterations. *)
Lemma sizes_geometric_even j : bufsize * 2 ^ j ≤ (sizes bufsize (2 * j)).1.
Proof.
  induction j as [|j IH]; [simpl; lia|].
  replace (2 * S j) with (S (S (2 * j))) by lia. rewrite !sizes_S.
  pose proof (grow_geometric _ _ ((sizes bufsize (2 * j)).2 + bufsize) (sizes_le bufsize (2 * j))).
  unfold resized at 1. unfold resized at 1. cbn [fst snd].
  rewrite Nat.pow_succ_r'. lia.
Qed.

Lemma sizes_geometric n : bufsize * 2 ^ (n / 2) ≤ (sizes bufsize n).1.
Proof.
  pose proof (sizes_geometric_even (n / 2)) as H. pose proof (sizes_le bufsize (2 * (n / 2))).
  pose proof (Nat.div_mod_eq n 2) as Hn. pose proof (Nat.mod_upper_bound n 2) as Hm.
  set (q := n / 2) in *. clearbody q.
  destruct (n `mod` 2) as [|[|r]]; [|clear Hm|lia]; subst n.
  - by rewrite Nat.add_0_r.
  - rewrite Nat.add_1_r, sizes_S. unfold resized. cbn [fst snd]. lia.
Qed.

End geometric.

Section grows_by_half.
Context `{Growth : VectorGrowth} `{!GrowsByHalf Growth} (bufsize : nat).

(** A vector that reserves half as much again is half as large again
    after every iteration. *)
Lemma sizes_grows_by_half n : 3 ^ n * (bufsize - 1) ≤ 2 ^ n * ((sizes bufsize n).2 - 1).
Proof.
  induction n as [|n IH]; [simpl; lia|]. rewrite sizes_S, !Nat.pow_succ_r'.
  unfold resized. cbn [fst snd].
  pose proof (grows_by_half (sizes bufsize n).1 (sizes bufsize n).2
                ((sizes bufsize n).2 + bufsize)) as Hg.
  set (cap := (sizes bufsize n).2) in *. set (cap' := grow _ _ _) in *.
  assert (3 * (cap - 1) ≤ 2 * (cap' - 1)) as H.
  { pose proof (Nat.div_mod_eq cap 2). pose proof (Nat.mod_upper_bound cap 2). lia. }
  clearbody cap cap'. clear Hg.
  etrans; [rewrite <- Nat.mul_assoc; apply Nat.mul_le_mono_l, IH|].
  clear IH. generalize (2 ^ n). intros p. nia.
Qed.

(** The size asked for after one iteration more. *)
Lemma sizes_grows_by_half_next n :
  0 < bufsize → 3 ^ n * (bufsize - 1) < 2 ^ n * (sizes bufsize (S n)).1.
Proof.
  intros Hpos. eapply Nat.le_lt_trans; [apply sizes_grows_by_half|].
  rewrite sizes_S. unfold resized. cbn [fst snd].
  apply Nat.mul_lt_mono_pos_l; [|lia]. apply Nat.neq_0_lt_0, Nat.pow_nonzero. done.
Qed.

End grows_by_half.

(** ** The vector with a largest size *)

Section limited.
Context {B : Type} (zero : B) (Growth : VectorGrowth) `{!Unlimited Growth} (M bufsize : nat).
Implicit Types (s : read_state (B := B)) (f : list B).

(** The sizes asked for grow. *)
Lemma sizes_mono n m : n ≤ m → (sizes bufsize n).1 ≤ (sizes bufsize m).1.
Proof.
  induction 1 as [|m _ IH]; [done|]. rewrite sizes_S. unfold resized. cbn [fst snd].
  pose proof (sizes_le bufsize m). lia.
Qed.

(** The body with the limit is the body without, unless it asks for more
    than the limit. *)
Lemma read_body_limited s :
  fullSize s + bufsize ≤ length (data (buf s)) →
  read_body (Growth := limited M Growth) zero bufsize s =
  if decide (capacity (buf s) + bufsize ≤ M) then read_body zero bufsize s
  else Err length_error.
Proof.
  intros Hroom. unfold read_body, within_max_size. simpl. rewrite unlimited.
  repeat case_decide; try done;
    by rewrite ?bool_decide_eq_true_2, ?bool_decide_eq_false_2 by done.
Qed.

(** The iterations of a run are counted upwards. *)
Lemma read_loop_iterations orig fuel s s' :
  0 < bufsize → read_inv bufsize orig s → read_loop zero bufsize fuel s = Ok s' →
  iterations bufsize s ≤ iterations bufsize s'.
Proof.
  intros Hpos. revert s. induction fuel as [|fuel IH]; intros s Hinv; simpl;
    (case_decide as Hfull; [|by intros [= <-]]); [done|].
  destruct (read_body_inv zero bufsize orig s Hpos Hinv Hfull) as (s1 & E & Hinv1 & _).
  rewrite E. simpl. intros Hs'%IH; [|done].
  destruct (read_body_sizes zero bufsize orig s s1 Hpos Hinv Hfull E) as [_ Hn]. lia.
Qed.

(** A run with the limit is the run without, unless the last size asked
    for is above the limit. *)
Lemma read_loop_limited orig fuel s s' :
  0 < bufsize → read_inv bufsize orig s →
  size_of s = sizes bufsize (iterations bufsize s) → (size_of s).1 ≤ M →
  read_loop zero bufsize fuel s = Ok s' →
  read_loop (Growth := limited M Growth) zero bufsize fuel s =
  if decide ((sizes bufsize (iterations bufsize s')).1 ≤ M) then Ok s' else Err length_error.
Proof.
  intros Hpos. revert s. induction fuel as [|fuel IH]; intros s Hinv Hs HM; simpl;
    (destruct (decide (readed s = bufsize)) as [Hfull|Hfull];
     [|intros [= ->]; by rewrite <- Hs, decide_True]); [done|].
  destruct (read_body_inv zero bufsize orig s Hpos Hinv Hfull) as (s1 & E & Hinv1 & _).
  destruct (read_body_sizes zero bufsize orig s s1 Hpos Hinv Hfull E) as [Hs1 Hn1].
  rewrite read_body_limited, E by apply Hinv. simpl. intros Hrun.
  assert ((sizes bufsize (iterations bufsize s1)).1 = capacity (buf s) + bufsize) as Hask.
  { by rewrite Hn1, sizes_S, <- Hs. }
  destruct (decide (capacity (buf s) + bufsize ≤ M)) as [Hfit|Hfit]; simpl.
  - apply IH; [done| |by rewrite Hs1|done]. by rewrite Hs1, Hn1, Hs.
  - rewrite decide_False; [done|]. rewrite <- Hask in Hfit. intros Hle. apply Hfit.
    etrans; [|exact Hle]. apply sizes_mono. by eapply read_loop_iterations.
Qed.

Lemma read_file_limited_sizes f :
  0 < bufsize → bufsize ≤ M →
  read_file (Growth := limited M Growth) zero bufsize f =
  if decide ((sizes bufsize (length f / bufsize + 1)).1 ≤ M) then read_file zero bufsize f
  else Err length_error.
Proof.
  intros Hpos HM. destruct (read_file_inv zero bufsize f Hpos) as (s & Hs & Hinv & Hne).
  destruct (read_inv_end bufsize f s Hinv Hne) as (_ & Hlen & _).
  unfold read_file in *.
  rewrite (read_loop_limited f (S (length f)) (read_init zero bufsize f) s Hpos), Hs;
    [|by apply read_init_inv| |simpl; by rewrite length_replicate|done].
  - unfold iterations. by rewrite (decide_False (P := readed s = bufsize)), Hlen.
  - rewrite iterations_init by done. unfold size_of. simpl. by rewrite length_replicate.
Qed.

End limited.

(** ** The theorems of the component *)

(** C11: for every stream, every chunk size above 0 and every growth policy
    of a vector without limit, the loop ends without storing outside the
    vector, and leaves the whole stream, and nothing else, in the first
    [fullSize] elements of the buffer. *)
Theorem read_file_whole {B : Type} (zero : B) `{Growth : VectorGrowth}
    `{!Unlimited Growth} (bufsize : nat) (f : list B) :
  0 < bufsize →
  ∃ s, read_file zero bufsize f = Ok s ∧ text_of s = f ∧ fullSize s = length f ∧ stream s = [].
Proof.
  intros Hpos. destruct (read_file_inv zero bufsize f Hpos) as (s & Hs & Hinv & Hne).
  destruct (read_inv_end bufsize f s Hinv Hne) as (? & ? & ? & _). by exists s.
Qed.

Lemma read_file_whole_witness :
  ∃ s, read_file (Growth := doubling_growth) 0%Z 4 [1; 2; 3; 4; 5; 6; 7; 8; 9]%Z = Ok s ∧
       text_of s = [1; 2; 3; 4; 5; 6; 7; 8; 9]%Z ∧
       fullSize s = length [1; 2; 3; 4; 5; 6; 7; 8; 9]%Z ∧ stream s = [].
Proof.
  apply (read_file_whole (Growth := doubling_growth) 0%Z 4 [1; 2; 3; 4; 5; 6; 7; 8; 9]%Z).
  lia.
Defined.

(** Where the vector reserves exactly what it is asked for, the buffer
    the loop leaves has two chunks more than the whole chunks of the
    input: its size is linear in the size of the input. *)
Lemma read_file_buffer_exact {B : Type} (zero : B) (bufsize : nat) (f : list B) :
  0 < bufsize →
  ∃ s, read_file (Growth := exact_growth) zero bufsize f = Ok s ∧
       length (data (buf s)) = (length f / bufsize + 2) * bufsize.
Proof.
  intros Hpos. destruct (read_file_sizes (Growth := exact_growth) zero bufsize f Hpos)
    as (s & Hs & Hsize).
  exists s. split; [done|]. rewrite sizes_exact in Hsize. injection Hsize as -> _. lia.
Qed.

(** Where a reallocation reserves half as much again as the capacity, as
    in the Microsoft STL and in libc++, the buffer is half as large again
    with every chunk read. *)
Lemma read_file_buffer_half_again {B : Type} (zero : B) `{Growth : VectorGrowth}
    `{!Unlimited Growth} `{!GrowsByHalf Growth} (bufsize : nat) (f : list B) :
  0 < bufsize →
  ∃ s, read_file zero bufsize f = Ok s ∧
       3 ^ (length f / bufsize) * (bufsize - 1) <
       2 ^ (length f / bufsize) * length (data (buf s)).
Proof.
  intros Hpos. destruct (read_file_sizes zero bufsize f Hpos) as (s & Hs & Hsize).
  exists s. split; [done|].
  pose proof (sizes_grows_by_half_next bufsize (length f / bufsize) Hpos) as H.
  rewrite Nat.add_1_r in Hsize. by rewrite <- Hsize in H.
Qed.

(** C13: with a vector of [M] elements at most, the loop leaves by the
    [std::length_error] of [resize] exactly when the size it asks for
    after the last chunk of the input is above [M], before anything is
    parsed; on every other input it runs as it does without the limit. *)
Theorem read_file_length_error {B : Type} (zero : B) (Growth : VectorGrowth)
    `{!Unlimited Growth} (M bufsize : nat) (f : list B) :
  0 < bufsize → bufsize ≤ M →
  (read_file (Growth := limited M Growth) zero bufsize f = Err length_error ↔
   M < (sizes bufsize (length f / bufsize + 1)).1) ∧
  ((sizes bufsize (length f / bufsize + 1)).1 ≤ M →
   read_file (Growth := limited M Growth) zero bufsize f = read_file zero bufsize f).
Proof.
  intros Hpos HM. rewrite (read_file_limited_sizes zero Growth M bufsize f Hpos HM).
  destruct (read_file_inv zero bufsize f Hpos) as (s & -> & _).
  case_decide; (split; [split|]); (done || lia).
Qed.

Lemma read_file_length_error_witness :
  (read_file (Growth := limited 10 doubling_growth) 0%Z 4 [1; 2; 3; 4; 5; 6; 7; 8; 9]%Z =
     Err length_error ↔
   10 < (sizes (Growth := doubling_growth) 4 (length [1; 2; 3; 4; 5; 6; 7; 8; 9]%Z / 4 + 1)).1) ∧
  ((sizes (Growth := doubling_growth) 4 (length [1; 2; 3; 4; 5; 6; 7; 8; 9]%Z / 4 + 1)).1 ≤ 10 →
   read_file (Growth := limited 10 doubling_growth) 0%Z 4 [1; 2; 3; 4; 5; 6; 7; 8; 9]%Z =
   read_file (Growth := doubling_growth) 0%Z 4 [1; 2; 3; 4; 5; 6; 7; 8; 9]%Z).
Proof.
  apply (read_file_length_error 0%Z doubling_growth 10 4 [1; 2; 3; 4; 5; 6; 7; 8; 9]%Z); lia.
Defined.

(** C12: the loop resizes the vector to its capacity plus a chunk, past
    its capacity, at every iteration.  Where a reallocation reserves twice
    the size at least, as in libstdc++ and in libc++, the buffer doubles
    with every two chunks read: its size is exponential in the size of the
    input. *)
Theorem read_file_buffer_geometric {B : Type} (zero : B) `{Growth : VectorGrowth}
    `{!Unlimited Growth} `{!Geometric Growth} (bufsize : nat) (f : list B) :
  0 < bufsize →
  ∃ s, read_file zero bufsize f = Ok s ∧
       bufsize * 2 ^ ((length f / bufsize + 1) / 2) ≤ length (data (buf s)).
Proof.
  intros Hpos. destruct (read_file_sizes zero bufsize f Hpos) as (s & Hs & Hsize).
  exists s. split; [done|]. pose proof (sizes_geometric bufsize (length f / bufsize + 1)) as H.
  by rewrite <- Hsize in H.
Qed.

Lemma read_file_buffer_geometric_witness :
  ∃ s, read_file (Growth := size_doubling_growth) 0%Z 4 [1; 2; 3; 4; 5; 6; 7; 8; 9]%Z = Ok s ∧
       4 * 2 ^ ((length [1; 2; 3; 4; 5; 6; 7; 8; 9]%Z / 4 + 1) / 2) ≤ length (data (buf s)).
Proof.
  apply (read_file_buffer_geometric (Growth := size_doubling_growth) 0%Z 4
           [1; 2; 3; 4; 5; 6; 7; 8; 9]%Z).
  lia.
Defined.
