(* ===== verification/Main.v ===== *)
(** * Main: the program, from its arguments to its exit code

    [main] reads the input (a file, or the standard input for ["-"]) to
    its end, hands the text to yajl with [reader_cb] as callbacks,
    finishes the parse, and, when yajl reports no error, opens the output
    (the second argument, the input when there is none, the standard
    output for ["-"]), serializes the tree with [generate_json] and writes
    the buffer of the generator.

    The outside is a [world]: the files by name, the names that cannot be
    opened for writing, the standard streams, and the messages printed.
    yajl is two interfaces: [YajlParse], the events its parser delivers for
    a text and whether it accepts the text, with the two facts about them
    that [main] relies upon; and [YajlBuf], the allocation of a generator
    and its buffer.  Their instances on texts of tokens are those of
    [RoundTrip].  What [main] can do wrong below its own checks is a
    [main_fault]: a fault of the read loop ([std::length_error] of the
    vector included, which [main] does not catch), a fault of a callback,
    or the dereference of a null [state.root].

    The theorems: with a vector without limit [main] commits none of these
    faults, and with a limit it ends by [std::length_error] on every input
    whose buffer would pass the limit ([main_length_error]: with 64-bit
    sizes from 404 KiB on where the vector doubles, from 352 KiB on where
    it grows by half).  On the text of a value with distinct keys [main]
    writes the normalised text, from any source to any destination
    ([main_written]), over the input or to another file
    ([main_normalises]) and from the standard input to the standard output
    ([main_filter]); a second run leaves that text as it is where maps
    iterate in a stable order, and restores the input where they iterate
    from their newest entry ([main_second_run_restores]).  An exit code
    other than 0 comes with no write; the status of [generate_json] is
    ignored; two errors in the reports of failures; a valid text with a
    repeated key that is refused ([main_duplicate_key_rejected]). *)

From Stdlib Require Import ZArith Lia.
From stdpp Require Import base tactics option list strings gmap.
From S2P Require Import Prelude Containers Value Pointer Builder Parser Invariant Equiv.
From S2P Require Import Generator RoundTrip ReadLoop.

#[local] Open Scope Z_scope.

(** ** yajl, as [main] uses it *)

(** [yajl_parse] followed by [yajl_complete_parse] on a text: the events
    delivered until the first error, and whether the text is accepted. *)
Class YajlParse (B : Type) : Type := {
  yajl_parse : list B → list event * bool;
  yajl_parse_matched text : is_Some (nesting 0 (yajl_parse text).1);
  yajl_parse_accepted text evs :
    yajl_parse text = (evs, true) →
    ∃ e evs', evs = e :: evs' ∧ (is_Some (scalar_of e) ∨ is_Some (container_of e));
}.

(** [yajl_gen_alloc] with [yajl_gen_config], and [yajl_gen_get_buf]. *)
Class YajlBuf (B G : Type) : Type := {
  yajl_gen_alloc : G;
  yajl_gen_get_buf : G → list B;
}.

Definition token_parse : YajlParse gen_call := {|
  yajl_parse := yajl_parse_tokens;
  yajl_parse_matched := parse_tokens_matched (Some []);
  yajl_parse_accepted := parse_tokens_accepted;
|}.

Definition trace_buf : YajlBuf gen_call (list gen_call) :=
  {| yajl_gen_alloc := []; yajl_gen_get_buf t := t |}.

Definition limited_buf (n : nat) : YajlBuf gen_call (nat * list gen_call) :=
  {| yajl_gen_alloc := (n, []); yajl_gen_get_buf s := s.2 |}.

(** The status [yajl_complete_parse] returns after a parse that delivered
    its events with the status [parsed], on a text accepted or not. *)
Definition yajl_complete_parse (parsed : yajl_status) (accepted : bool) : yajl_status :=
  if decide (parsed = yajl_status_ok) then
    if accepted then yajl_status_ok else yajl_status_error
  else yajl_status_error.

(** ** The world *)

Inductive message : Set :=
| usage_text (arg0 : option string)
| perror_text (s : option string)
| parse_error_text (name : string) (jsonTextLen : nat).

#[export] Instance message_eq_dec : EqDecision message.
Proof. solve_decision. Defined.

Inductive main_fault : Set :=
| read_failed (f : read_fault)
| callback_failed (f : fault)
| null_root.

#[export] Instance main_fault_eq_dec : EqDecision main_fault.
Proof. solve_decision. Defined.

Definition lift {E E' A : Type} (f : E → E') (m : res E A) : res E' A :=
  match m with
  | Ok a => Ok a
  | Err e => Err (f e)
  end.

(** [constexpr size_t READ_BUFSIZE = 4096] *)
Definition READ_BUFSIZE : nat := 4096.

Section main.
Context {B G : Type} (zero : B) `{Growth : VectorGrowth} `{Ord : MapOrder}.
Context `{Parse : YajlParse B} `{Gen : YajlGen G} `{Buf : YajlBuf B G}.

Record world : Type := mk_world {
  files : gmap string (list B);
  write_protected : list string;
  stdin : list B;
  stdout : list B;
  console : list message;
}.

(** [printf], [perror] and [fprintf(stderr, ...)] *)
Definition print (msg : message) (w : world) : world :=
  mk_world (files w) (write_protected w) (stdin w) (stdout w) (console w ++ [msg]).

(** [strcmp(name, "-") == 0 ? stdin : fopen(name, "rb")]: the stream, and
    the world once the stream was read to its end. *)
Definition open_input (name : string) (w : world) : option (list B * world) :=
  if decide (name = "-") then
    Some (stdin w, mk_world (files w) (write_protected w) [] (stdout w) (console w))
  else (λ f, (f, w)) <$> files w !! name.

(** [strcmp(name, "-") == 0 ? stdout : fopen(name, "wb")] *)
Definition open_output (name : string) (w : world) : option world :=
  if decide (name = "-") then Some w
  else if bool_decide (name ∈ write_protected w) then None
  else Some (mk_world (<[name := []]> (files w)) (write_protected w) (stdin w) (stdout w)
               (console w)).

(** [fwrite(bytes, 1, size, f)] on the stream opened for [name]. *)
Definition fwrite (name : string) (bytes : list B) (w : world) : world :=
  if decide (name = "-") then
    mk_world (files w) (write_protected w) (stdin w) (stdout w ++ bytes) (console w)
  else
    mk_world (<[name := default [] (files w !! name) ++ bytes]> (files w)) (write_protected w)
      (stdin w) (stdout w) (console w).

(** [main] from the test of [status] on: the report of a parse error with
    [jsonTextLen] as the length given to [yajl_get_error], or the output. *)
Definition write_result (argv : list string) (input : string) (status : yajl_status)
    (jsonTextLen : nat) (state : json_data_state) (w : world) : res main_fault (Z * world) :=
  if decide (status ≠ yajl_status_ok) then
    Ok (1, print (parse_error_text input jsonTextLen) w)
  else
    let output := default input (argv !! 2%nat) in
    match open_output output w with
    | None => Ok (1, print (perror_text (argv !! 2%nat)) w)
    | Some w' =>
        match root state with
        | None => Err null_root
        | Some r =>
            let '(_, gen) := generate_json r yajl_gen_alloc in
            Ok (0, fwrite output (yajl_gen_get_buf gen) w')
        end
    end.

(** [main(argc, argv)]: the exit code and the world it leaves. *)
Definition main (argv : list string) (w : world) : res main_fault (Z * world) :=
  match argv !! 1%nat with
  | None => Ok (1, print (usage_text (argv !! 0%nat)) w)
  | Some input =>
      match open_input input w with
      | None => Ok (1, print (perror_text (Some input)) w)
      | Some (f, w1) =>
          s ← lift read_failed (read_file zero READ_BUFSIZE f);
          let '(evs, accepted) := yajl_parse (text_of s) in
          '(parsed, state) ← lift callback_failed (yajl_run evs initial_state);
          write_result argv input (yajl_complete_parse parsed accepted) (readed s) state w1
      end
  end.

(** ** The steps of [main] *)

Lemma READ_BUFSIZE_pos : (0 < READ_BUFSIZE)%nat.
Proof. apply Nat.lt_0_succ. Qed.

Lemma READ_BUFSIZE_pow : READ_BUFSIZE = (2 ^ 12)%nat.
Proof. reflexivity. Qed.

#[local] Opaque READ_BUFSIZE.

(** From here on the vector has no limit: the run is followed past the
    read loop. *)
Context `{!Unlimited Growth}.

Lemma yajl_complete_parse_ok parsed accepted :
  yajl_complete_parse parsed accepted = yajl_status_ok ↔
  parsed = yajl_status_ok ∧ accepted = true.
Proof. unfold yajl_complete_parse. case_decide; destruct accepted; intuition congruence. Qed.

(** The read loop hands the whole stream to the parser. *)
Lemma read_file_text (f : list B) :
  ∃ s, read_file zero READ_BUFSIZE f = Ok s ∧ text_of s = f ∧
       readed s = (length f `mod` READ_BUFSIZE)%nat.
Proof.
  destruct (read_file_inv zero READ_BUFSIZE f READ_BUFSIZE_pos) as (s & Hs & Hinv & Hne).
  destruct (read_inv_end READ_BUFSIZE f s Hinv Hne) as (? & _ & _ & ?).
  exists s. split_and!; assumption.
Qed.

(** The callbacks do not fault on what the parser delivers. *)
Lemma yajl_run_parse (text : list B) :
  ∃ parsed state, yajl_run (yajl_parse text).1 initial_state = Ok (parsed, state).
Proof.
  destruct (yajl_parse_matched text) as [n Hn].
  destruct (yajl_run_nesting _ initial_state n eq_refl Hn) as (parsed & state & Hrun & _).
  by exists parsed, state.
Qed.

(** After a parse without error there is a tree. *)
Lemma yajl_run_accepted (text : list B) evs state :
  yajl_parse text = (evs, true) → yajl_run evs initial_state = Ok (yajl_status_ok, state) →
  is_Some (root state).
Proof.
  intros (e & evs' & -> & He)%yajl_parse_accepted Hrun. by eapply yajl_run_first_value.
Qed.

(** [main] on an input that can be opened, by what yajl makes of it. *)
Lemma main_parsed argv input f w w1 evs accepted parsed state :
  argv !! 1%nat = Some input → open_input input w = Some (f, w1) →
  yajl_parse f = (evs, accepted) → yajl_run evs initial_state = Ok (parsed, state) →
  main argv w =
  write_result argv input (yajl_complete_parse parsed accepted)
    (length f `mod` READ_BUFSIZE) state w1.
Proof.
  intros Harg Hopen Hparse Hrun. unfold main. rewrite Harg, Hopen.
  destruct (read_file_text f) as (s & -> & Htext & Hreaded). simpl.
  by rewrite Htext, Hparse, Hrun, Hreaded.
Qed.

(** A file that can be written holds what is written to it after it was
    opened, and nothing else. *)
Lemma fwrite_open_output name bytes w :
  name ≠ "-" → name ∉ write_protected w →
  fwrite name bytes <$> open_output name w =
  Some (mk_world (<[name := bytes]> (files w)) (write_protected w) (stdin w) (stdout w)
          (console w)).
Proof.
  intros Hname Hw. unfold open_output, fwrite.
  rewrite decide_False, bool_decide_eq_false_2 by done. simpl.
  by rewrite decide_False, lookup_insert_eq, insert_insert_eq by done.
Qed.

(** What [write_result] leaves without writing. *)
Lemma write_result_failed argv input status len state w code w' :
  write_result argv input status len state w = Ok (code, w') → code ≠ 0 →
  ∃ msg, w' = print msg w.
Proof.
  unfold write_result. case_decide; [intros [= <- <-]; eauto|].
  destruct (open_output _ w); [|intros [= <- <-]; eauto].
  destruct (root state); [|done]. by destruct (generate_json _ _); intros [= <- <-].
Qed.

End main.

Arguments world : clear implicits.

(** ** The theorems of the component *)

Section main_correct.
Context {B G : Type} (zero : B) `{Growth : VectorGrowth} `{!Unlimited Growth}.
Context `{Ord : MapOrder}.
Context `{Parse : YajlParse B} `{Gen : YajlGen G} `{Buf : YajlBuf B G}.
Implicit Types (argv : list string) (w : world B) (input : string).

Lemma open_input_world input w f w1 :
  open_input input w = Some (f, w1) →
  files w1 = files w ∧ stdout w1 = stdout w ∧ write_protected w1 = write_protected w.
Proof.
  unfold open_input. case_decide; [by intros [= <- <-]|].
  destruct (files w !! input); by intros [= <- <-].
Qed.

(** C7: whatever its arguments, the files and the input hold, and whatever
    yajl makes of the input within its contract, [main] with a vector
    without limit does nothing undefined: the read loop stays inside the
    buffer, no callback reads a dangling pointer or pops an empty stack,
    and [state.root] is not null where [generate_json] reads it. *)
Theorem main_no_fault argv w : is_ok (main zero argv w) = true.
Proof.
  unfold main. destruct (argv !! 1%nat) as [input|]; [|done].
  destruct (open_input input w) as [[f w1]|]; [|done].
  destruct (read_file_text zero f) as (s & -> & _ & _). simpl.
  destruct (yajl_run_parse (text_of s)) as (parsed & state & Hrun).
  destruct (yajl_parse (text_of s)) as [evs accepted] eqn:Ep. simpl in Hrun.
  rewrite Hrun. simpl. unfold write_result. case_decide as Hst; [done|].
  apply yajl_complete_parse_ok in Hst as [-> ->].
  destruct (open_output _ w1); [|done].
  destruct (yajl_run_accepted _ _ _ Ep Hrun) as [r ->].
  by destruct (generate_json r yajl_gen_alloc).
Qed.

(** C38: when [main] returns another exit code than 0 it has written
    neither a file nor the standard output. *)
Theorem main_failure_writes_nothing argv w (code : Z) (w' : world B) :
  main zero argv w = Ok (code, w') → code ≠ 0 →
  files w' = files w ∧ stdout w' = stdout w.
Proof.
  unfold main. destruct (argv !! 1%nat) as [input|]; [|by intros [= <- <-]].
  destruct (open_input input w) as [[f w1]|] eqn:Hopen; [|by intros [= <- <-]].
  destruct (open_input_world _ _ _ _ Hopen) as (Hf & Hs & _).
  destruct (read_file_text zero f) as (s & -> & _ & _). simpl.
  destruct (yajl_parse (text_of s)) as [evs accepted].
  destruct (yajl_run evs initial_state) as [[parsed state]|]; [|done]. simpl.
  intros Hres Hcode. destruct (write_result_failed _ _ _ _ _ _ _ _ Hres Hcode) as [msg ->].
  by rewrite <- Hf, <- Hs.
Qed.

(** C39: when yajl does not accept the input, [main] returns 1 and the
    length it gives [yajl_get_error] for the text is [readed], the length
    of the input modulo [READ_BUFSIZE], where the text has the length of
    the input. *)
Theorem main_error_context argv input (f : list B) w w1 (evs : list event) :
  argv !! 1%nat = Some input → open_input input w = Some (f, w1) →
  yajl_parse f = (evs, false) →
  main zero argv w =
  Ok (1, print (parse_error_text input (length f `mod` READ_BUFSIZE)) w1).
Proof.
  intros Harg Hopen Hparse. destruct (yajl_run_parse f) as (parsed & state & Hrun).
  rewrite Hparse in Hrun. rewrite (main_parsed zero _ _ _ _ _ _ _ _ _ Harg Hopen Hparse Hrun).
  unfold write_result. rewrite decide_True; [done|].
  rewrite yajl_complete_parse_ok. by intros [_ ?].
Qed.

(** C40: when the output is the input, for want of a second argument, and
    cannot be opened for writing, [main] returns 1 after [perror] of
    [argv[2]], the null pointer that ends [argv], not of the name that
    failed to open. *)
Theorem main_perror_null (argv0 input : string) (f : list B) w w1 (evs : list event)
    (state : json_data_state) :
  open_input input w = Some (f, w1) → yajl_parse f = (evs, true) →
  yajl_run evs initial_state = Ok (yajl_status_ok, state) → open_output input w1 = None →
  main zero [argv0; input] w = Ok (1, print (perror_text None) w1).
Proof.
  intros Hopen Hparse Hrun Hout.
  rewrite (main_parsed zero [argv0; input] input _ _ _ _ _ _ _ eq_refl Hopen Hparse Hrun).
  unfold write_result. simpl. by rewrite Hout.
Qed.

End main_correct.

(** ** The program with a vector that has a largest size *)

(** [(3 / 2) ^ 88 * 4095] is above [2 ^ 63]. *)
Lemma pow_3_2_88 : (2 ^ 151 ≤ 3 ^ 88 * 4095)%nat.
Proof. apply Nat2Z.inj_le. rewrite Nat2Z.inj_mul, !Nat2Z.inj_pow. by vm_compute. Qed.

Lemma half_again_64 (k M : nat) :
  (M < 2 ^ 63)%nat → (88 ≤ k)%nat → (2 ^ k * M ≤ 3 ^ k * (READ_BUFSIZE - 1))%nat.
Proof.
  intros HM Hk. replace k with (88 + (k - 88))%nat by lia. generalize (k - 88)%nat. intros j.
  rewrite !Nat.pow_add_r. change (READ_BUFSIZE - 1)%nat with 4095%nat.
  etrans; [apply Nat.mul_le_mono_l, Nat.lt_le_incl, HM|].
  rewrite <- (Nat.mul_comm (2 ^ j)), <- Nat.mul_assoc, <- Nat.pow_add_r.
  rewrite <- (Nat.mul_comm (3 ^ j)), <- Nat.mul_assoc.
  apply Nat.mul_le_mono; [by apply Nat.pow_le_mono_l; lia | apply pow_3_2_88].
Qed.

Section main_limited.
Context {B G : Type} (zero : B) (Growth : VectorGrowth) `{!Unlimited Growth} `{Ord : MapOrder}.
Context `{Parse : YajlParse B} `{Gen : YajlGen G} `{Buf : YajlBuf B G} (M : nat).
Implicit Types (argv : list string) (w : world B) (input : string).

#[local] Opaque READ_BUFSIZE.

(** [main] ends in the read loop when the loop asks for more than the
    vector can hold. *)
Lemma main_limited argv input (f : list B) w w1 :
  argv !! 1%nat = Some input → open_input input w = Some (f, w1) →
  (READ_BUFSIZE ≤ M < (sizes READ_BUFSIZE (length f / READ_BUFSIZE + 1)).1)%nat →
  main (Growth := limited M Growth) zero argv w = Err (read_failed length_error).
Proof.
  intros Harg Hopen [HM Hlt]. unfold main. rewrite Harg, Hopen.
  rewrite (read_file_limited_sizes zero Growth M READ_BUFSIZE f READ_BUFSIZE_pos HM).
  by rewrite decide_False by lia.
Qed.

(** With a limit [main] does what it does without, or ends by the
    exception: the limit brings no undefined behaviour. *)
Lemma main_limited_or_same argv w :
  (READ_BUFSIZE ≤ M)%nat →
  main (Growth := limited M Growth) zero argv w = main zero argv w ∨
  main (Growth := limited M Growth) zero argv w = Err (read_failed length_error).
Proof.
  intros HM. unfold main. destruct (argv !! 1%nat) as [input|]; [|by left].
  destruct (open_input input w) as [[f w1]|]; [|by left].
  rewrite (read_file_limited_sizes zero Growth M READ_BUFSIZE f READ_BUFSIZE_pos HM).
  case_decide; [by left | by right].
Qed.

(** C14: where a reallocation of the vector reserves twice its size at
    least and the vector holds [M] bytes at most, [main] ends by an
    uncaught [std::length_error], without parsing, reporting or writing
    anything, on every input of so many chunks [n], the last one
    included, that [READ_BUFSIZE * 2 ^ (n / 2)] is above [M]. *)
Theorem main_length_error `{!Geometric Growth} argv input (f : list B) w w1 :
  argv !! 1%nat = Some input → open_input input w = Some (f, w1) →
  (READ_BUFSIZE ≤ M < READ_BUFSIZE * 2 ^ ((length f / READ_BUFSIZE + 1) / 2))%nat →
  main (Growth := limited M Growth) zero argv w = Err (read_failed length_error).
Proof.
  intros Harg Hopen [HM Hlt]. apply (main_limited argv input f w w1 Harg Hopen).
  pose proof (sizes_geometric READ_BUFSIZE (length f / READ_BUFSIZE + 1)). lia.
Qed.

(** With 64-bit sizes, where [max_size()] is below [2 ^ 63]: every input
    of 101 chunks, 404 KiB, or more. *)
Lemma main_length_error_64 `{!Geometric Growth} argv input (f : list B) w w1 :
  argv !! 1%nat = Some input → open_input input w = Some (f, w1) →
  (READ_BUFSIZE ≤ M < 2 ^ 63)%nat → (101 * READ_BUFSIZE ≤ length f)%nat →
  main (Growth := limited M Growth) zero argv w = Err (read_failed length_error).
Proof.
  intros Harg Hopen [HM Hlt] Hlen. apply (main_limited argv input f w w1 Harg Hopen).
  split; [done|]. eapply Nat.lt_le_trans; [exact Hlt|].
  etrans; [|apply (sizes_geometric READ_BUFSIZE (length f / READ_BUFSIZE + 1))].
  change 63%nat with (12 + 51)%nat. rewrite Nat.pow_add_r, <- READ_BUFSIZE_pow.
  apply Nat.mul_le_mono_l, Nat.pow_le_mono_r; [done|].
  apply Nat.div_le_lower_bound; [done|].
  pose proof (Nat.div_le_lower_bound (length f) READ_BUFSIZE 101) as H.
  pose proof READ_BUFSIZE_pos. lia.
Qed.

(** Where a reallocation reserves half as much again as the capacity:
    every input of such a number [n] of whole chunks that
    [(READ_BUFSIZE - 1) * (3 / 2) ^ n] is [M] or more. *)
Lemma main_length_error_half_again `{!GrowsByHalf Growth} argv input (f : list B) w w1 :
  argv !! 1%nat = Some input → open_input input w = Some (f, w1) → (READ_BUFSIZE ≤ M)%nat →
  (2 ^ (length f / READ_BUFSIZE) * M ≤ 3 ^ (length f / READ_BUFSIZE) * (READ_BUFSIZE - 1))%nat →
  main (Growth := limited M Growth) zero argv w = Err (read_failed length_error).
Proof.
  intros Harg Hopen HM Hlt. apply (main_limited argv input f w w1 Harg Hopen).
  split; [done|]. rewrite Nat.add_1_r.
  apply (Nat.mul_lt_mono_pos_l (2 ^ (length f / READ_BUFSIZE))).
  - apply Nat.neq_0_lt_0, Nat.pow_nonzero. done.
  - eapply Nat.le_lt_trans; [exact Hlt|]. apply sizes_grows_by_half_next, READ_BUFSIZE_pos.
Qed.

(** With 64-bit sizes: every input of 88 chunks, 352 KiB, or more. *)
Lemma main_length_error_half_again_64 `{!GrowsByHalf Growth} argv input (f : list B) w w1 :
  argv !! 1%nat = Some input → open_input input w = Some (f, w1) →
  (READ_BUFSIZE ≤ M < 2 ^ 63)%nat → (88 * READ_BUFSIZE ≤ length f)%nat →
  main (Growth := limited M Growth) zero argv w = Err (read_failed length_error).
Proof.
  intros Harg Hopen [HM Hlt] Hlen.
  apply (main_length_error_half_again argv input f w w1 Harg Hopen HM).
  apply half_again_64; [done|]. apply Nat.div_le_lower_bound; [done | lia].
Qed.

End main_limited.

(** ** The program on texts of tokens *)

Section main_tokens.
Context `{Growth : VectorGrowth} `{!Unlimited Growth} `{Ord : MapOrder}.
Implicit Types (d : json_data) (w : world gen_call) (input : string).

(** On the text of [d], whatever the generator and wherever the input
    comes from and the output goes to. *)
Lemma main_written `{Gen : YajlGen G} `{Buf : YajlBuf gen_call G} d argv input w w1 w2 :
  keys_unique d = true → argv !! 1%nat = Some input →
  open_input input w = Some (calls_of d, w1) →
  open_output (default input (argv !! 2%nat)) w1 = Some w2 →
  main (Parse := token_parse) gen_null argv w =
  Ok (0, fwrite (default input (argv !! 2%nat))
           (yajl_gen_get_buf (generate_json (reorder d) yajl_gen_alloc).2) w2).
Proof.
  intros Hd Harg Hopen Hout.
  rewrite (main_parsed (Parse := token_parse) gen_null argv input (calls_of d) w w1
             (erase <$> events_of (reorder d)) true yajl_status_ok
             (mk_state [] (key_after (reorder d) "") (Some (reorder d))) Harg Hopen);
    [|apply yajl_parse_tokens_calls_of|by apply yajl_run_reorder].
  unfold write_result. simpl. rewrite Hout.
  by destruct (generate_json (reorder d) yajl_gen_alloc).
Qed.

(** An empty input is no text: [main] reports the error and returns 1. *)
Lemma main_empty_input `{Gen : YajlGen G} `{Buf : YajlBuf gen_call G} argv input w w1 :
  argv !! 1%nat = Some input → open_input input w = Some ([], w1) →
  main (Parse := token_parse) gen_null argv w = Ok (1, print (parse_error_text input 0) w1).
Proof.
  intros Harg Hopen.
  by rewrite (main_parsed (Parse := token_parse) gen_null argv input [] w w1 [] false
                yajl_status_ok initial_state Harg Hopen).
Qed.

(** A text that is valid JSON and gives a key first a number and then an
    array with an element: the callbacks cancel the parse, and [main]
    reports a parse error and returns 1. *)
Lemma main_duplicate_key_rejected `{Gen : YajlGen G} `{Buf : YajlBuf gen_call G} argv input
    (k : string) (i j : Z) w w1 :
  argv !! 1%nat = Some input →
  open_input input w =
    Some ([gen_map_open; gen_string k; gen_integer i; gen_string k; gen_array_open;
           gen_integer j; gen_array_close; gen_map_close], w1) →
  main (Parse := token_parse) gen_null argv w = Ok (1, print (parse_error_text input 8) w1).
Proof.
  intros Harg Hopen.
  rewrite (main_parsed (Parse := token_parse) gen_null argv input _ w w1 _ true
             yajl_status_client_canceled
             (mk_state [[Key k]; []] k (Some (JMap [(k, JInteger i)]))) Harg Hopen eq_refl).
  - unfold write_result. by rewrite decide_True.
  - apply (yajl_run_duplicate_scalar_cancels [(k, JInteger i)] k (JInteger i) (JInteger j)
             (yajl_integer j) [yajl_end_array; yajl_end_map]);
      [done | simpl; by rewrite decide_True | done | done | by left].
Qed.

(** From a file to a file, the same one or another. *)
Lemma main_files `{Gen : YajlGen G} `{Buf : YajlBuf gen_call G} d argv input output w :
  keys_unique d = true → argv !! 1%nat = Some input → default input (argv !! 2%nat) = output →
  input ≠ "-" → files w !! input = Some (calls_of d) →
  output ≠ "-" → output ∉ write_protected w →
  main (Parse := token_parse) gen_null argv w =
  Ok (0, mk_world
           (<[output := yajl_gen_get_buf (generate_json (reorder d) yajl_gen_alloc).2]> (files w))
           (write_protected w) (stdin w) (stdout w) (console w)).
Proof.
  intros Hd Harg Hdef Hin Hf Hout Hw.
  pose proof (fwrite_open_output output
                (yajl_gen_get_buf (generate_json (reorder d) yajl_gen_alloc).2) w Hout Hw) as Hwr.
  destruct (open_output output w) as [w2|] eqn:Hopen; [|done]. injection Hwr as <-.
  rewrite <- Hdef in Hopen |- *. apply (main_written d argv input w w w2); [done..| |done].
  unfold open_input. by rewrite decide_False, Hf.
Qed.

(** The output is the input for want of a second argument. *)
Lemma main_tokens `{Gen : YajlGen G} `{Buf : YajlBuf gen_call G} d (argv0 : string) input w :
  keys_unique d = true → input ≠ "-" → files w !! input = Some (calls_of d) →
  input ∉ write_protected w →
  main (Parse := token_parse) gen_null [argv0; input] w =
  Ok (0, mk_world
           (<[input := yajl_gen_get_buf (generate_json (reorder d) yajl_gen_alloc).2]> (files w))
           (write_protected w) (stdin w) (stdout w) (console w)).
Proof. intros. by apply (main_files d _ input). Qed.

(** On a generator that accepts every call. *)
Lemma main_trace d argv input output w :
  keys_unique d = true → argv !! 1%nat = Some input → default input (argv !! 2%nat) = output →
  input ≠ "-" → files w !! input = Some (calls_of d) →
  output ≠ "-" → output ∉ write_protected w →
  main (Parse := token_parse) (Gen := trace_gen) (Buf := trace_buf) gen_null argv w =
  Ok (0, mk_world (<[output := calls_of (reorder d)]> (files w))
           (write_protected w) (stdin w) (stdout w) (console w)).
Proof.
  intros. rewrite (main_files (Buf := trace_buf) d argv input output) by done. simpl.
  by rewrite generate_json_trace.
Qed.

(** C8: given the name of a file that holds the text of a value whose
    objects have pairwise distinct keys, and for the output the name of a
    file that can be written, which is [argv[2]] or, for want of a second
    argument, the input itself, [main] returns 0 and leaves in the output
    the text of the same value with the members of every object in the
    order its map iterates, whatever the file held before; it changes
    nothing else. *)
Theorem main_normalises d argv input output w :
  keys_unique d = true → argv !! 1%nat = Some input → default input (argv !! 2%nat) = output →
  input ≠ "-" → files w !! input = Some (calls_of d) →
  output ≠ "-" → output ∉ write_protected w →
  main (Parse := token_parse) (Gen := trace_gen) (Buf := trace_buf) gen_null argv w =
  Ok (0, mk_world (<[output := calls_of (reorder d)]> (files w))
           (write_protected w) (stdin w) (stdout w) (console w)).
Proof. apply main_trace. Qed.

(** C27: as a filter, with [-] for its only argument, [main] reads the text
    of such a value from the standard input to its end and appends the
    normalised text to the standard output; it returns 0 and touches no
    file. *)
Theorem main_filter d argv w :
  keys_unique d = true → argv !! 1%nat = Some "-" → default "-" (argv !! 2%nat) = "-" →
  stdin w = calls_of d →
  main (Parse := token_parse) (Gen := trace_gen) (Buf := trace_buf) gen_null argv w =
  Ok (0, mk_world (files w) (write_protected w) [] (stdout w ++ calls_of (reorder d))
           (console w)).
Proof.
  intros Hd Harg Hdef Hin.
  rewrite (main_written (Buf := trace_buf) d argv "-" w
             (mk_world (files w) (write_protected w) [] (stdout w) (console w))
             (mk_world (files w) (write_protected w) [] (stdout w) (console w)));
    [|done|done|unfold open_input; simpl; by rewrite Hin|by rewrite Hdef].
  rewrite Hdef. simpl. by rewrite generate_json_trace.
Qed.

(** C25: where the order in which maps iterate is stable, in that a value
    listed in iteration order is listed in the same order again, [main]
    is idempotent on the files it normalises: a second run on the file
    the first run has written returns 0 and changes nothing. *)
Theorem main_idempotent d (argv0 : string) input w :
  keys_unique d = true → reorder (reorder d) = reorder d →
  input ≠ "-" → files w !! input = Some (calls_of d) → input ∉ write_protected w →
  ∃ w1,
    main (Parse := token_parse) (Gen := trace_gen) (Buf := trace_buf) gen_null
      [argv0; input] w = Ok (0, w1) ∧
    main (Parse := token_parse) (Gen := trace_gen) (Buf := trace_buf) gen_null
      [argv0; input] w1 = Ok (0, w1).
Proof.
  intros Hd Hre Hin Hf Hw. eexists. split; [by apply (main_trace d _ input)|].
  rewrite (main_trace (reorder d) _ input input); simpl;
    [|by apply keys_unique_reorder|done..|apply lookup_insert_eq|done|done].
  by rewrite Hre, insert_insert_eq.
Qed.

(** C20: [main] does not look at the status [generate_json] returns: when
    the generator fails at its call number [n], before the value is
    written out, [main] still returns 0 and has replaced the content of
    the file, here the input itself, by the text written so far. *)
Theorem main_writes_partial_output d (n : nat) (argv0 : string) input w :
  keys_unique d = true → input ≠ "-" → files w !! input = Some (calls_of d) →
  input ∉ write_protected w → (n < length (calls_of (reorder d)))%nat →
  main (Parse := token_parse) (Gen := limited_gen) (Buf := limited_buf n) gen_null
    [argv0; input] w =
  Ok (0, mk_world (<[input := take (S n) (calls_of (reorder d))]> (files w))
           (write_protected w) (stdin w) (stdout w) (console w)).
Proof.
  intros Hd Hin Hf Hw Hn. rewrite (main_tokens (Buf := limited_buf n) d) by done. simpl.
  rewrite (generate_json_by_calls (reorder d) (n, [])), for_each_limited.
  by rewrite decide_True.
Qed.

End main_tokens.

(** C26: where maps iterate from their newest entry, [main] lists the
    members of every object in the reverse of the order of the input, and
    a second run on the file the first run has written restores the file
    the first run has read: the output of [main] is not a normal form of
    its input. *)
Theorem main_second_run_restores `{Growth : VectorGrowth} `{!Unlimited Growth}
    (d : json_data) (argv0 : string) (input : string) (w : world gen_call) :
  keys_unique d = true → input ≠ "-" →
  files w !! input = Some (calls_of (Ord := newest_first) d) → input ∉ write_protected w →
  ∃ w1,
    main (Ord := newest_first) (Parse := token_parse) (Gen := trace_gen) (Buf := trace_buf)
      gen_null [argv0; input] w = Ok (0, w1) ∧
    files w1 !! input = Some (calls_of (Ord := newest_first) (reorder (Ord := newest_first) d)) ∧
    main (Ord := newest_first) (Parse := token_parse) (Gen := trace_gen) (Buf := trace_buf)
      gen_null [argv0; input] w1 = Ok (0, w).
Proof.
  intros Hd Hin Hf Hw. eexists. split_and!.
  - by apply (main_trace (Ord := newest_first) d _ input).
  - apply lookup_insert_eq.
  - rewrite (main_trace (Ord := newest_first) (reorder (Ord := newest_first) d) _ input input);
      simpl; [|by apply keys_unique_reorder|done..|apply lookup_insert_eq|done|done].
    rewrite reorder_newest_first, insert_insert_eq, insert_id by done. by destruct w.
Qed.

(** ** The theorems at concrete worlds *)

(** The text [[] with its end missing. *)
Lemma main_no_fault_witness :
  is_ok (main (Growth := doubling_growth) (Ord := insertion_order) (Parse := token_parse)
           (Gen := trace_gen) (Buf := trace_buf) gen_null ["rjson"; "in.json"]
           (mk_world {["in.json" := [gen_array_open]]} [] [] [] [])) = true.
Proof.
  apply (main_no_fault (Growth := doubling_growth) (Ord := insertion_order)
           (Parse := token_parse) (Gen := trace_gen) (Buf := trace_buf) gen_null
           ["rjson"; "in.json"] (mk_world {["in.json" := [gen_array_open]]} [] [] [] [])).
Defined.

(** A file of 4096 tokens, one chunk, in a vector that holds 8191: the
    second [resize] asks for 12288. *)
Lemma main_length_error_witness :
  main (Growth := limited (2 * READ_BUFSIZE - 1) size_doubling_growth) (Ord := insertion_order)
    (Parse := token_parse) (Gen := trace_gen) (Buf := trace_buf) gen_null ["rjson"; "in.json"]
    (mk_world {["in.json" := replicate READ_BUFSIZE gen_null]} [] [] [] []) =
  Err (read_failed length_error).
Proof.
  apply (main_length_error (Parse := token_parse) (Gen := trace_gen) (Buf := trace_buf)
           gen_null size_doubling_growth (2 * READ_BUFSIZE - 1) ["rjson"; "in.json"] "in.json"
           (replicate READ_BUFSIZE gen_null)
           (mk_world {["in.json" := replicate READ_BUFSIZE gen_null]} [] [] [] [])
           (mk_world {["in.json" := replicate READ_BUFSIZE gen_null]} [] [] [] [])).
  - reflexivity.
  - unfold open_input. rewrite decide_False by done. cbn [files].
    by rewrite lookup_singleton_eq.
  - rewrite length_replicate. split; [apply Nat.leb_le | apply Nat.ltb_lt]; by vm_compute.
Defined.

(** No argument: the usage is printed. *)
Lemma main_failure_writes_nothing_witness :
  files (print (usage_text (Some "rjson")) (mk_world (B := gen_call) ∅ [] [] [] [])) =
    files (mk_world (B := gen_call) ∅ [] [] [] []) ∧
  stdout (print (usage_text (Some "rjson")) (mk_world (B := gen_call) ∅ [] [] [] [])) =
    stdout (mk_world (B := gen_call) ∅ [] [] [] []).
Proof.
  apply (main_failure_writes_nothing (Growth := doubling_growth) (Ord := insertion_order)
           (Parse := token_parse) (Gen := trace_gen) (Buf := trace_buf)
           gen_null ["rjson"] (mk_world ∅ [] [] [] []) 1).
  - reflexivity.
  - discriminate.
Defined.

(** The text [[] with its end missing. *)
Lemma main_error_context_witness :
  main (Growth := doubling_growth) (Ord := insertion_order) (Parse := token_parse)
    (Gen := trace_gen) (Buf := trace_buf) gen_null ["rjson"; "in.json"]
    (mk_world {["in.json" := [gen_array_open]]} [] [] [] []) =
  Ok (1, print (parse_error_text "in.json" (length [gen_array_open] `mod` READ_BUFSIZE))
           (mk_world {["in.json" := [gen_array_open]]} [] [] [] [])).
Proof.
  apply (main_error_context (Parse := token_parse) gen_null ["rjson"; "in.json"] "in.json"
           [gen_array_open] _ _ [yajl_start_array 0]).
  - reflexivity.
  - unfold open_input. simpl. by rewrite lookup_singleton_eq.
  - reflexivity.
Defined.

(** The input [null] in a file that cannot be written. *)
Lemma main_perror_null_witness :
  main (Growth := doubling_growth) (Ord := insertion_order) (Parse := token_parse)
    (Gen := trace_gen) (Buf := trace_buf) gen_null ["rjson"; "in.json"]
    (mk_world {["in.json" := [gen_null]]} ["in.json"] [] [] []) =
  Ok (1, print (perror_text None) (mk_world {["in.json" := [gen_null]]} ["in.json"] [] [] [])).
Proof.
  apply (main_perror_null (Parse := token_parse) gen_null "rjson" "in.json" [gen_null] _ _
           [yajl_null] (mk_state [] "" (Some JNull))).
  - unfold open_input. simpl. by rewrite lookup_singleton_eq.
  - reflexivity.
  - reflexivity.
  - reflexivity.
Defined.

(** [{"b":1,"a":null}] with a map that iterates from its newest entry,
    from one file to another. *)
Lemma main_normalises_witness :
  main (Growth := doubling_growth) (Ord := newest_first) (Parse := token_parse)
    (Gen := trace_gen) (Buf := trace_buf) gen_null ["rjson"; "in.json"; "out.json"]
    (mk_world {["in.json" := calls_of (Ord := newest_first)
                               (JMap [("b", JInteger 1); ("a", JNull)])]} [] [] [] []) =
  Ok (0, mk_world
           (<["out.json" := calls_of (Ord := newest_first)
                              (reorder (Ord := newest_first)
                                 (JMap [("b", JInteger 1); ("a", JNull)]))]>
              {["in.json" := calls_of (Ord := newest_first)
                               (JMap [("b", JInteger 1); ("a", JNull)])]})
           [] [] [] []).
Proof.
  refine (main_normalises (Growth := doubling_growth) (Ord := newest_first)
            (JMap [("b", JInteger 1); ("a", JNull)]) ["rjson"; "in.json"; "out.json"]
            "in.json" "out.json"
            (mk_world {["in.json" := calls_of (Ord := newest_first)
                                       (JMap [("b", JInteger 1); ("a", JNull)])]} [] [] [] [])
            _ _ _ _ _ _ _).
  - reflexivity.
  - reflexivity.
  - reflexivity.
  - discriminate.
  - apply lookup_singleton_eq.
  - discriminate.
  - apply not_elem_of_nil.
Defined.

(** [{"b":1,"a":null}], generated from its newest member: the file holds
    [{"a":null,"b":1}], then [{"b":1,"a":null}], then the first text. *)
Lemma main_second_run_restores_witness :
  ∃ w1,
    main (Growth := doubling_growth) (Ord := newest_first) (Parse := token_parse)
      (Gen := trace_gen) (Buf := trace_buf) gen_null ["rjson"; "in.json"]
      (mk_world {["in.json" := [gen_map_open; gen_string "a"; gen_null; gen_string "b";
                               gen_integer 1; gen_map_close]]} [] [] [] []) = Ok (0, w1) ∧
    files w1 !! "in.json" =
      Some (calls_of (Ord := newest_first)
              (reorder (Ord := newest_first) (JMap [("b", JInteger 1); ("a", JNull)]))) ∧
    main (Growth := doubling_growth) (Ord := newest_first) (Parse := token_parse)
      (Gen := trace_gen) (Buf := trace_buf) gen_null ["rjson"; "in.json"] w1 =
    Ok (0, mk_world {["in.json" := [gen_map_open; gen_string "a"; gen_null; gen_string "b";
                                    gen_integer 1; gen_map_close]]} [] [] [] []).
Proof.
  refine (main_second_run_restores (Growth := doubling_growth)
            (JMap [("b", JInteger 1); ("a", JNull)]) "rjson" "in.json"
            (mk_world {["in.json" := [gen_map_open; gen_string "a"; gen_null; gen_string "b";
                                      gen_integer 1; gen_map_close]]} [] [] [] [])
            _ _ _ _).
  - reflexivity.
  - discriminate.
  - apply lookup_singleton_eq.
  - apply not_elem_of_nil.
Defined.

(** The same text on the standard input. *)
Lemma main_filter_witness :
  main (Growth := doubling_growth) (Ord := newest_first) (Parse := token_parse)
    (Gen := trace_gen) (Buf := trace_buf) gen_null ["rjson"; "-"]
    (mk_world ∅ []
       (calls_of (Ord := newest_first) (JMap [("b", JInteger 1); ("a", JNull)])) [] []) =
  Ok (0, mk_world ∅ [] []
           ([] ++ calls_of (Ord := newest_first)
                    (reorder (Ord := newest_first) (JMap [("b", JInteger 1); ("a", JNull)])))
           []).
Proof.
  refine (main_filter (Growth := doubling_growth) (Ord := newest_first)
            (JMap [("b", JInteger 1); ("a", JNull)]) ["rjson"; "-"]
            (mk_world ∅ []
               (calls_of (Ord := newest_first) (JMap [("b", JInteger 1); ("a", JNull)])) [] [])
            _ _ _ _); reflexivity.
Defined.

(** The same input on a generator that fails at its third call. *)
Lemma main_writes_partial_output_witness :
  main (Growth := doubling_growth) (Ord := insertion_order) (Parse := token_parse)
    (Gen := limited_gen) (Buf := limited_buf 2) gen_null ["rjson"; "in.json"]
    (mk_world {["in.json" := calls_of (Ord := insertion_order)
                               (JMap [("b", JInteger 1); ("a", JNull)])]} [] [] [] []) =
  Ok (0, mk_world
           (<["in.json" := take 3 (calls_of (Ord := insertion_order)
                                     (reorder (Ord := insertion_order)
                                        (JMap [("b", JInteger 1); ("a", JNull)])))]>
              {["in.json" := calls_of (Ord := insertion_order)
                               (JMap [("b", JInteger 1); ("a", JNull)])]})
           [] [] [] []).
Proof.
  refine (main_writes_partial_output (Growth := doubling_growth) (Ord := insertion_order)
            (JMap [("b", JInteger 1); ("a", JNull)]) 2 "rjson" "in.json"
            (mk_world {["in.json" := calls_of (Ord := insertion_order)
                                       (JMap [("b", JInteger 1); ("a", JNull)])]} [] [] [] [])
            _ _ _ _ _).
  - reflexivity.
  - discriminate.
  - apply lookup_singleton_eq.
  - apply not_elem_of_nil.
  - simpl. lia.
Defined.

(** [{"b":1,"a":null}] with a map that iterates in insertion order. *)
Lemma main_idempotent_witness :
  ∃ w1,
    main (Growth := doubling_growth) (Ord := insertion_order) (Parse := token_parse)
      (Gen := trace_gen) (Buf := trace_buf) gen_null ["rjson"; "in.json"]
      (mk_world {["in.json" := calls_of (Ord := insertion_order)
                                 (JMap [("b", JInteger 1); ("a", JNull)])]} [] [] [] []) =
    Ok (0, w1) ∧
    main (Growth := doubling_growth) (Ord := insertion_order) (Parse := token_parse)
      (Gen := trace_gen) (Buf := trace_buf) gen_null ["rjson"; "in.json"] w1 = Ok (0, w1).
Proof.
  refine (main_idempotent (Growth := doubling_growth) (Ord := insertion_order)
            (JMap [("b", JInteger 1); ("a", JNull)]) "rjson" "in.json"
            (mk_world {["in.json" := calls_of (Ord := insertion_order)
                                       (JMap [("b", JInteger 1); ("a", JNull)])]} [] [] [] [])
            _ _ _ _ _).
  - reflexivity.
  - reflexivity.
  - discriminate.
  - apply lookup_singleton_eq.
  - apply not_elem_of_nil.
Defined.
