(* ===== verification/Resources.v ===== *)
(** * Resources: the handles of [main], from their allocation to their release

    [main] holds six things it has to give back: the stream of the input
    ([fopen], [fclose]), the stream of the output, the parser
    ([yajl_alloc], [yajl_free]), the text of a parse error
    ([yajl_get_error], [yajl_free_error]), the generator
    ([yajl_gen_alloc], [yajl_gen_free]) and the tree, which [insert]
    allocates with [new] at the first value.  The standard streams are not
    opened by the program and are left out.

    [main_run] is [main] once more, with the [ledger] of what each
    statement does to these handles, in the order of the source; its exit
    code and its world are those of [main] ([main_run_result]).
    [live_after] replays a ledger: it fails on a handle that is acquired
    while live, or used or released while not, and yields the handles live
    at the end.

    The theorem: on every path on which [main] returns, which are all its
    paths where the vector has no limit, it uses a handle only between
    its allocation and its release, releases none twice, and returns with
    nothing live but the tree, which no path deletes. *)

From Stdlib Require Import ZArith Lia.
From stdpp Require Import base tactics option list strings gmap.
From S2P Require Import Prelude Containers Value Pointer Builder Parser Invariant Equiv.
From S2P Require Import Generator RoundTrip ReadLoop Main.

#[local] Open Scope Z_scope.

(** ** Handles and what happens to them *)

Inductive resource : Set :=
| input_file      (** [f], from [fopen(argv[1], "rb")] *)
| output_file     (** [f], from [fopen(output, "wb")] *)
| parser_handle   (** [hand], from [yajl_alloc] *)
| error_text      (** [str], from [yajl_get_error] *)
| generator       (** [gen], from [yajl_gen_alloc] *)
| tree.           (** [state.root], from [new json_data] *)

#[export] Instance resource_eq_dec : EqDecision resource.
Proof. solve_decision. Defined.

Inductive resource_event : Set :=
| acquire (r : resource)
| access (r : resource)
| release (r : resource).

Definition ledger : Set := list resource_event.

(** The handles live after an event, when the event is legal. *)
Definition live_step (live : list resource) (e : resource_event) : option (list resource) :=
  match e with
  | acquire r => if decide (r ∈ live) then None else Some (r :: live)
  | access r => if decide (r ∈ live) then Some live else None
  | release r => if decide (r ∈ live) then Some (filter (.≠ r) live) else None
  end.

Fixpoint live_after (live : list resource) (l : ledger) : option (list resource) :=
  match l with
  | [] => Some live
  | e :: l => live_step live e ≫= λ live', live_after live' l
  end.

(** ** [main] with its ledger *)

(** [strcmp(name, "-") == 0 ? std... : fopen(name, ...)], once it succeeded *)
Definition opened (name : string) (r : resource) : ledger :=
  if decide (name = "-") then [] else [acquire r].

(** [fread] or [fwrite] on the stream *)
Definition streamed (name : string) (r : resource) : ledger :=
  if decide (name = "-") then [] else [access r].

(** [if (f != std...) fclose(f)] *)
Definition closed (name : string) (r : resource) : ledger :=
  if decide (name = "-") then [] else [release r].

(** [yajl_parse]: the callbacks, of which the first [insert] allocates the
    tree. *)
Definition parsed (state : json_data_state) : ledger :=
  access parser_handle :: (if root state is Some _ then [acquire tree] else []).

(** [main] from [fopen] of the input to [yajl_complete_parse]. *)
Definition read_and_parsed (input : string) (state : json_data_state) : ledger :=
  opened input input_file ++
  [acquire parser_handle; access parser_handle] ++   (* yajl_alloc, yajl_config *)
  streamed input input_file ++ closed input input_file ++
  parsed state ++
  [access parser_handle].                            (* yajl_complete_parse *)

Section main_run.
Context {B G : Type} (zero : B) `{Growth : VectorGrowth} `{Ord : MapOrder}.
Context `{Parse : YajlParse B} `{Gen : YajlGen G} `{Buf : YajlBuf B G}.

(** [main] from the test of [status] on. *)
Definition write_result_run (argv : list string) (input : string) (status : yajl_status)
    (jsonTextLen : nat) (state : json_data_state) (w : world B) :
    res main_fault (Z * world B * ledger) :=
  if decide (status ≠ yajl_status_ok) then
    Ok (1, print (parse_error_text input jsonTextLen) w,
        [access parser_handle; acquire error_text;   (* yajl_get_error *)
         access error_text;                          (* fprintf *)
         access parser_handle; release error_text;   (* yajl_free_error *)
         release parser_handle])                     (* yajl_free *)
  else
    let output := default input (argv !! 2%nat) in
    match open_output output w with
    | None => Ok (1, print (perror_text (argv !! 2%nat)) w, [release parser_handle])
    | Some w' =>
        match root state with
        | None => Err null_root
        | Some r =>
            let '(_, gen) := generate_json r yajl_gen_alloc in
            Ok (0, fwrite output (yajl_gen_get_buf gen) w',
                release parser_handle :: opened output output_file ++
                [acquire generator; access generator;  (* yajl_gen_alloc, yajl_gen_config *)
                 access generator; access tree;        (* generate_json *)
                 access generator] ++                  (* yajl_gen_get_buf *)
                access generator :: streamed output output_file ++   (* fwrite of genbuf *)
                release generator :: closed output output_file)
        end
    end.

(** [main(argc, argv)] *)
Definition main_run (argv : list string) (w : world B) : res main_fault (Z * world B * ledger) :=
  match argv !! 1%nat with
  | None => Ok (1, print (usage_text (argv !! 0%nat)) w, [])
  | Some input =>
      match open_input input w with
      | None => Ok (1, print (perror_text (Some input)) w, [])
      | Some (f, w1) =>
          s ← lift read_failed (read_file zero READ_BUFSIZE f);
          let '(evs, accepted) := yajl_parse (text_of s) in
          '(parsed_status, state) ← lift callback_failed (yajl_run evs initial_state);
          '(code, w', l) ← write_result_run argv input
                             (yajl_complete_parse parsed_status accepted) (readed s) state w1;
          Ok (code, w', read_and_parsed input state ++ l)
      end
  end.

(** The exit code and the world of a run. *)
Definition result_of (m : res main_fault (Z * world B * ledger)) : res main_fault (Z * world B) :=
  match m with
  | Ok (code, w, _) => Ok (code, w)
  | Err e => Err e
  end.

#[local] Opaque READ_BUFSIZE.

(** ** The ledger does not change what [main] does *)

Lemma write_result_run_result argv input status len state w :
  result_of (write_result_run argv input status len state w) =
  write_result argv input status len state w.
Proof.
  unfold write_result_run, write_result. case_decide; [done|].
  destruct (open_output _ w); [|done]. destruct (root state); [|done].
  by destruct (generate_json _ _).
Qed.

Lemma main_run_result argv w : result_of (main_run argv w) = main zero argv w.
Proof.
  unfold main_run, main. destruct (argv !! 1%nat) as [input|]; [|done].
  destruct (open_input input w) as [[f w1]|]; [|done].
  destruct (read_file zero READ_BUFSIZE f) as [s|]; [|done]. simpl.
  destruct (yajl_parse (text_of s)) as [evs accepted].
  destruct (yajl_run evs initial_state) as [[parsed_status state]|]; [|done]. simpl.
  rewrite <- write_result_run_result.
  by destruct (write_result_run _ _ _ _ _ _) as [[[code w'] l]|].
Qed.

(** ** Replaying a ledger *)

Lemma live_after_app live l1 l2 :
  live_after live (l1 ++ l2) = live_after live l1 ≫= λ live', live_after live' l2.
Proof.
  revert live. induction l1 as [|e l1 IH]; intros live; simpl; [done|].
  destruct (live_step live e); simpl; [apply IH | done].
Qed.

(** What a ledger that replays says of each of its events. *)
Lemma live_after_event live l1 e l2 live' :
  live_after live (l1 ++ e :: l2) = Some live' →
  ∃ live1 live2,
    live_after live l1 = Some live1 ∧ live_step live1 e = Some live2 ∧
    live_after live2 l2 = Some live'.
Proof.
  rewrite live_after_app. destruct (live_after live l1) as [live1|]; [|done]. simpl.
  destruct (live_step live1 e) as [live2|] eqn:He; [|done]. simpl. by exists live1, live2.
Qed.

(** No use after the release, or before the allocation. *)
Lemma live_after_access live l1 r l2 live' :
  live_after live (l1 ++ access r :: l2) = Some live' →
  ∃ live1, live_after live l1 = Some live1 ∧ r ∈ live1.
Proof.
  intros (live1 & live2 & Hl1 & He & _)%live_after_event. exists live1. split; [done|].
  simpl in He. by case_decide.
Qed.

(** No release of what is not live, and what is released is live no more:
    no release twice. *)
Lemma live_after_release live l1 r l2 live' :
  live_after live (l1 ++ release r :: l2) = Some live' →
  ∃ live1, live_after live l1 = Some live1 ∧ r ∈ live1 ∧
           live_after (filter (.≠ r) live1) l2 = Some live' ∧ r ∉ filter (.≠ r) live1.
Proof.
  intros (live1 & live2 & Hl1 & He & Hl2)%live_after_event. exists live1.
  simpl in He. case_decide; [|done]. injection He as <-. split_and!; [done..|].
  rewrite list_elem_of_filter. by intros [? _].
Qed.

(** Up to the end of the parse: the parser is live, and the tree when
    there is one. *)
Lemma live_after_parse input (state : json_data_state) :
  live_after [] (read_and_parsed input state) =
  Some (if root state is Some _ then [tree; parser_handle] else [parser_handle]).
Proof.
  unfold read_and_parsed, opened, streamed, closed, parsed.
  by destruct (decide (input = "-")), (root state).
Qed.

(** From there on: what [write_result_run] records releases the parser
    and all it acquires, and needs the tree only where there is one. *)
Lemma write_result_run_live argv input status len state w code w' l :
  write_result_run argv input status len state w = Ok (code, w', l) →
  live_after (if root state is Some _ then [tree; parser_handle] else [parser_handle]) l =
  Some (if root state is Some _ then [tree] else []) ∧
  (code = 0 → is_Some (root state)).
Proof.
  unfold write_result_run. case_decide.
  { intros [= <- <- <-]. by destruct (root state). }
  destruct (open_output _ w); [|intros [= <- <- <-]; by destruct (root state)].
  destruct (root state) as [r|]; [|done].
  destruct (generate_json r yajl_gen_alloc). intros [= <- <- <-].
  unfold opened, streamed, closed. split; [|by eexists].
  by destruct (decide (default input (argv !! 2%nat) = "-")).
Qed.

End main_run.

(** ** The theorem of the component *)

Section releases.
Context {B G : Type} (zero : B) `{Growth : VectorGrowth} `{!Unlimited Growth}.
Context `{Ord : MapOrder}.
Context `{Parse : YajlParse B} `{Gen : YajlGen G} `{Buf : YajlBuf B G}.

#[local] Opaque READ_BUFSIZE.

(** C24: on every path through [main] with a vector without limit,
    whatever the arguments, the files and the input, each of the streams, the parser, the error text and the
    generator is used only between its allocation and its release and is
    released exactly once before [main] returns; the tree is the only
    thing left live, and it is left live whenever [main] returns 0, for
    the program has no [delete]. *)
Theorem main_releases (argv : list string) (w : world B) :
  ∃ code w' l leaked,
    main zero argv w = Ok (code, w') ∧ main_run zero argv w = Ok (code, w', l) ∧
    live_after [] l = Some leaked ∧ leaked ⊆ [tree] ∧ (code = 0 → leaked = [tree]).
Proof.
  pose proof (main_run_result zero argv w) as Hres. revert Hres. unfold main_run.
  destruct (argv !! 1%nat) as [input|];
    [|intros <-; eexists 1, _, [], []; split_and!; [done..|set_solver|done]].
  destruct (open_input input w) as [[f w1]|];
    [|intros <-; eexists 1, _, [], []; split_and!; [done..|set_solver|done]].
  destruct (read_file_text zero f) as (s & -> & _ & _). simpl.
  destruct (yajl_run_parse (text_of s)) as (parsed_status & state & Hrun).
  destruct (yajl_parse (text_of s)) as [evs accepted] eqn:Ep. simpl in Hrun.
  rewrite Hrun. simpl.
  destruct (write_result_run _ _ _ _ _ _) as [[[code w'] l]|e] eqn:Hwr; simpl.
  - intros <-. destruct (write_result_run_live _ _ _ _ _ _ _ _ _ Hwr) as [Hlive Hcode].
    eexists code, w', _, _. split_and!; [done..| | |].
    + rewrite live_after_app, live_after_parse. apply Hlive.
    + destruct (root state); set_solver.
    + intros [r ->]%Hcode. done.
  - intros _. exfalso. unfold write_result_run in Hwr. case_decide as Hst; [done|].
    apply yajl_complete_parse_ok in Hst as [-> ->].
    destruct (open_output _ w1); [|done].
    destruct (yajl_run_accepted _ _ _ Ep Hrun) as [r Hr]. rewrite Hr in Hwr.
    by destruct (generate_json r yajl_gen_alloc).
Qed.

End releases.

(** The text [[] with its end missing: the parser, the error text and the
    input are given back, and no tree was made. *)
Lemma main_releases_witness :
  ∃ code w' l leaked,
    main (Growth := doubling_growth) (Ord := insertion_order) (Parse := token_parse)
      (Gen := trace_gen) (Buf := trace_buf) gen_null ["rjson"; "in.json"]
      (mk_world {["in.json" := [gen_array_open]]} [] [] [] []) = Ok (code, w') ∧
    main_run (Growth := doubling_growth) (Ord := insertion_order) (Parse := token_parse)
      (Gen := trace_gen) (Buf := trace_buf) gen_null ["rjson"; "in.json"]
      (mk_world {["in.json" := [gen_array_open]]} [] [] [] []) = Ok (code, w', l) ∧
    live_after [] l = Some leaked ∧ leaked ⊆ [tree] ∧ (code = 0 → leaked = [tree]).
Proof.
  apply (main_releases (Growth := doubling_growth) (Ord := insertion_order)
           (Parse := token_parse) (Gen := trace_gen) (Buf := trace_buf) gen_null
           ["rjson"; "in.json"] (mk_world {["in.json" := [gen_array_open]]} [] [] [] [])).
Defined.
