(* ===== verification/Spec.v ===== *)
(** * Spec: the builder of the specification, and the callbacks against it

    The specification describes the builder as a state machine over the
    events: a stack of handles to the open containers, a buffer for the
    last key that is emptied when the key is used, and a root slot.  Each
    event is checked against the state and fails with one of four errors;
    a value under a key the object already has replaces the earlier value.
    [spec_step] is that machine, on the same handles and trees as the
    callbacks, and [spec_build] runs it and applies the check at the end
    of the events.

    The callbacks make none of these checks.  [simulates] relates a state
    of the specification to a state of the callbacks; as long as the
    specification accepts the events and no value replaces another
    ([fresh_run]), the callbacks follow it step by step
    ([reader_cb_simulates]) and build the same tree
    ([yajl_run_refines_spec]).  Where the specification fails, or a key is
    repeated, they part: [spec_last_write_wins],
    [reader_cb_unchecked]. *)

From Stdlib Require Import ZArith Lia.
From stdpp Require Import base tactics option list strings.
From S2P Require Import Prelude Containers Value Pointer Builder Parser.

#[local] Open Scope Z_scope.

(** The failures of a build. *)
Inductive build_error : Set :=
| UnexpectedToken
| UnbalancedContainer
| MultipleTopLevelValues
| TruncatedInput.

#[export] Instance build_error_eq_dec : EqDecision build_error.
Proof. solve_decision. Defined.

Record spec_state : Type := mk_spec {
  handles : list ptr;
  key_buffer : option string;
  root_slot : option json_data;
}.

Definition spec_initial : spec_state := mk_spec [] None None.

(** Insert-or-replace of a value under a key. *)
Definition map_insert_or_replace (k : string) (v : json_data) (m : list (string * json_data)) :
    list (string * json_data) :=
  match map_at k m with
  | Some _ => map_alter (λ _, v) k m
  | None => m ++ [(k, v)]
  end.

(** The container the next value goes into; [None] while none is open. *)
Definition target (s : spec_state) : option json_data :=
  head (handles s) ≫= λ cur, root_slot s ≫= deref cur.

(** The insertion of a value: at the root, at the end of the array on top
    of the stack, or under the buffered key of the object on top. *)
Definition spec_insert (v : json_data) (s : spec_state) : res build_error (ptr * spec_state) :=
  match handles s, root_slot s with
  | [], Some _ => Err MultipleTopLevelValues
  | [], None => Ok ([], mk_spec [] (key_buffer s) (Some v))
  | cur :: _, Some r =>
      match deref cur r, key_buffer s with
      | Some (JArray l), _ =>
          Ok (cur ++ [Idx (length l)],
              mk_spec (handles s) (key_buffer s) (Some (store cur (JArray (l ++ [v])) r)))
      | Some (JMap m), Some k =>
          Ok (cur ++ [Key k],
              mk_spec (handles s) None (Some (store cur (JMap (map_insert_or_replace k v m)) r)))
      | _, _ => Err UnexpectedToken
      end
  | _ :: _, None => Err UnexpectedToken
  end.

(** The end of a container of the kind [t]. *)
Definition spec_end (t : json_type) (s : spec_state) : res build_error spec_state :=
  match target s with
  | Some c =>
      if decide (type c = t) then Ok (mk_spec (tail (handles s)) (key_buffer s) (root_slot s))
      else Err UnbalancedContainer
  | None => Err UnbalancedContainer
  end.

(** One event. *)
Definition spec_step (e : event) (s : spec_state) : res build_error spec_state :=
  match e with
  | yajl_map_key k _ =>
      match target s with
      | Some (JMap _) => Ok (mk_spec (handles s) (Some k) (root_slot s))
      | _ => Err UnexpectedToken
      end
  | yajl_end_map => spec_end json_type_map s
  | yajl_end_array => spec_end json_type_array s
  | yajl_start_map _ | yajl_start_array _ =>
      '(h, s') ← spec_insert (default JNull (container_of e)) s;
      Ok (mk_spec (h :: handles s') (key_buffer s') (root_slot s'))
  | _ => '(_, s') ← spec_insert (default JNull (scalar_of e)) s; Ok s'
  end.

Fixpoint spec_run (evs : list event) (s : spec_state) : res build_error spec_state :=
  match evs with
  | [] => Ok s
  | e :: evs' => spec_step e s ≫= spec_run evs'
  end.

(** The check at the end of the events. *)
Definition spec_finish (s : spec_state) : res build_error json_data :=
  match handles s, root_slot s with
  | [], Some r => Ok r
  | _, _ => Err TruncatedInput
  end.

Definition spec_build (evs : list event) : res build_error json_data :=
  spec_run evs spec_initial ≫= spec_finish.

(** [e] does not put a value under a key its object already has. *)
Definition fresh_step (e : event) (s : spec_state) : bool :=
  match target s, key_buffer s, e with
  | _, _, (yajl_map_key _ _ | yajl_end_map | yajl_end_array) => true
  | Some (JMap m), Some k, _ => bool_decide (map_at k m = None)
  | _, _, _ => true
  end.

Fixpoint fresh_run (evs : list event) (s : spec_state) : bool :=
  match evs with
  | [] => true
  | e :: evs' =>
      fresh_step e s && match spec_step e s with
                        | Ok s' => fresh_run evs' s'
                        | Err _ => true
                        end
  end.

(** A state of the callbacks that stands for the state [s] of the
    specification: the same stack and tree, and the buffered key, if there
    is one, in [tempKey]. *)
Definition simulates (s : spec_state) (st : json_data_state) : Prop :=
  stack st = handles s ∧ root st = root_slot s ∧
  ∀ k, key_buffer s = Some k → tempKey st = k.

(** The next value replaces no member. *)
Definition fresh_value (s : spec_state) : Prop :=
  match target s, key_buffer s with
  | Some (JMap m), Some k => map_at k m = None
  | _, _ => True
  end.

(** ** The simulation *)

Section simulation.
Implicit Types (e : event) (v : json_data) (s : spec_state) (st : json_data_state).
Implicit Types (h : ptr) (evs : list event).

Lemma spec_step_scalar e v s :
  scalar_of e = Some v → spec_step e s = '(_, s') ← spec_insert v s; Ok s'.
Proof. by destruct e; intros [= <-]. Qed.

Lemma spec_step_container e v s :
  container_of e = Some v →
  spec_step e s =
  '(h, s') ← spec_insert v s; Ok (mk_spec (h :: handles s') (key_buffer s') (root_slot s')).
Proof. by destruct e; intros [= <-]. Qed.

Lemma fresh_step_value e s :
  is_Some (scalar_of e) ∨ is_Some (container_of e) → fresh_step e s = true → fresh_value s.
Proof.
  unfold fresh_step, fresh_value. intros He.
  destruct (target s) as [[| | | | |m|l]|], (key_buffer s) as [k|]; try done;
    destruct e, He as [[? ?]|[? ?]]; simplify_eq/=; by intros ?%bool_decide_eq_true.
Qed.

(** A value callback follows the insertion of the specification. *)
Lemma value_cb_simulates (b : bool) v s st h s' :
  simulates s st → spec_insert v s = Ok (h, s') → fresh_value s →
  ∃ st', value_cb b v st = Ok (1, st') ∧
         simulates (mk_spec ((if b then [h] else []) ++ handles s') (key_buffer s')
                      (root_slot s')) st'.
Proof.
  destruct st as [stk tk ro], s as [hs kb rs]. intros (Hs & Hr & Hk). simpl in *. subst.
  unfold spec_insert, fresh_value, target. simpl.
  destruct hs as [|cur hs], rs as [r|]; try done; simpl.
  { intros [= <- <-] _. rewrite value_cb_initial. by eexists. }
  destruct (deref cur r) as [[| | | | |m|l]|] eqn:Ec; try done.
  - destruct kb as [k|]; [|done]. intros [= <- <-] Hfresh. rewrite (Hk k eq_refl).
    rewrite (value_cb_open _ _ _ _ _ _ _ (Key k) Ec) by done. eexists. split; [done|].
    unfold map_insert_or_replace. simpl. rewrite (map_emplace_fresh _ _ _ Hfresh), Hfresh.
    by split_and!.
  - intros [= <- <-] _. rewrite (value_cb_open _ _ _ _ _ _ _ (Idx (length l)) Ec) by done.
    eexists. split; [done|]. by split_and!.
Qed.

Lemma spec_end_simulates (t : json_type) s st s' :
  simulates s st → spec_end t s = Ok s' →
  ∃ st', (st1 ← pop st; mret (1, st1)) = Ok (1, st') ∧ simulates s' st'.
Proof.
  destruct st as [stk tk ro], s as [hs kb rs]. intros (Hs & Hr & Hk). simpl in *. subst.
  unfold spec_end, target, pop. simpl. destruct hs as [|cur hs]; [done|]. simpl.
  destruct_ok (rs ≫= deref cur) as c. case_decide; [|done].
  intros [= <-]. eexists. split; [done|]. by split_and!.
Qed.

(** The callback of an event the specification accepts follows it. *)
Lemma reader_cb_simulates e s st s' :
  simulates s st → spec_step e s = Ok s' → fresh_step e s = true →
  ∃ st', reader_cb e st = Ok (1, st') ∧ simulates s' st'.
Proof.
  intros Hsim. destruct (event_cases e) as [[v Hv]|[[v Hv]|[(k & c & ->)|[-> | ->]]]].
  - rewrite (spec_step_scalar _ _ _ Hv), (reader_cb_scalar _ _ _ Hv). intros Hstep Hf.
    destruct (spec_insert v s) as [[h s1]|] eqn:E; simplify_eq/=.
    apply (value_cb_simulates false v s st h s'); eauto using fresh_step_value.
  - rewrite (spec_step_container _ _ _ Hv), (reader_cb_container _ _ _ Hv). intros Hstep Hf.
    destruct (spec_insert v s) as [[h s1]|] eqn:E; simplify_eq/=.
    apply (value_cb_simulates true v s st h s1); eauto using fresh_step_value.
  - simpl. destruct Hsim as (Hs & Hr & Hk). destruct (target s) as [[| | | | |m|l]|]; try done.
    intros [= <-] _. eexists. split; [done|]. split_and!; simpl; try done. by intros ? [= ->].
  - intros Hstep _. by apply (spec_end_simulates json_type_map s).
  - intros Hstep _. by apply (spec_end_simulates json_type_array s).
Qed.

(** A run the specification accepts is a run of the callbacks. *)
Lemma yajl_run_simulates evs s st s' :
  simulates s st → spec_run evs s = Ok s' → fresh_run evs s = true →
  ∃ st', yajl_run evs st = Ok (yajl_status_ok, st') ∧ simulates s' st'.
Proof.
  revert s st. induction evs as [|e evs IH]; intros s st Hsim; simpl.
  { intros [= <-] _. by exists st. }
  destruct_ok (spec_step e s) as s1 eqn:E. simpl.
  intros Hrun [Hf Hfs]%andb_true_iff.
  destruct (reader_cb_simulates _ _ _ _ Hsim E Hf) as (st1 & -> & Hsim1). simpl. eauto.
Qed.

Lemma simulates_initial : simulates spec_initial initial_state.
Proof. done. Qed.

End simulation.

(** ** The theorems of the component *)

(** C9: the callbacks implement the builder of the specification on every
    sequence of events it accepts in which no value is put under a key its
    object already has: they neither cancel nor fault, leave the stack
    empty, and leave in [root] the tree the specification builds. *)
Theorem yajl_run_refines_spec (evs : list event) (d : json_data) :
  spec_build evs = Ok d → fresh_run evs spec_initial = true →
  ∃ k, yajl_run evs initial_state = Ok (yajl_status_ok, mk_state [] k (Some d)).
Proof.
  unfold spec_build. destruct_ok (spec_run evs spec_initial) as s eqn:Hrun. simpl.
  intros Hfin Hfresh.
  destruct (yajl_run_simulates _ _ _ _ simulates_initial Hrun Hfresh)
    as ([stk k r] & -> & Hs & Hr & _).
  unfold spec_finish in Hfin. simpl in *. subst.
  destruct (handles s), (root_slot s); simplify_eq. by exists k.
Qed.

(** [{"a":1,"b":[true,null,"x"]}] *)
Lemma yajl_run_refines_spec_witness :
  ∃ k, yajl_run
         [yajl_start_map 2; yajl_map_key "a" 0; yajl_integer 1; yajl_map_key "b" 0;
          yajl_start_array 3; yajl_boolean 1; yajl_null; yajl_string "x" 0; yajl_end_array;
          yajl_end_map] initial_state =
       Ok (yajl_status_ok,
           mk_state [] k
             (Some (JMap [("a", JInteger 1);
                          ("b", JArray [JBoolean true; JNull; JString "x"])]))).
Proof.
  apply (yajl_run_refines_spec
           [yajl_start_map 2; yajl_map_key "a" 0; yajl_integer 1; yajl_map_key "b" 0;
            yajl_start_array 3; yajl_boolean 1; yajl_null; yajl_string "x" 0; yajl_end_array;
            yajl_end_map]); reflexivity.
Defined.




(** C31: events that end while a container is open are refused by the
    specification with [TruncatedInput]; the callbacks have processed them
    without any failure of their own. *)
Theorem yajl_run_truncated_unreported (evs : list event) (s : spec_state) :
  spec_run evs spec_initial = Ok s → handles s ≠ [] → fresh_run evs spec_initial = true →
  spec_build evs = Err TruncatedInput ∧
  ∃ st, yajl_run evs initial_state = Ok (yajl_status_ok, st) ∧ stack st = handles s.
Proof.
  intros Hrun Hopen Hfresh. split.
  - unfold spec_build. rewrite Hrun. simpl. unfold spec_finish. by destruct (handles s).
  - destruct (yajl_run_simulates _ _ _ _ simulates_initial Hrun Hfresh) as (st & -> & Hs & _).
    by exists st.
Qed.

(** [{"k":] and the end of the input. *)
Lemma yajl_run_truncated_unreported_witness :
  spec_build [yajl_start_map 1; yajl_map_key "k" 0] = Err TruncatedInput ∧
  ∃ st, yajl_run [yajl_start_map 1; yajl_map_key "k" 0] initial_state =
        Ok (yajl_status_ok, st) ∧
        stack st = handles (mk_spec [[]] (Some "k") (Some (JMap []))).
Proof.
  apply (yajl_run_truncated_unreported [yajl_start_map 1; yajl_map_key "k" 0]
           (mk_spec [[]] (Some "k") (Some (JMap [])))).
  - reflexivity.
  - discriminate.
  - reflexivity.
Defined.
