(* ===== verification/Depth.v ===== *)
(** * Depth: the state machine of the yajl generator and its depth limit

    The generator of yajl is a state machine of its own: it keeps, for
    every open container, whether the next call writes a key, the value of
    a key or an element, in an array of [YAJL_MAX_DEPTH] entries.  It
    answers [yajl_gen_keys_must_be_strings] to a call other than
    [yajl_gen_string] where a key is due, [yajl_gen_generation_complete]
    to a call after the end of the top-level value, and
    [yajl_max_depth_exceeded], without writing the bracket, to an opening
    call that would be the [YAJL_MAX_DEPTH]-th inside one another.  The
    parser has no such limit.

    [checked_gen] is that state machine, over the state of the parser of
    [RoundTrip] (the positions of the open containers, innermost first);
    it records the calls it accepts.  The state after a refused call is
    the state before: [generate_json] makes no call after it.

    The theorems: [generate_json] uses the generator as it demands, so
    that a value nested less deep than the limit is written in full and
    completes the generation; [generate_json] fails on every other value;
    on arrays nested as deep as the limit [main], which does not look at
    the status, replaces the input by the brackets written so far, and it
    normalises every input that is shallower. *)

From Stdlib Require Import ZArith Lia.
From stdpp Require Import base tactics option list list_numbers strings gmap.
From S2P Require Import Prelude Containers Value Pointer Builder Parser Invariant Equiv.
From S2P Require Import Generator RoundTrip ReadLoop Main.

(** [#define YAJL_MAX_DEPTH 128] *)
Definition YAJL_MAX_DEPTH : nat := 128.

(** The calls that open a container, that close one, and the one call that
    may write a key. *)
Definition opens (c : gen_call) : bool :=
  match c with gen_map_open | gen_array_open => true | _ => false end.

Definition closes (c : gen_call) : bool :=
  match c with gen_map_close | gen_array_close => true | _ => false end.

Definition is_string (c : gen_call) : bool :=
  match c with gen_string _ => true | _ => false end.

(** The position of the first call inside the container [c] opens. *)
Definition first_position (c : gen_call) : position :=
  match c with gen_map_open => at_key | _ => in_array end.

(** [APPENDED_ATOM]: the state after a key, a scalar or the end of a
    container has been written. *)
Definition appended_atom (st : parser_state) : parser_state :=
  match st with
  | Some (at_key :: ctx) => Some (at_value :: ctx)
  | _ => after_value st
  end.

(** A call on the generator with the limit [max_depth]: the checks
    [ENSURE_VALID_STATE], [DECREMENT_DEPTH], [ENSURE_NOT_KEY] and
    [INCREMENT_DEPTH] in the order of the functions of yajl. *)
Definition checked (max_depth : nat) (c : gen_call) :
    gen_action (parser_state * list gen_call) :=
  λ '(st, t),
    match st with
    | None => (yajl_gen_generation_complete, (st, t))
    | Some ctx =>
        if closes c then
          match ctx with
          | [] => (yajl_gen_generation_complete, (st, t))
          | _ :: ctx' => (yajl_gen_status_ok, (appended_atom (Some ctx'), t ++ [c]))
          end
        else if bool_decide (head ctx = Some at_key) && negb (is_string c) then
          (yajl_gen_keys_must_be_strings, (st, t))
        else if opens c then
          if decide (S (length ctx) < max_depth)
          then (yajl_gen_status_ok, (Some (first_position c :: ctx), t ++ [c]))
          else (yajl_max_depth_exceeded, (st, t))
        else (yajl_gen_status_ok, (appended_atom st, t ++ [c]))
    end.

Definition checked_gen (max_depth : nat) : YajlGen (parser_state * list gen_call) := {|
  yajl_gen_null := checked max_depth gen_null;
  yajl_gen_bool b := checked max_depth (gen_bool b);
  yajl_gen_integer i := checked max_depth (gen_integer i);
  yajl_gen_double r := checked max_depth (gen_double r);
  yajl_gen_string s := checked max_depth (gen_string s);
  yajl_gen_map_open := checked max_depth gen_map_open;
  yajl_gen_map_close := checked max_depth gen_map_close;
  yajl_gen_array_open := checked max_depth gen_array_open;
  yajl_gen_array_close := checked max_depth gen_array_close;
|}.

Definition checked_buf : YajlBuf gen_call (parser_state * list gen_call) :=
  {| yajl_gen_alloc := (Some [], []); yajl_gen_get_buf s := s.2 |}.

(** The empty array inside [n] arrays. *)
Fixpoint nest (n : nat) : json_data :=
  match n with
  | O => JArray []
  | S n' => JArray [nest n']
  end.

Section json_depth.
Context `{Ord : MapOrder}.

(** The number of containers [generate_json] has open at the deepest call
    it makes for [d]. *)
Fixpoint json_depth (d : json_data) : nat :=
  match d with
  | JMap m => S (max_list_with snd (map_iterate (prod_map id json_depth <$> m)))
  | JArray l => S (max_list_with json_depth l)
  | _ => 0
  end.

End json_depth.

(** ** Actions by the depth they need *)

Section nests.
Context `{Ord : MapOrder} (max_depth : nat).
Implicit Types (a b : gen_action (parser_state * list gen_call)) (n : nat).
Implicit Types (c o : gen_call) (cs t : list gen_call) (d : json_data).
Implicit Types (pos : position) (ctx : list position).
Implicit Types (l : list json_data) (m items : list (string * json_data)).

#[local] Abbreviation generate := (generate_json (Gen := checked_gen max_depth)).
#[local] Abbreviation ok := yajl_gen_status_ok.

(** [a] writes a value that opens [n] containers inside one another, by
    the calls [cs]: where a value is due and there is room for [n] more
    containers it makes its calls and leaves the generator after the
    value; where there is less room it fails. *)
Definition nests a n cs : Prop :=
  ∀ ctx t, value_position ctx → length ctx < max_depth →
    if decide (length ctx + n < max_depth)
    then a (Some ctx, t) = (ok, (after_value (Some ctx), t ++ cs))
    else (a (Some ctx, t)).1 = yajl_max_depth_exceeded.

(** [a] writes members or elements: as [nests], from the position [pos]
    inside a container back to it. *)
Definition keeps pos a n cs : Prop :=
  ∀ ctx t, S (length ctx) < max_depth →
    if decide (S (length ctx) + n < max_depth)
    then a (Some (pos :: ctx), t) = (ok, (Some (pos :: ctx), t ++ cs))
    else (a (Some (pos :: ctx), t)).1 = yajl_max_depth_exceeded.

Lemma keeps_skip pos : keeps pos skip 0 [].
Proof. intros ctx t ?. unfold skip. rewrite app_nil_r, decide_True by lia. done. Qed.

Lemma keeps_and_then pos a b n n' cs cs' :
  keeps pos a n cs → keeps pos b n' cs' → keeps pos (and_then a b) (n `max` n') (cs ++ cs').
Proof.
  intros Ha Hb ctx t Hd. specialize (Ha ctx t Hd). specialize (Hb ctx (t ++ cs) Hd).
  unfold and_then. destruct (a (Some (pos :: ctx), t)) as [status gen].
  repeat case_decide; simplify_eq/=; (lia || by rewrite ?Hb, <- ?app_assoc).
Qed.

Lemma nests_scalar c : opens c = false → closes c = false → nests (checked max_depth c) 0 [c].
Proof.
  intros Ho Hc ctx t Hctx ?. unfold checked, value_position in *.
  rewrite Ho, Hc, decide_True by lia. by destruct ctx as [|[] ctx].
Qed.

(** A value as an element of an array. *)
Lemma nests_element a n cs : nests a n cs → keeps in_array a n cs.
Proof. intros Ha ctx t Hd. by apply (Ha (in_array :: ctx) t). Qed.

(** A key and its value as a member of a map. *)
Lemma nests_member (k : string) a n cs :
  nests a n cs → keeps at_key (and_then (checked max_depth (gen_string k)) a) n (gen_string k :: cs).
Proof.
  intros Ha ctx t Hd. specialize (Ha (at_value :: ctx) (t ++ [gen_string k])).
  unfold and_then. simpl in *.
  case_decide; [rewrite Ha by done; by rewrite <- app_assoc | by apply Ha].
Qed.

(** An opening call where a value is due. *)
Lemma checked_open o ctx t :
  opens o = true → closes o = false → value_position ctx →
  checked max_depth o (Some ctx, t) =
  if decide (S (length ctx) < max_depth)
  then (ok, (Some (first_position o :: ctx), t ++ [o]))
  else (yajl_max_depth_exceeded, (Some ctx, t)).
Proof.
  intros Ho Ho' Hctx. unfold checked. rewrite Ho, Ho'.
  by rewrite (bool_decide_eq_false_2 _ Hctx).
Qed.

(** A container around its members or elements. *)
Lemma nests_bracket a n cs o c :
  opens o = true → closes o = false → closes c = true → keeps (first_position o) a n cs →
  nests (and_then (checked max_depth o) (and_then a (checked max_depth c)))
    (S n) (o :: cs ++ [c]).
Proof.
  intros Ho Ho' Hc Ha ctx t Hctx Hd. unfold and_then. rewrite checked_open by done.
  destruct (decide (S (length ctx) < max_depth)) as [Hs|Hs]; simpl;
    [|by rewrite decide_False by lia].
  specialize (Ha ctx (t ++ [o]) Hs).
  destruct (a (Some (first_position o :: ctx), t ++ [o])) as [status [st' t']].
  repeat case_decide; simplify_eq/=; rewrite ?Hc, <- ?app_assoc; try (lia || done).
  unfold value_position in Hctx. by destruct ctx as [|[] ctx].
Qed.

(** The loops of [generate_json] over the elements of an array and over
    the members of a map. *)
Lemma keeps_elements l :
  Forall (λ d, nests (generate d) (json_depth d) (calls_of d)) l →
  keeps in_array (for_each (generate <$> l)) (max_list_with json_depth l)
    (concat (calls_of <$> l)).
Proof.
  induction 1; csimpl; [apply keeps_skip | apply keeps_and_then; [by apply nests_element | done]].
Qed.

Lemma keeps_items items :
  Forall (λ kv, nests (generate kv.2) (json_depth kv.2) (calls_of kv.2)) items →
  keeps at_key
    (for_each (map_item (Gen := checked_gen max_depth) <$> (prod_map id generate <$> items)))
    (max_list_with snd (prod_map id json_depth <$> items))
    (concat ((λ item, gen_string item.1 :: item.2) <$> (prod_map id calls_of <$> items))).
Proof.
  induction 1 as [|[k d] items Hd _ IH]; csimpl; [apply keeps_skip|].
  apply (keeps_and_then _ _ _ (json_depth d) _ (gen_string k :: calls_of d)); [|done].
  by apply nests_member.
Qed.

Lemma json_depth_JMap m :
  json_depth (JMap m) = S (max_list_with snd (prod_map id json_depth <$> map_iterate m)).
Proof. simpl. by rewrite map_iterate_fmap. Qed.

(** [generate_json] on the generator with a limit. *)
Lemma generate_json_nests d : nests (generate d) (json_depth d) (calls_of d).
Proof.
  induction d as [| | | | |m IH|l IH] using json_data_ind; try by apply nests_scalar.
  - rewrite generate_json_JMap, calls_of_JMap, json_depth_JMap.
    apply (nests_bracket _ _ _ gen_map_open gen_map_close); [done..|].
    apply keeps_items, Forall_forall. intros [k d] Hkd%map_iterate_elem.
    by apply (Forall_forall (λ kv, nests (generate kv.2) (json_depth kv.2) (calls_of kv.2)) m).
  - apply (nests_bracket _ _ _ gen_array_open gen_array_close); [done..|].
    by apply keeps_elements.
Qed.

End nests.

(** ** Arrays inside arrays *)

Section nest.
Context `{Ord : MapOrder}.
Implicit Types (n max_depth : nat) (t : list gen_call) (ctx : list position).

Lemma keys_unique_nest n : keys_unique (nest n) = true.
Proof. induction n as [|n IH]; simpl; [done|]. by rewrite IH. Qed.

Lemma reorder_nest n : reorder (nest n) = nest n.
Proof. induction n as [|n IH]; simpl; [done|]. by rewrite IH. Qed.

Lemma json_depth_nest n : json_depth (nest n) = S n.
Proof. induction n as [|n IH]; simpl; [done|]. rewrite IH. simpl. lia. Qed.

(** The generator accepts the brackets the limit leaves room for and
    fails at the next. *)
Lemma generate_json_nest max_depth n ctx t :
  value_position ctx → length ctx < max_depth → max_depth ≤ length ctx + S n →
  generate_json (Gen := checked_gen max_depth) (nest n) (Some ctx, t) =
  (yajl_max_depth_exceeded,
   (Some (replicate (max_depth - 1 - length ctx) in_array ++ ctx),
    t ++ replicate (max_depth - 1 - length ctx) gen_array_open)).
Proof.
  revert ctx t. induction n as [|n IH]; intros ctx t Hctx Hd Hn; simpl; unfold and_then;
    change (yajl_gen_array_open (Some ctx, t))
      with (checked max_depth gen_array_open (Some ctx, t));
    rewrite checked_open by done; case_decide; simpl.
  - lia.
  - replace (max_depth - 1 - length ctx) with 0 by lia. by rewrite app_nil_r.
  - rewrite IH by (done || simpl; lia). simpl.
    replace (max_depth - 1 - length ctx) with (S (max_depth - 1 - S (length ctx))) by lia.
    by rewrite <- app_assoc, replicate_S_end, <- (app_assoc _ [in_array]).
  - replace (max_depth - 1 - length ctx) with 0 by lia. by rewrite app_nil_r.
Qed.

End nest.

(** ** The depth of a value *)

Section json_depth_lemmas.
Context `{Ord : MapOrder}.
Implicit Types (d : json_data) (l : list json_data) (m : list (string * json_data)).

(** Putting the members in iteration order does not change the depth. *)
Lemma json_depth_reorder d : keys_unique d = true → json_depth (reorder d) = json_depth d.
Proof.
  induction d as [| | | | |m IH|l IH] using json_data_ind; try done.
  - intros [Hok Hm]%keys_unique_JMap. rewrite reorder_JMap, !json_depth_JMap. f_equal.
    rewrite map_iterate_fmap, (map_iterate_perm (map_iterate m)) by by apply map_iterate_ok.
    rewrite !max_list_with_fmap. apply max_list_with_ext, Forall_forall.
    intros [k x] Hx%map_iterate_elem. rewrite Forall_forall in IH, Hm.
    apply (IH _ Hx), (Hm _ Hx).
  - intros Hl%keys_unique_JArray. simpl. f_equal. rewrite max_list_with_fmap.
    apply max_list_with_ext. by apply (Forall_mp _ _ l IH).
Qed.

End json_depth_lemmas.

(** ** The theorems of the component *)

Section depth_correct.
Context `{Growth : VectorGrowth} `{!Unlimited Growth} `{Ord : MapOrder}.
Implicit Types (d : json_data) (n max_depth : nat) (t : list gen_call) (ctx : list position).
Implicit Types (w : world gen_call) (input : string).

(** C22: a fresh generator with a depth limit answers [generate_json] with
    [yajl_gen_status_ok] exactly for the values whose containers are
    nested less deep than the limit; for every other value
    [generate_json] returns a failure. *)
Theorem generate_json_depth_limit max_depth d :
  0 < max_depth →
  (generate_json (Gen := checked_gen max_depth) d (Some [], [])).1 = yajl_gen_status_ok ↔
  json_depth d < max_depth.
Proof.
  intros Hmax. pose proof (generate_json_nests max_depth d [] []) as H. simpl in H.
  case_decide; rewrite H by done; [done|]. split; [done | lia].
Qed.

(** C23: [generate_json] uses the generator as its state machine demands:
    wherever a value is due and the value fits under the depth limit, no
    call is answered with [yajl_gen_keys_must_be_strings] or
    [yajl_gen_generation_complete]; all the calls of [calls_of] are made,
    the status is [yajl_gen_status_ok], and the generator is left after
    the value, with the generation complete at the top level. *)
Theorem generate_json_within_depth max_depth d ctx t :
  value_position ctx → length ctx + json_depth d < max_depth →
  generate_json (Gen := checked_gen max_depth) d (Some ctx, t) =
  (yajl_gen_status_ok, (after_value (Some ctx), t ++ calls_of d)).
Proof.
  intros Hctx Hd. pose proof (generate_json_nests max_depth d ctx t Hctx) as H.
  rewrite decide_True in H by done. apply H. lia.
Qed.

(** C21: the parser has no depth limit and the generator has one: on a
    file that holds arrays nested [YAJL_MAX_DEPTH] deep or deeper, [main]
    parses the text, [generate_json] fails with
    [yajl_max_depth_exceeded], and [main], which does not look at that
    status, returns 0 after replacing the content of the file by the
    [YAJL_MAX_DEPTH - 1] opening brackets the generator accepted. *)
Theorem main_depth_exceeded n (argv0 : string) input w :
  input ≠ "-" → files w !! input = Some (calls_of (nest n)) →
  input ∉ write_protected w → YAJL_MAX_DEPTH ≤ S n →
  main (Parse := token_parse) (Gen := checked_gen YAJL_MAX_DEPTH) (Buf := checked_buf)
    gen_null [argv0; input] w =
  Ok (0%Z, mk_world (<[input := replicate (YAJL_MAX_DEPTH - 1) gen_array_open]> (files w))
             (write_protected w) (stdin w) (stdout w) (console w)).
Proof.
  intros Hin Hf Hw Hn.
  rewrite (main_tokens (Buf := checked_buf) (nest n)) by (done || apply keys_unique_nest).
  rewrite reorder_nest. simpl yajl_gen_alloc.
  rewrite (generate_json_nest YAJL_MAX_DEPTH n [] [])
    by (done || unfold YAJL_MAX_DEPTH in *; simpl; lia).
  simpl length. by rewrite Nat.sub_0_r.
Qed.

(** With the depth limit of the generator, [main] normalises every
    file that holds the text of a value with pairwise distinct keys whose
    containers are nested less deep than [YAJL_MAX_DEPTH]. *)
Theorem main_normalises_within_depth d (argv0 : string) input w :
  keys_unique d = true → json_depth d < YAJL_MAX_DEPTH →
  input ≠ "-" → files w !! input = Some (calls_of d) → input ∉ write_protected w →
  main (Parse := token_parse) (Gen := checked_gen YAJL_MAX_DEPTH) (Buf := checked_buf)
    gen_null [argv0; input] w =
  Ok (0%Z, mk_world (<[input := calls_of (reorder d)]> (files w))
             (write_protected w) (stdin w) (stdout w) (console w)).
Proof.
  intros Hd Hdepth Hin Hf Hw. rewrite (main_tokens (Buf := checked_buf) d) by done.
  simpl yajl_gen_alloc.
  pose proof (generate_json_nests YAJL_MAX_DEPTH (reorder d) [] []) as H. simpl in H.
  rewrite json_depth_reorder, decide_True in H by done. rewrite H; [done..|].
  unfold YAJL_MAX_DEPTH. lia.
Qed.

End depth_correct.

(** ** The theorems at concrete values *)

(** [[[]]] needs two levels: a limit of 2 is too low. *)
Lemma generate_json_depth_limit_witness :
  (generate_json (Ord := insertion_order) (Gen := checked_gen 2)
     (JArray [JArray []]) (Some [], [])).1 = yajl_gen_status_ok ↔
  json_depth (Ord := insertion_order) (JArray [JArray []]) < 2.
Proof. apply (generate_json_depth_limit (Ord := insertion_order) 2 (JArray [JArray []])). lia. Defined.

(** [{"k":null}] as an element of an array, under a limit of 3. *)
Lemma generate_json_within_depth_witness :
  generate_json (Ord := insertion_order) (Gen := checked_gen 3)
    (JMap [("k", JNull)]) (Some [in_array], [gen_array_open]) =
  (yajl_gen_status_ok,
   (after_value (Some [in_array]),
    [gen_array_open] ++ calls_of (Ord := insertion_order) (JMap [("k", JNull)]))).
Proof.
  apply (generate_json_within_depth (Ord := insertion_order) 3 (JMap [("k", JNull)])
           [in_array] [gen_array_open]).
  - discriminate.
  - vm_compute. lia.
Defined.

(** 128 arrays inside one another. *)
Lemma main_depth_exceeded_witness :
  main (Growth := doubling_growth) (Ord := insertion_order) (Parse := token_parse)
    (Gen := checked_gen YAJL_MAX_DEPTH) (Buf := checked_buf) gen_null ["rjson"; "in.json"]
    (mk_world {["in.json" := calls_of (Ord := insertion_order) (nest 127)]} [] [] [] []) =
  Ok (0%Z, mk_world
             (<["in.json" := replicate (YAJL_MAX_DEPTH - 1) gen_array_open]>
                {["in.json" := calls_of (Ord := insertion_order) (nest 127)]})
             [] [] [] []).
Proof.
  refine (main_depth_exceeded (Growth := doubling_growth) (Ord := insertion_order)
            127 "rjson" "in.json"
            (mk_world {["in.json" := calls_of (Ord := insertion_order) (nest 127)]} [] [] [] [])
            _ _ _ _).
  - discriminate.
  - apply lookup_singleton_eq.
  - apply not_elem_of_nil.
  - reflexivity.
Defined.

(** [{"b":1,"a":null}] with a map that iterates from its newest entry. *)
Lemma main_normalises_within_depth_witness :
  main (Growth := doubling_growth) (Ord := newest_first) (Parse := token_parse)
    (Gen := checked_gen YAJL_MAX_DEPTH) (Buf := checked_buf) gen_null ["rjson"; "in.json"]
    (mk_world {["in.json" := calls_of (Ord := newest_first)
                               (JMap [("b", JInteger 1); ("a", JNull)])]} [] [] [] []) =
  Ok (0%Z, mk_world
             (<["in.json" := calls_of (Ord := newest_first)
                               (reorder (Ord := newest_first)
                                  (JMap [("b", JInteger 1); ("a", JNull)]))]>
                {["in.json" := calls_of (Ord := newest_first)
                                 (JMap [("b", JInteger 1); ("a", JNull)])]})
             [] [] [] []).
Proof.
  refine (main_normalises_within_depth (Growth := doubling_growth) (Ord := newest_first)
            (JMap [("b", JInteger 1); ("a", JNull)]) "rjson" "in.json"
            (mk_world {["in.json" := calls_of (Ord := newest_first)
                                       (JMap [("b", JInteger 1); ("a", JNull)])]} [] [] [] [])
            _ _ _ _ _).
  - reflexivity.
  - vm_compute. lia.
  - discriminate.
  - apply lookup_singleton_eq.
  - apply not_elem_of_nil.
Defined.
